(** * derr.h: leveled error reporting, verified over a shallow embedding

    The header keeps one process-wide configuration ([g_derr]) and sends
    every record that passes the level filter to stderr, to an optional
    file and to syslog, inside one mutex-protected section.  The C code
    talks to the outside only through library calls, so the embedding
    records each library call as an event of a trace; the process either
    returns, ends through [exit] or [abort], or runs into undefined
    behaviour of the C library. *)

From Stdlib Require Import ZArith List String Ascii Bool Lia.
From Stdlib Require Import DecimalString.
Import ListNotations.

Local Open Scope string_scope.
Local Open Scope list_scope.
Local Open Scope Z_scope.

Infix "+++" := append (right associativity, at level 60).

(** * The model *)

(** ** printf-style formatting *)

(** An argument passed through the variadic part of a call. *)
Inductive parg : Type :=
| PStr (s : string)
| PInt (z : Z).

(** Decimal rendering of [%d]. *)
Definition dec (z : Z) : string := NilZero.string_of_int (Z.to_int z).

(** The fragment of printf the header itself uses: [%s], [%d] and [%%].
    [None] stands for undefined behaviour of the C library: a conversion
    whose argument is missing or has the wrong type (C11 7.21.6.1p9), or a
    conversion outside this fragment.  Surplus arguments are ignored, as
    in C. *)
Fixpoint format (fmt : string) (args : list parg) : option string :=
  match fmt with
  | EmptyString => Some EmptyString
  | String "%"%char (String "s"%char rest) =>
      match args with
      | PStr s :: args' => option_map (append s) (format rest args')
      | _ => None
      end
  | String "%"%char (String "d"%char rest) =>
      match args with
      | PInt z :: args' => option_map (append (dec z)) (format rest args')
      | _ => None
      end
  | String "%"%char (String "%"%char rest) =>
      option_map (String "%"%char) (format rest args)
  | String "%"%char _ => None
  | String c rest => option_map (String c) (format rest args)
  end.

(** What fits a buffer of [n] bytes: at most [n - 1] bytes and the
    terminator. *)
Definition truncate (n : Z) (s : string) : string :=
  substring 0 (Z.to_nat (n - 1)) s.

Definition snprintf (n : Z) (fmt : string) (args : list parg) : option string :=
  option_map (truncate n) (format fmt args).

(** Zero-padded [%0Nd]. *)
Fixpoint zeros (n : nat) : string :=
  match n with
  | O => EmptyString
  | S k => String "0"%char (zeros k)
  end.

Definition pad0 (width : nat) (z : Z) : string :=
  if z <? 0
  then "-" +++ zeros (width - 1 - String.length (dec (- z))) +++ dec (- z)
  else zeros (width - String.length (dec z)) +++ dec z.

(** ** Levels and constants *)

Definition DERR_DEBUG : Z := 10.
Definition DERR_INFO  : Z := 20.
Definition DERR_WARN  : Z := 30.
Definition DERR_ERROR : Z := 40.
Definition DERR_FATAL : Z := 50.

(** The five enumerators of [derr_level]; a C enum variable can hold any
    other [int] as well, so levels are integers. *)
Definition defined_level (l : Z) : bool :=
  (l =? DERR_DEBUG) || (l =? DERR_INFO) || (l =? DERR_WARN)
  || (l =? DERR_ERROR) || (l =? DERR_FATAL).

(** <syslog.h> and <stdlib.h>. *)
Definition LOG_CRIT    : Z := 2.
Definition LOG_ERR     : Z := 3.
Definition LOG_WARNING : Z := 4.
Definition LOG_INFO    : Z := 6.
Definition LOG_DEBUG   : Z := 7.
Definition LOG_PID     : Z := 1.
Definition LOG_CONS    : Z := 2.
Definition LOG_USER    : Z := 8.
Definition EXIT_FAILURE : Z := 1.

(** C truth of an [int]. *)
Definition truthy (z : Z) : bool := negb (z =? 0).

(** ** Configuration *)

(** [struct derr_state] without the mutex, whose state lives in the
    scheduler model below.  [FILE *] is a handle; [NULL] is [None]. *)
Record derr_state : Type := mk_state {
  progname      : option string;
  min_level     : Z;
  color         : Z;
  utc           : Z;
  include_errno : Z;
  file          : option nat;
  use_syslog    : Z
}.

Definition g_derr_init : derr_state :=
  mk_state None DERR_DEBUG 1 0 1 None 0.

Definition level_str (l : Z) : string :=
  if l =? DERR_DEBUG then "DEBUG"
  else if l =? DERR_INFO then "INFO"
  else if l =? DERR_WARN then "WARN"
  else if l =? DERR_ERROR then "ERROR"
  else if l =? DERR_FATAL then "FATAL"
  else "LOG".

Definition ESC : string := String (ascii_of_nat 27) EmptyString.

Definition level_color (g : derr_state) (l : Z) : string :=
  if negb (truthy (color g)) then ""
  else if l =? DERR_DEBUG then ESC +++ "[2m"
  else if l =? DERR_INFO then ESC +++ "[0m"
  else if l =? DERR_WARN then ESC +++ "[33m"
  else if l =? DERR_ERROR then ESC +++ "[31m"
  else if l =? DERR_FATAL then ESC +++ "[1;31m"
  else ESC +++ "[0m".

Definition color_reset (g : derr_state) : string :=
  if truthy (color g) then ESC +++ "[0m" else "".

Definition syslog_priority (lvl : Z) : Z :=
  if lvl =? DERR_DEBUG then LOG_DEBUG
  else if lvl =? DERR_INFO then LOG_INFO
  else if lvl =? DERR_WARN then LOG_WARNING
  else if lvl =? DERR_ERROR then LOG_ERR
  else if lvl =? DERR_FATAL then LOG_CRIT
  else LOG_INFO.

(** ** The platform *)

Record timespec : Type := mk_timespec { tv_sec : Z; tv_nsec : Z }.

Record tm : Type := mk_tm {
  tm_year : Z; tm_mon : Z; tm_mday : Z;
  tm_hour : Z; tm_min : Z; tm_sec : Z
}.

(** The GNU [strerror_r] returns a pointer: the caller's buffer, filled,
    or a string of its own. *)
Inductive gnu_msg : Type :=
| InBuf (s : string)
| Static (s : string).

(** What the build and the C library decide.  The first six fields are the
    preprocessor symbols the header tests; the others are the library
    functions whose results the header uses. *)
Record platform : Type := mk_platform {
  is_unix      : bool;   (* defined(__unix__) *)
  is_apple     : bool;   (* defined(__APPLE__) *)
  is_linux     : bool;   (* defined(__linux__) *)
  is_android   : bool;   (* defined(__ANDROID__) *)
  gnu_source   : bool;   (* defined(_GNU_SOURCE) *)
  execinfo_h   : bool;   (* defined(EXECINFO_H) *)
  clock_gettime : nat -> timespec;         (* the n-th reading of the clock *)
  gmtime_r      : Z -> tm;
  localtime_r   : Z -> tm;
  xsi_strerror_r : Z -> Z -> Z * string; (* return value, buffer *)
  gnu_strerror_r : Z -> Z -> gnu_msg;
  stack_depth   : Z                        (* frames available; <= 0: none *)
}.

Definition DERR_POSIX (p : platform) : bool := is_unix p || is_apple p.

(** The condition of the [#if] around the backtrace block, with the
    precedence of the preprocessor: [&&] binds tighter than [||]. *)
Definition backtrace_compiled (p : platform) : bool :=
  (DERR_POSIX p && execinfo_h p) || (is_linux p && negb (is_android p)).

(** ** Library calls, the world and the result of a call *)

Inductive stream : Type :=
| Stderr
| FileStream (h : nat).

Inductive call : Type :=
| CClockGettime
| CVsnprintf (fmt : string) (args : list parg)
| CStrerrorR (errnum : Z)
| CLock
| CUnlock
| CFprintf (s : stream) (fmt : string) (args : list parg)
| CFputc (c : ascii) (s : stream)
| CFflush (s : stream)
| CSyslog (priority : Z) (fmt : string) (args : list parg)
| COpenlog (ident : string) (option : Z) (facility : Z)
| CCloselog
| CBacktrace (size : Z)
| CBacktraceSymbolsFd (n : Z) (fd : Z).

Record world : Type := mk_world {
  g_derr : derr_state;
  errno  : Z;
  ticks  : nat;
  trace  : list call
}.

Inductive result (A : Type) : Type :=
| Ret (a : A) (w : world)
| Exited (status : Z) (w : world)
| Aborted (w : world)
| Undefined.

Arguments Ret {A} a w.
Arguments Exited {A} status w.
Arguments Aborted {A} w.
Arguments Undefined {A}.

Definition M (A : Type) : Type := world -> result A.

Definition ret {A : Type} (a : A) : M A := fun w => Ret a w.

Definition bind {A B : Type} (m : M A) (k : A -> M B) : M B :=
  fun w =>
    match m w with
    | Ret a w' => k a w'
    | Exited s w' => Exited s w'
    | Aborted w' => Aborted w'
    | Undefined => Undefined
    end.

Notation "x <- m ;; k" := (bind m (fun x => k))
  (at level 61, m at next level, right associativity).
Notation "m ;; k" := (bind m (fun _ => k))
  (at level 61, right associativity).

Definition gets {A : Type} (f : derr_state -> A) : M A :=
  fun w => Ret (f (g_derr w)) w.

Definition modify (f : derr_state -> derr_state) : M unit :=
  fun w => Ret tt (mk_world (f (g_derr w)) (errno w) (ticks w) (trace w)).

Definition get_errno : M Z := fun w => Ret (errno w) w.

Definition do_call (c : call) : M unit :=
  fun w => Ret tt (mk_world (g_derr w) (errno w) (ticks w) (trace w ++ [c])).

Definition tick : M nat :=
  fun w => Ret (ticks w) (mk_world (g_derr w) (errno w) (S (ticks w)) (trace w)).

Definition exit (status : Z) : M unit := fun w => Exited status w.
Definition abort : M unit := fun w => Aborted w.
Definition undefined {A : Type} : M A := fun _ => Undefined.

Definition when (b : bool) (m : M unit) : M unit := if b then m else ret tt.

Definition lift_fmt (o : option string) : M string :=
  match o with
  | Some s => ret s
  | None => undefined
  end.

(** ** The implementation half of the header *)

(** The format strings of [vemit], in the order of the source. *)
Definition NLc : ascii := ascii_of_nat 10.
Definition NL : string := String NLc EmptyString.

Definition fmt_stderr_errno : string := "%s%s%s [%s] %s: %s (errno=%d)" +++ NL.
Definition fmt_stderr : string := "%s%s%s [%s] %s: %s" +++ NL.
Definition fmt_stderr_detail : string := "%s        -> %s%s" +++ NL.
Definition fmt_file_errno : string :=
  "%s [%s] %s: %s (errno=%d)" +++ NL +++ "        -> %s" +++ NL.
Definition fmt_file : string := "%s [%s] %s: %s" +++ NL.
Definition fmt_syslog_errno : string := "%s: %s (errno=%d) -> %s".
Definition fmt_syslog : string := "%s: %s".
Definition fmt_backtrace : string := "%sBacktrace (%d frames):%s" +++ NL.

Definition STDERR_FILENO : Z := 2.

(** The integer type of a C expression: signed or unsigned, of so many
    bits.  [int] has 32 bits. *)
Inductive ctype : Type :=
| CSigned (bits : Z)
| CUnsigned (bits : Z).

Definition INT_BITS : Z := 32.
Definition C_int : ctype := CSigned INT_BITS.

(** The values of a type. *)
Definition in_range (t : ctype) (v : Z) : Prop :=
  match t with
  | CSigned bits => - 2 ^ (bits - 1) <= v < 2 ^ (bits - 1)
  | CUnsigned bits => 0 <= v < 2 ^ bits
  end.

(** [e == -1] for [e] of type [t] and value [v], after the usual
    arithmetic conversions: a type narrower than [int] is promoted to
    [int] and keeps its value; against an unsigned type at least as wide as
    [int] the constant -1 becomes the largest value of that type; against
    a signed type it stays -1. *)
Definition equals_minus_one (t : ctype) (v : Z) : bool :=
  match t with
  | CSigned _ => v =? -1
  | CUnsigned bits =>
      if bits <? INT_BITS then v =? -1 else v =? 2 ^ bits - 1
  end.

Section Implementation.

Variable p : platform.

(** [ts_now]: ISO 8601 with milliseconds, ["Z"] appended in UTC mode.
    [ts_text k u n] is the content of the buffer of [n] bytes after the
    [k]-th reading of the clock with [g_derr.utc = u]. *)
Definition ts_text (k : nat) (u : Z) (n : Z) : string :=
  let ts := clock_gettime p k in
  let sec := tv_sec ts in
  let tmv := if truthy u then gmtime_r p sec else localtime_r p sec in
  let ms := Z.quot (tv_nsec ts) 1000000 in
  truncate n
    (pad0 4 (tm_year tmv + 1900) +++ "-" +++ pad0 2 (tm_mon tmv + 1) +++ "-"
     +++ pad0 2 (tm_mday tmv) +++ "T" +++ pad0 2 (tm_hour tmv) +++ ":"
     +++ pad0 2 (tm_min tmv) +++ ":" +++ pad0 2 (tm_sec tmv) +++ "."
     +++ pad0 3 ms +++ (if truthy u then "Z" else "")).

Definition ts_now (n : Z) : M string :=
  k <- tick ;;
  do_call CClockGettime ;;
  u <- gets utc ;;
  ret (ts_text k u n).

(** [strerror_portable]: the description ends in the caller's buffer of
    [n] bytes, whose final content is the result. *)
Definition strerror_portable (errnum : Z) (n : Z) : M string :=
  do_call (CStrerrorR errnum) ;;
  if gnu_source p && negb (is_apple p)
  then
    match gnu_strerror_r p errnum n with
    | InBuf s => ret (truncate n s)
    | Static msg => lift_fmt (snprintf n "%s" [PStr msg])
    end
  else
    let (rc, s) := xsi_strerror_r p errnum n in
    if negb (rc =? 0)
    then lift_fmt (snprintf n "errno %d" [PInt errnum])
    else ret (truncate n s).

Definition lock : M unit := when (DERR_POSIX p) (do_call CLock).
Definition unlock : M unit := when (DERR_POSIX p) (do_call CUnlock).

Definition vsnprintf (n : Z) (fmt : string) (ap : list parg) : M string :=
  do_call (CVsnprintf fmt ap) ;;
  lift_fmt (snprintf n fmt ap).

Definition fprintf (s : stream) (fmt : string) (args : list parg) : M unit :=
  do_call (CFprintf s fmt args).

Definition syslog (priority : Z) (fmt : string) (args : list parg) : M unit :=
  do_call (CSyslog priority fmt args).

(** [backtrace] fills at most [size] entries and returns their number. *)
Definition backtrace (size : Z) : M Z :=
  do_call (CBacktrace size) ;;
  ret (Z.max 0 (Z.min (stack_depth p) size)).

Definition vemit (lvl has_errno errnum : Z) (fmt : string) (ap : list parg)
  : M unit :=
  ml <- gets min_level ;;
  if lvl <? ml then ret tt else
  tbuf <- ts_now 40 ;;
  msg <- vsnprintf 2048 fmt ap ;;
  ie <- gets include_errno ;;
  ebuf <- (if truthy has_errno && truthy ie
           then strerror_portable errnum 256
           else ret "") ;;
  pn <- gets progname ;;
  let pname := match pn with Some s => s | None => "program" end in
  c <- gets (fun g => level_color g lvl) ;;
  r <- gets color_reset ;;
  lock ;;
  ie1 <- gets include_errno ;;
  (if truthy has_errno && truthy ie1
   then fprintf Stderr fmt_stderr_errno
          [PStr c; PStr tbuf; PStr r; PStr (level_str lvl); PStr pname;
           PStr msg; PInt errnum]
   else fprintf Stderr fmt_stderr
          [PStr c; PStr tbuf; PStr r; PStr (level_str lvl); PStr pname;
           PStr msg]) ;;
  ie2 <- gets include_errno ;;
  when (truthy has_errno && truthy ie2)
    (fprintf Stderr fmt_stderr_detail [PStr c; PStr ebuf; PStr r]) ;;
  f <- gets file ;;
  match f with
  | Some h =>
      ie3 <- gets include_errno ;;
      (if truthy has_errno && truthy ie3
       then fprintf (FileStream h) fmt_file_errno
              [PStr tbuf; PStr (level_str lvl); PStr pname; PStr msg;
               PInt errnum; PStr ebuf]
       else fprintf (FileStream h) fmt_file
              [PStr tbuf; PStr (level_str lvl); PStr pname; PStr msg]) ;;
      do_call (CFflush (FileStream h))
  | None => ret tt
  end ;;
  when (DERR_POSIX p)
    (us <- gets use_syslog ;;
     when (truthy us)
       (let sl := syslog_priority lvl in
        ie4 <- gets include_errno ;;
        if truthy has_errno && truthy ie4
        then syslog sl fmt_syslog_errno
               [PStr pname; PStr msg; PInt errnum; PStr ebuf]
        else syslog sl fmt_syslog [PStr pname; PStr msg])) ;;
  when (backtrace_compiled p)
    (when (lvl >=? DERR_FATAL)
       (n <- backtrace 128 ;;
        when (n >? 0)
          (fprintf Stderr fmt_backtrace [PStr c; PInt n; PStr r] ;;
           do_call (CBacktraceSymbolsFd n STDERR_FILENO) ;;
           do_call (CFputc NLc Stderr)))) ;;
  unlock.

(** *** Public functions *)

Definition derr_set_program_name (name : option string) : M unit :=
  modify (fun g => mk_state name (min_level g) (color g) (utc g)
                     (include_errno g) (file g) (use_syslog g)).

Definition derr_set_min_level (lvl : Z) : M unit :=
  modify (fun g => mk_state (progname g) lvl (color g) (utc g)
                     (include_errno g) (file g) (use_syslog g)).

Definition derr_enable_color (enable : Z) : M unit :=
  modify (fun g => mk_state (progname g) (min_level g)
                     (if truthy enable then 1 else 0) (utc g)
                     (include_errno g) (file g) (use_syslog g)).

Definition derr_set_timestamp_utc (use_utc : Z) : M unit :=
  modify (fun g => mk_state (progname g) (min_level g) (color g)
                     (if truthy use_utc then 1 else 0)
                     (include_errno g) (file g) (use_syslog g)).

Definition derr_set_log_file (fp : option nat) : M unit :=
  modify (fun g => mk_state (progname g) (min_level g) (color g) (utc g)
                     (include_errno g) fp (use_syslog g)).

Definition derr_set_include_errno_details (enable : Z) : M unit :=
  modify (fun g => mk_state (progname g) (min_level g) (color g) (utc g)
                     (if truthy enable then 1 else 0) (file g) (use_syslog g)).

Definition set_use_syslog (v : Z) : M unit :=
  modify (fun g => mk_state (progname g) (min_level g) (color g) (utc g)
                     (include_errno g) (file g) v).

Definition derr_use_syslog (enable : Z) : M unit :=
  when (DERR_POSIX p)
    (us <- gets use_syslog ;;
     if truthy enable && negb (truthy us)
     then
       pn <- gets progname ;;
       do_call (COpenlog (match pn with Some s => s | None => "program" end)
                  (Z.lor LOG_CONS LOG_PID) LOG_USER) ;;
       set_use_syslog 1
     else
       us' <- gets use_syslog ;;
       when (negb (truthy enable) && truthy us')
         (do_call CCloselog ;; set_use_syslog 0)).

Definition derr_log (lvl : Z) (fmt : string) (ap : list parg) : M unit :=
  vemit lvl 0 0 fmt ap.

Definition derr_log_errno (lvl errnum : Z) (fmt : string) (ap : list parg)
  : M unit :=
  vemit lvl 1 errnum fmt ap.

Definition derr_flush : M unit :=
  lock ;;
  do_call (CFflush Stderr) ;;
  f <- gets file ;;
  match f with
  | Some h => do_call (CFflush (FileStream h))
  | None => ret tt
  end ;;
  unlock.

(** *** The macros of the public half

    A macro receives its variadic part as one format string and the
    arguments after it; [#cond] and [#expr] are the source text of the
    macro argument. *)

Definition DIE (fmt : string) (va : list parg) : M unit :=
  derr_log DERR_FATAL fmt va ;;
  derr_flush ;;
  exit EXIT_FAILURE.

Definition DIE_ERRNO (fmt : string) (va : list parg) : M unit :=
  e <- get_errno ;;
  derr_log_errno DERR_FATAL e fmt va ;;
  derr_flush ;;
  exit EXIT_FAILURE.

(** The literal ["Assert failed: %s — "] is pasted in front of the
    caller's format, and [#cond] is appended after the caller's
    arguments. *)
Definition DASSERT (cond : Z) (cond_text : string) (fmt : string)
  (va : list parg) : M unit :=
  if negb (truthy cond)
  then
    e <- get_errno ;;
    derr_log_errno DERR_FATAL e ("Assert failed: %s — " +++ fmt)
      (va ++ [PStr cond_text]) ;;
    derr_flush ;;
    abort
  else ret tt.

Definition DTRY (t : ctype) (expr : Z) (expr_text : string) : M unit :=
  if equals_minus_one t expr
  then DIE_ERRNO "%s failed" [PStr expr_text]
  else ret tt.

End Implementation.

Definition example_platform : platform :=
  mk_platform true false true false false false
    (fun k => mk_timespec (1700000000 + Z.of_nat k) 123456789)
    (fun _ => mk_tm 123 10 14 22 13 20)
    (fun _ => mk_tm 123 10 14 23 13 20)
    (fun e _ => if e =? 2 then (0, "No such file or directory") else (22, ""))
    (fun e _ => if e =? 2 then Static "No such file or directory"
                else InBuf ("Unknown error " +++ dec e))
    7.

Definition world0 (e : Z) : world := mk_world g_derr_init e 0 [].

(** ** What one emission does, as a list of library calls *)

Section Emission.

Variable p : platform.

(** The buffer [strerror_portable] leaves behind. *)
Definition strerror_text (errnum : Z) (n : Z) : string :=
  if gnu_source p && negb (is_apple p)
  then
    match gnu_strerror_r p errnum n with
    | InBuf s => truncate n s
    | Static msg => truncate n msg
    end
  else
    if negb (fst (xsi_strerror_r p errnum n) =? 0)
    then truncate n ("errno " +++ dec errnum)
    else truncate n (snd (xsi_strerror_r p errnum n)).

Definition with_detail (g : derr_state) (has_errno : Z) : bool :=
  truthy has_errno && truthy (include_errno g).

Definition pname_of (g : derr_state) : string :=
  match progname g with Some s => s | None => "program" end.

Definition prepare_calls (g : derr_state) (has_errno errnum : Z)
  (fmt : string) (ap : list parg) : list call :=
  [CClockGettime; CVsnprintf fmt ap]
  ++ (if with_detail g has_errno then [CStrerrorR errnum] else []).

Definition console_calls (g : derr_state) (lvl has_errno errnum : Z)
  (tbuf msg ebuf : string) : list call :=
  let c := level_color g lvl in
  let r := color_reset g in
  if with_detail g has_errno
  then [CFprintf Stderr fmt_stderr_errno
          [PStr c; PStr tbuf; PStr r; PStr (level_str lvl); PStr (pname_of g);
           PStr msg; PInt errnum];
        CFprintf Stderr fmt_stderr_detail [PStr c; PStr ebuf; PStr r]]
  else [CFprintf Stderr fmt_stderr
          [PStr c; PStr tbuf; PStr r; PStr (level_str lvl); PStr (pname_of g);
           PStr msg]].

Definition file_calls (g : derr_state) (lvl has_errno errnum : Z)
  (tbuf msg ebuf : string) : list call :=
  match file g with
  | Some h =>
      [ (if with_detail g has_errno
         then CFprintf (FileStream h) fmt_file_errno
                [PStr tbuf; PStr (level_str lvl); PStr (pname_of g); PStr msg;
                 PInt errnum; PStr ebuf]
         else CFprintf (FileStream h) fmt_file
                [PStr tbuf; PStr (level_str lvl); PStr (pname_of g); PStr msg]);
        CFflush (FileStream h) ]
  | None => []
  end.

Definition syslog_calls (g : derr_state) (lvl has_errno errnum : Z)
  (msg ebuf : string) : list call :=
  if DERR_POSIX p && truthy (use_syslog g)
  then [ if with_detail g has_errno
         then CSyslog (syslog_priority lvl) fmt_syslog_errno
                [PStr (pname_of g); PStr msg; PInt errnum; PStr ebuf]
         else CSyslog (syslog_priority lvl) fmt_syslog
                [PStr (pname_of g); PStr msg] ]
  else [].

Definition frames : Z := Z.max 0 (Z.min (stack_depth p) 128).

Definition backtrace_calls (g : derr_state) (lvl : Z) : list call :=
  if backtrace_compiled p && (lvl >=? DERR_FATAL)
  then CBacktrace 128
       :: (if frames >? 0
           then [CFprintf Stderr fmt_backtrace
                   [PStr (level_color g lvl); PInt frames; PStr (color_reset g)];
                 CBacktraceSymbolsFd frames STDERR_FILENO;
                 CFputc NLc Stderr]
           else [])
  else [].

Definition locked (body : list call) : list call :=
  if DERR_POSIX p then [CLock] ++ body ++ [CUnlock] else body.

(** The calls of one emission that passes the filter, in a world whose
    configuration is [g] and whose clock has been read [k] times, with
    [msg] the rendered message. *)
Definition fanout_calls (g : derr_state) (k : nat) (lvl has_errno errnum : Z)
  (msg : string) : list call :=
  let tbuf := ts_text p k (utc g) 40 in
  let ebuf := if with_detail g has_errno then strerror_text errnum 256 else "" in
  console_calls g lvl has_errno errnum tbuf msg ebuf
  ++ file_calls g lvl has_errno errnum tbuf msg ebuf
  ++ syslog_calls g lvl has_errno errnum msg ebuf
  ++ backtrace_calls g lvl.

Definition vemit_calls (g : derr_state) (k : nat) (lvl has_errno errnum : Z)
  (fmt : string) (ap : list parg) (msg : string) : list call :=
  prepare_calls g has_errno errnum fmt ap
  ++ locked (fanout_calls g k lvl has_errno errnum msg).

Definition flush_calls (g : derr_state) : list call :=
  locked (CFflush Stderr
          :: match file g with
             | Some h => [CFflush (FileStream h)]
             | None => []
             end).

End Emission.

(** ** Memory: where the error description is kept *)

(** The places that hold text: an array of a caller, such as [ebuf] of
    [vemit]; the buffer inside the C library that the non-reentrant
    [strerror] fills and returns; and the library's catalogue of messages,
    which the GNU [strerror_r] may return a pointer into. *)
Inductive place : Type :=
| CallerBuffer (b : nat)
| LibraryBuffer
| Catalogue (errnum : Z).

Definition place_eqb (x y : place) : bool :=
  match x, y with
  | CallerBuffer a, CallerBuffer b => Nat.eqb a b
  | LibraryBuffer, LibraryBuffer => true
  | Catalogue a, Catalogue b => a =? b
  | _, _ => false
  end.

Definition memory : Type := place -> string.

(** One access to memory.  [Fill dst n s]: a library function writes [s]
    into the [n] bytes at [dst].  [Copy dst n src]: [snprintf(dst, n, "%s",
    src)], which reads [src] when it runs. *)
Inductive access : Type :=
| Fill (dst : place) (n : Z) (s : string)
| Copy (dst : place) (n : Z) (src : place).

Definition target (a : access) : place :=
  match a with
  | Fill dst _ _ => dst
  | Copy dst _ _ => dst
  end.

Definition source (a : access) : option place :=
  match a with
  | Fill _ _ _ => None
  | Copy _ _ src => Some src
  end.

(** Nothing is written into a buffer of no bytes. *)
Definition store (m : memory) (dst : place) (n : Z) (s : string) : memory :=
  if n <=? 0 then m
  else fun x => if place_eqb x dst then truncate n s else m x.

Definition perform (m : memory) (a : access) : memory :=
  match a with
  | Fill dst n s => store m dst n s
  | Copy dst n src => store m dst n (m src)
  end.

Definition run_accesses (l : list access) (m : memory) : memory :=
  fold_left perform l m.

(** [strerror_portable(errnum, buf, n)] as accesses to memory.  The XSI
    [strerror_r] fills [buf] and returns a status; on a status other than
    0, [snprintf] overwrites [buf] with ["errno N"].  The GNU [strerror_r]
    either fills [buf] and returns it, or returns a pointer into the
    catalogue, which [snprintf] then copies into [buf]. *)
Definition strerror_portable_accesses (p : platform) (errnum : Z)
  (buf : place) (n : Z) : list access :=
  if gnu_source p && negb (is_apple p)
  then
    match gnu_strerror_r p errnum n with
    | InBuf s => [Fill buf n s]
    | Static _ => [Copy buf n (Catalogue errnum)]
    end
  else
    let (rc, s) := xsi_strerror_r p errnum n in
    Fill buf n s
    :: (if negb (rc =? 0) then [Fill buf n ("errno " +++ dec errnum)] else []).

(** The catalogue entry the GNU [strerror_r] points to holds the message
    it stands for. *)
Definition catalogue_holds (p : platform) (errnum n : Z) (m : memory) : Prop :=
  forall s, gnu_strerror_r p errnum n = Static s -> m (Catalogue errnum) = s.

(** An access that writes the caller's buffer [b] and reads, if anything,
    the catalogue: never the library's buffer. *)
Definition own_access (b : nat) (a : access) : bool :=
  place_eqb (target a) (CallerBuffer b)
  && match source a with
     | None => true
     | Some (Catalogue _) => true
     | Some _ => false
     end.

(** An access of another thread: it may read anything and write the
    library's buffer and any array but [b]; the catalogue is read-only. *)
Definition keeps_off (b : nat) (a : access) : bool :=
  match target a with
  | CallerBuffer b' => negb (Nat.eqb b' b)
  | LibraryBuffer => true
  | Catalogue _ => false
  end.

(** The accesses of two threads in the order a schedule picks them:
    [true] lets the first thread make its next access, [false] the second;
    when the schedule ends, or a thread has no access left, the rest runs
    in order. *)
Fixpoint weave (sched : list bool) (mine others : list access)
  : list access :=
  match sched with
  | [] => mine ++ others
  | true :: sched' =>
      match mine with
      | a :: mine' => a :: weave sched' mine' others
      | [] => others
      end
  | false :: sched' =>
      match others with
      | a :: others' => a :: weave sched' mine others'
      | [] => mine
      end
  end.

(** The underlying [strerror_r] reports a failure: the XSI function by a
    return value other than 0; the GNU function returns a message and has
    no return value for a failure. *)
Definition reports_failure (p : platform) (errnum n : Z) : bool :=
  if gnu_source p && negb (is_apple p)
  then false
  else negb (fst (xsi_strerror_r p errnum n) =? 0).

(** A build with [_GNU_SOURCE], on which error 2 comes from the catalogue
    and an unknown code is described in the caller's buffer. *)
Definition gnu_platform : platform :=
  mk_platform true false true false true false
    (fun k => mk_timespec (1700000000 + Z.of_nat k) 123456789)
    (fun _ => mk_tm 123 10 14 22 13 20)
    (fun _ => mk_tm 123 10 14 23 13 20)
    (fun e _ => if e =? 2 then (0, "No such file or directory") else (22, ""))
    (fun e _ => if e =? 2 then Static "No such file or directory"
                else InBuf ("Unknown error " +++ dec e))
    7.

(** A memory whose catalogue has the message of error 2. *)
Definition memory0 : memory :=
  fun x =>
    match x with
    | Catalogue 2 => "No such file or directory"
    | _ => ""
    end.

(** The world after some more calls, and after one more reading of the
    clock. *)
Definition add_calls (l : list call) (w : world) : world :=
  mk_world (g_derr w) (errno w) (ticks w) (trace w ++ l).

Definition clock_read (w : world) : world :=
  mk_world (g_derr w) (errno w) (S (ticks w)) (trace w).

(** [yields g k m a l k']: in every world with configuration [g] whose
    clock has been read [k] times, [m] returns [a], performs the calls [l]
    and leaves the clock read [k'] times. *)
Definition yields {A : Type} (g : derr_state) (k : nat) (m : M A) (a : A)
  (l : list call) (k' : nat) : Prop :=
  forall w, g_derr w = g -> ticks w = k ->
    m w = Ret a (mk_world g (errno w) k' (trace w ++ l)).

(** ** Sinks *)

Inductive sink : Type :=
| Console
| FileSink
| SyslogSink.

(** The sink a library call writes to, if it writes to one. *)
Definition sink_of (c : call) : option sink :=
  match c with
  | CFprintf Stderr _ _ => Some Console
  | CFputc _ Stderr => Some Console
  | CBacktraceSymbolsFd _ fd => if fd =? STDERR_FILENO then Some Console else None
  | CFprintf (FileStream _) _ _ => Some FileSink
  | CFputc _ (FileStream _) => Some FileSink
  | CSyslog _ _ _ => Some SyslogSink
  | _ => None
  end.

(** The sinks written to by a list of calls, one entry per write, in the
    order of the writes. *)
Definition sink_writes (l : list call) : list sink :=
  flat_map (fun c => match sink_of c with Some s => [s] | None => [] end) l.

(** The backtrace block wrote its rendering. *)
Definition backtrace_written (p : platform) (lvl : Z) : bool :=
  backtrace_compiled p && (lvl >=? DERR_FATAL) && (frames p >? 0).

(** ** Reading results *)

(** The world a call leaves behind when it returns. *)
Definition after (m : M unit) (w : world) : world :=
  match m w with
  | Ret _ w' => w'
  | _ => w
  end.

(** A process that named itself, set a log file and switched syslog on. *)
Definition world_all_sinks : world :=
  after (derr_set_program_name (Some "demo") ;;
         derr_set_log_file (Some 3%nat) ;;
         derr_use_syslog example_platform 1)
    (world0 0).

(** The fan-out with one write per sink: console, then file, then
    syslog. *)
Definition one_write_per_sink (p : platform) (g : derr_state) : list sink :=
  [Console]
  ++ match file g with Some _ => [FileSink] | None => [] end
  ++ (if DERR_POSIX p && truthy (use_syslog g) then [SyslogSink] else []).

(** The fan-out of the code: the errno-detail line is a second write to
    the console, and the backtrace is written to the console after the
    syslog write. *)
Definition sink_order (p : platform) (g : derr_state) (lvl has_errno : Z)
  : list sink :=
  [Console]
  ++ (if with_detail g has_errno then [Console] else [])
  ++ match file g with Some _ => [FileSink] | None => [] end
  ++ (if DERR_POSIX p && truthy (use_syslog g) then [SyslogSink] else [])
  ++ (if backtrace_written p lvl then [Console; Console; Console] else []).

(** What a library call is in an emission.  The lines are told apart by
    the stream and the format string of the source. *)
Inductive step : Type :=
| ClockReading
| MessageFormatting
| ErrnoTranslation
| MutexLock
| MutexUnlock
| PrimaryLine
| DetailLine
| FileRecord
| FileFlush
| SyslogRecord
| BacktraceCapture
| BacktraceHeader
| BacktraceFrames
| BacktraceEnd
| OtherCall.

Definition step_of (c : call) : step :=
  match c with
  | CClockGettime => ClockReading
  | CVsnprintf _ _ => MessageFormatting
  | CStrerrorR _ => ErrnoTranslation
  | CLock => MutexLock
  | CUnlock => MutexUnlock
  | CFprintf Stderr f _ =>
      if String.eqb f fmt_stderr || String.eqb f fmt_stderr_errno
      then PrimaryLine
      else if String.eqb f fmt_stderr_detail then DetailLine
      else if String.eqb f fmt_backtrace then BacktraceHeader
      else OtherCall
  | CFprintf (FileStream _) f _ =>
      if String.eqb f fmt_file || String.eqb f fmt_file_errno
      then FileRecord
      else OtherCall
  | CFflush (FileStream _) => FileFlush
  | CSyslog _ f _ =>
      if String.eqb f fmt_syslog || String.eqb f fmt_syslog_errno
      then SyslogRecord
      else OtherCall
  | CBacktrace _ => BacktraceCapture
  | CBacktraceSymbolsFd _ fd =>
      if fd =? STDERR_FILENO then BacktraceFrames else OtherCall
  | CFputc c Stderr => if Ascii.eqb c NLc then BacktraceEnd else OtherCall
  | _ => OtherCall
  end.

(** The steps of an emission that passes the filter, in the order of the
    body of [vemit]. *)
Definition step_order (p : platform) (g : derr_state) (lvl has_errno : Z)
  : list step :=
  [ClockReading; MessageFormatting]
  ++ (if with_detail g has_errno then [ErrnoTranslation] else [])
  ++ (if DERR_POSIX p then [MutexLock] else [])
  ++ [PrimaryLine]
  ++ (if with_detail g has_errno then [DetailLine] else [])
  ++ match file g with Some _ => [FileRecord; FileFlush] | None => [] end
  ++ (if DERR_POSIX p && truthy (use_syslog g) then [SyslogRecord] else [])
  ++ (if backtrace_compiled p && (lvl >=? DERR_FATAL)
      then BacktraceCapture
           :: (if frames p >? 0
               then [BacktraceHeader; BacktraceFrames; BacktraceEnd]
               else [])
      else [])
  ++ (if DERR_POSIX p then [MutexUnlock] else []).

(** [r] is the result of an emission from [w] that reads the clock once,
    makes the calls of [step_order], one call per step and no other call,
    so that it writes to the sinks in [sink_order], and flushes the file it
    has just written to. *)
Definition fans_out (p : platform) (w : world) (lvl has_errno : Z)
  (r : result unit) : Prop :=
  exists l,
    r = Ret tt (add_calls l (clock_read w))
    /\ map step_of l = step_order p (g_derr w) lvl has_errno
    /\ sink_writes l = sink_order p (g_derr w) lvl has_errno
    /\ forall h, file (g_derr w) = Some h ->
         exists l1 f a l2,
           l = l1 ++ [CFprintf (FileStream h) f a; CFflush (FileStream h)] ++ l2.

(** ** The errno detail in a written record *)

Definition contains (pat s : string) : bool :=
  match index 0 pat s with
  | Some _ => true
  | None => false
  end.

(** The conversion that prints the translated error description. *)
Definition detail_directive : string := "-> %s".

Definition call_args (c : call) : list parg :=
  match c with
  | CVsnprintf _ a => a
  | CFprintf _ _ a => a
  | CSyslog _ _ a => a
  | _ => []
  end.

(** The text a write produces. *)
Definition rendered (c : call) : option string :=
  match c with
  | CFprintf _ f a => format f a
  | CSyslog _ f a => format f a
  | CFputc ch _ => Some (String ch EmptyString)
  | _ => None
  end.

Definition carries_detail (c : call) : bool :=
  match c with
  | CFprintf _ f _ => contains detail_directive f
  | CSyslog _ f _ => contains detail_directive f
  | _ => false
  end.

(** The sinks that received the errno detail, one entry per write. *)
Definition detail_writes (l : list call) : list sink :=
  flat_map (fun c => if carries_detail c
                     then match sink_of c with Some s => [s] | None => [] end
                     else []) l.

(** The error code was translated. *)
Definition translated (l : list call) : Prop :=
  exists e, In (CStrerrorR e) l.

(** The conversion that prints the error code. *)
Definition errno_directive : string := "(errno=%d)".

Definition carries_code (c : call) : bool :=
  match c with
  | CFprintf _ f _ => contains errno_directive f
  | CSyslog _ f _ => contains errno_directive f
  | _ => false
  end.

(** The sinks that received the error code, one entry per write. *)
Definition code_writes (l : list call) : list sink :=
  flat_map (fun c => if carries_code c
                     then match sink_of c with Some s => [s] | None => [] end
                     else []) l.

(** The write [c] is well formed and [text] is part of what it puts
    out. *)
Definition shows (text : string) (c : call) : Prop :=
  exists front back, rendered c = Some (front +++ text +++ back).

(** The errno detail of the two entry points: [l0] are the calls of
    [derr_log], [l1] those of [derr_log_errno] with [errnum], both at
    level [lvl] from a world with configuration [g].  Both records are
    written, to the sinks of [sink_order].  The record of [derr_log] has
    neither the translated description nor the error code in any write,
    and no code is translated for it.  The record of [derr_log_errno] has
    each of them once in every sink that is in use when [include_errno]
    is set, and then the text put out holds ["-> "] followed by the
    translation of [errnum], and ["(errno=N)"]; when [include_errno] is
    not set its calls are those of [derr_log].  The translation is called
    for exactly when [include_errno] is set, and for [errnum]. *)
Definition detail_iff_requested (p : platform) (g : derr_state)
  (lvl errnum : Z) (l0 l1 : list call) : Prop :=
  sink_writes l0 = sink_order p g lvl 0
  /\ sink_writes l1 = sink_order p g lvl 1
  /\ detail_writes l0 = []
  /\ code_writes l0 = []
  /\ ~ translated l0
  /\ detail_writes l1
     = (if truthy (include_errno g) then one_write_per_sink p g else [])
  /\ code_writes l1
     = (if truthy (include_errno g) then one_write_per_sink p g else [])
  /\ (forall s, In s (sink_writes l1) ->
        (In s (detail_writes l1) <-> include_errno g <> 0))
  /\ (include_errno g = 0 -> l1 = l0)
  /\ (translated l1 <-> include_errno g <> 0)
  /\ (forall e, In (CStrerrorR e) l1 -> e = errnum)
  /\ (forall c, In c l1 -> carries_detail c = true ->
        In (PStr (strerror_text p errnum 256)) (call_args c)
        /\ shows ("-> " +++ strerror_text p errnum 256) c)
  /\ (forall c, In c l1 -> carries_code c = true ->
        In (PInt errnum) (call_args c)
        /\ shows ("(errno=" +++ dec errnum +++ ")") c).

(** ** The syslog channel and the programs that use the header *)

(** [openlog] opens the channel, [closelog] closes it, and [syslog] on a
    closed channel opens it.  The channel is closed when the process
    starts. *)
Definition channel_step (open : bool) (c : call) : bool :=
  match c with
  | COpenlog _ _ _ => true
  | CCloselog => false
  | CSyslog _ _ _ => true
  | _ => open
  end.

Definition channel_open (l : list call) : bool :=
  fold_left channel_step l false.

Fixpoint count_openlog (l : list call) : nat :=
  match l with
  | [] => O
  | COpenlog _ _ _ :: l' => S (count_openlog l')
  | _ :: l' => count_openlog l'
  end.

Fixpoint count_closelog (l : list call) : nat :=
  match l with
  | [] => O
  | CCloselog :: l' => S (count_closelog l')
  | _ :: l' => count_closelog l'
  end.

(** What the program around the header can do: call a public function,
    use a macro, or change [errno]. *)
Inductive api : Type :=
| SetProgramName (name : option string)
| SetMinLevel (lvl : Z)
| EnableColor (enable : Z)
| SetTimestampUtc (use_utc : Z)
| SetLogFile (fp : option nat)
| SetIncludeErrnoDetails (enable : Z)
| UseSyslog (enable : Z)
| Log (lvl : Z) (fmt : string) (ap : list parg)
| LogErrno (lvl errnum : Z) (fmt : string) (ap : list parg)
| Flush
| Die (fmt : string) (va : list parg)
| DieErrno (fmt : string) (va : list parg)
| Assert (cond : Z) (cond_text fmt : string) (va : list parg)
| Try (t : ctype) (expr : Z) (expr_text : string)
| SetErrno (e : Z).

Definition run_api (p : platform) (a : api) : M unit :=
  match a with
  | SetProgramName name => derr_set_program_name name
  | SetMinLevel lvl => derr_set_min_level lvl
  | EnableColor enable => derr_enable_color enable
  | SetTimestampUtc use_utc => derr_set_timestamp_utc use_utc
  | SetLogFile fp => derr_set_log_file fp
  | SetIncludeErrnoDetails enable => derr_set_include_errno_details enable
  | UseSyslog enable => derr_use_syslog p enable
  | Log lvl fmt ap => derr_log p lvl fmt ap
  | LogErrno lvl errnum fmt ap => derr_log_errno p lvl errnum fmt ap
  | Flush => derr_flush p
  | Die fmt va => DIE p fmt va
  | DieErrno fmt va => DIE_ERRNO p fmt va
  | Assert cond cond_text fmt va => DASSERT p cond cond_text fmt va
  | Try t expr expr_text => DTRY p t expr expr_text
  | SetErrno e => fun w => Ret tt (mk_world (g_derr w) e (ticks w) (trace w))
  end.

(** The worlds of a running process. *)
Inductive reachable (p : platform) : world -> Prop :=
| reach_start (e : Z) : reachable p (world0 e)
| reach_step (w w' : world) (a : api) :
    reachable p w -> run_api p a w = Ret tt w' -> reachable p w'.

(** The calls [derr_use_syslog(enable)] makes with configuration [g]. *)
Definition syslog_switch (g : derr_state) (enable : Z) : list call :=
  if truthy enable && negb (truthy (use_syslog g))
  then [COpenlog (pname_of g) (Z.lor LOG_CONS LOG_PID) LOG_USER]
  else if negb (truthy enable) && truthy (use_syslog g)
       then [CCloselog]
       else [].

(** The flag tells whether the channel is open. *)
Definition flag_matches_channel (w : world) : Prop :=
  channel_open (trace w) = truthy (use_syslog (g_derr w)).

(** ** The backtrace of a fatal record *)

(** The calls of the backtrace block. *)
Definition is_backtrace_call (c : call) : bool :=
  match c with
  | CBacktrace _ => true
  | CBacktraceSymbolsFd _ _ => true
  | CFputc _ _ => true
  | CFprintf _ f _ => String.eqb f fmt_backtrace
  | _ => false
  end.

Definition without_backtrace (l : list call) : list call :=
  filter (fun c => negb (is_backtrace_call c)) l.

(** The first line of a record on the console. *)
Definition is_primary_line (c : call) : bool :=
  match c with
  | CFprintf Stderr f _ => String.eqb f fmt_stderr || String.eqb f fmt_stderr_errno
  | _ => false
  end.

(** What is written for a captured stack of [frames p] entries. *)
Definition backtrace_rendering (p : platform) (g : derr_state) (lvl : Z)
  : list call :=
  [CFprintf Stderr fmt_backtrace
     [PStr (level_color g lvl); PInt (frames p); PStr (color_reset g)];
   CBacktraceSymbolsFd (frames p) STDERR_FILENO;
   CFputc NLc Stderr].

(** An emission with the backtrace block left out. *)
Definition record_calls (p : platform) (g : derr_state) (k : nat)
  (lvl has_errno errnum : Z) (fmt : string) (ap : list parg) (msg : string)
  : list call :=
  let tbuf := ts_text p k (utc g) 40 in
  let ebuf := if with_detail g has_errno then strerror_text p errnum 256 else "" in
  prepare_calls g has_errno errnum fmt ap
  ++ locked p (console_calls g lvl has_errno errnum tbuf msg ebuf
               ++ file_calls g lvl has_errno errnum tbuf msg ebuf
               ++ syslog_calls p g lvl has_errno errnum msg ebuf).

(** [l], the calls of an emission at [lvl] with configuration [g], has
    the backtrace where and when the header wants it. *)
Definition backtrace_on_fatal (p : platform) (g : derr_state) (lvl : Z)
  (l rest : list call) : Prop :=
  (forall n, In (CBacktrace n) l
             <-> n = 128 /\ backtrace_compiled p = true /\ DERR_FATAL <= lvl)
  /\ 0 <= frames p <= 128
  /\ (backtrace_written p lvl = true
      <-> backtrace_compiled p = true /\ 0 < stack_depth p /\ DERR_FATAL <= lvl)
  /\ (backtrace_written p lvl = true ->
      exists l1 l2,
        l = l1 ++ backtrace_rendering p g lvl ++ l2
        /\ sink_writes (backtrace_rendering p g lvl) = [Console; Console; Console]
        /\ (exists c, In c l1 /\ is_primary_line c = true)
        /\ (DERR_POSIX p = true ->
            In CLock l1 /\ ~ In CUnlock l1 /\ l2 = [CUnlock]))
  /\ (backtrace_written p lvl = false ->
      forall c, In c l -> is_backtrace_call c = true -> c = CBacktrace 128)
  /\ without_backtrace l = rest.

(** ** Program name and level label of a record *)

(** The conversion pair that prints the program name and the message; it
    is in every format that writes the first line of a record. *)
Definition record_directive : string := "%s: %s".

Definition is_record_line (c : call) : bool :=
  match c with
  | CFprintf _ f _ => contains record_directive f
  | CSyslog _ f _ => contains record_directive f
  | _ => false
  end.

(** The argument printed as the message of a record line: the one that
    the second [%s] of ["%s: %s"] consumes. *)
Fixpoint message_argument (fmt : string) (args : list parg) : option parg :=
  if prefix record_directive fmt then nth_error args 1
  else
    match fmt with
    | EmptyString => None
    | String "%"%char (String "%"%char rest) => message_argument rest args
    | String "%"%char (String _ rest) => message_argument rest (tl args)
    | String _ rest => message_argument rest args
    end.

Definition message_of (c : call) : option parg :=
  match c with
  | CFprintf _ f a => message_argument f a
  | CSyslog _ f a => message_argument f a
  | _ => None
  end.

(** The calls a process has made when it returns or ends. *)
Definition calls_of (r : result unit) : option (list call) :=
  match r with
  | Ret _ w => Some (trace w)
  | Exited _ w => Some (trace w)
  | Aborted w => Some (trace w)
  | Undefined => None
  end.

(** The defaults of the configuration, field by field. *)
Definition defaults (g : derr_state) : Prop :=
  progname g = None
  /\ min_level g = DERR_DEBUG
  /\ truthy (color g) = true
  /\ truthy (utc g) = false
  /\ truthy (include_errno g) = true
  /\ file g = None
  /\ truthy (use_syslog g) = false.

(** [l] has a record line on the console, and every record line in it
    names the program [name]. *)
Definition displays_program (name : string) (l : list call) : Prop :=
  (exists c, In c l /\ is_record_line c = true /\ sink_of c = Some Console)
  /\ forall c, In c l -> is_record_line c = true ->
       In (PStr name) (call_args c).

(** The lines of a record whose level is none of the five, with
    configuration [g], time stamp [tbuf] and message [msg]. *)
Definition labelled_LOG (p : platform) (g : derr_state) (tbuf msg : string)
  (l : list call) : Prop :=
  In (CFprintf Stderr fmt_stderr
        [PStr (if truthy (color g) then ESC +++ "[0m" else "");
         PStr tbuf; PStr (color_reset g); PStr "LOG"; PStr (pname_of g);
         PStr msg]) l
  /\ (forall h, file g = Some h ->
        In (CFprintf (FileStream h) fmt_file
              [PStr tbuf; PStr "LOG"; PStr (pname_of g); PStr msg]) l)
  /\ (DERR_POSIX p = true -> use_syslog g <> 0 ->
        In (CSyslog LOG_INFO fmt_syslog [PStr (pname_of g); PStr msg]) l).

(** ** Threads and the mutex *)

Definition tid : Type := nat.

(** The calls of the fan-out phase: every call that touches a sink, and
    the capture of the stack. *)
Definition in_fanout (c : call) : bool :=
  match c with
  | CFprintf _ _ _ => true
  | CFputc _ _ => true
  | CFflush _ => true
  | CSyslog _ _ _ => true
  | CBacktrace _ => true
  | CBacktraceSymbolsFd _ _ => true
  | _ => false
  end.

(** [guarded held l]: a thread that runs [l], holding the mutex or not
    as [held] says, locks only when it does not hold the mutex, unlocks
    only when it holds it, makes fan-out calls only while it holds it, and
    ends without it. *)
Fixpoint guarded (held : bool) (l : list call) : bool :=
  match l with
  | [] => negb held
  | CLock :: rest => negb held && guarded true rest
  | CUnlock :: rest => held && guarded false rest
  | c :: rest => (held || negb (in_fanout c)) && guarded held rest
  end.

(** What a thread of the process runs: emissions that pass the filter and
    flushes, each with the configuration it finds. *)
Inductive thread_program (p : platform) : list call -> Prop :=
| tp_done : thread_program p []
| tp_emit g k lvl has_errno errnum fmt ap msg rest :
    thread_program p rest ->
    thread_program p (vemit_calls p g k lvl has_errno errnum fmt ap msg ++ rest)
| tp_flush g rest :
    thread_program p rest ->
    thread_program p (flush_calls p g ++ rest).

(** The process as the scheduler sees it: who holds [g_derr.mu], what
    each thread has still to run, and the calls made so far with the
    thread that made each. *)
Record sched : Type := mk_sched {
  owner   : option tid;
  pending : tid -> list call;
  done    : list (tid * call)
}.

Definition upd (f : tid -> list call) (t : tid) (l : list call)
  : tid -> list call :=
  fun t' => if Nat.eqb t' t then l else f t'.

Definition owns (o : option tid) (t : tid) : bool :=
  match o with
  | Some t' => Nat.eqb t' t
  | None => false
  end.

(** One call of one thread.  [pthread_mutex_lock] returns only when the
    mutex is free; [pthread_mutex_unlock] is called by the holder. *)
Inductive sched_step : sched -> sched -> Prop :=
| step_lock s t rest :
    pending s t = CLock :: rest ->
    owner s = None ->
    sched_step s (mk_sched (Some t) (upd (pending s) t rest)
                    (done s ++ [(t, CLock)]))
| step_unlock s t rest :
    pending s t = CUnlock :: rest ->
    owner s = Some t ->
    sched_step s (mk_sched None (upd (pending s) t rest)
                    (done s ++ [(t, CUnlock)]))
| step_call s t c rest :
    pending s t = c :: rest ->
    c <> CLock -> c <> CUnlock ->
    sched_step s (mk_sched (owner s) (upd (pending s) t rest)
                    (done s ++ [(t, c)])).

Inductive sched_reach : sched -> sched -> Prop :=
| reach_refl s : sched_reach s s
| reach_more s s' s'' :
    sched_reach s s' -> sched_step s' s'' -> sched_reach s s''.

Definition sched_start (prog : tid -> list call) : sched :=
  mk_sched None prog [].

(** The holder of the mutex after a call, and after a list of calls. *)
Definition next_holder (h : option tid) (e : tid * call) : option tid :=
  match snd e with
  | CLock => Some (fst e)
  | CUnlock => None
  | _ => h
  end.

Definition holder (l : list (tid * call)) : option tid :=
  fold_left next_holder l None.

(** The scheduler lets thread [t] make its next call, if it can. *)
Definition fire (t : tid) (s : sched) : sched :=
  match pending s t with
  | [] => s
  | CLock :: rest =>
      match owner s with
      | None => mk_sched (Some t) (upd (pending s) t rest)
                  (done s ++ [(t, CLock)])
      | Some _ => s
      end
  | CUnlock :: rest =>
      if owns (owner s) t
      then mk_sched None (upd (pending s) t rest) (done s ++ [(t, CUnlock)])
      else s
  | c :: rest =>
      mk_sched (owner s) (upd (pending s) t rest) (done s ++ [(t, c)])
  end.

Definition run_schedule (order : list tid) (s : sched) : sched :=
  fold_left (fun s t => fire t s) order s.

(** What the mutex gives: every fan-out call is made by the thread that
    holds the mutex, and between a thread's lock and its unlock no other
    thread makes a fan-out call. *)
Definition fanout_exclusive (l : list (tid * call)) : Prop :=
  (forall a t c b,
     l = a ++ (t, c) :: b -> in_fanout c = true -> holder a = Some t)
  /\ (forall a t mid t' c b,
        l = a ++ (t, CLock) :: mid ++ (t', c) :: b ->
        ~ In (t, CUnlock) mid ->
        in_fanout c = true ->
        t' = t).

(** One emission takes the mutex before its first fan-out call, makes
    all of them, and gives the mutex back in its last call. *)
Definition fanout_bracketed (l : list call) : Prop :=
  exists pre body,
    l = pre ++ [CLock] ++ body ++ [CUnlock]
    /\ forallb (fun c => negb (in_fanout c)) pre = true
    /\ ~ In CLock pre /\ ~ In CUnlock pre
    /\ ~ In CLock body /\ ~ In CUnlock body
    /\ forallb in_fanout body = true.

(** Two threads, one emission each. *)
Definition two_threads (t : tid) : list call :=
  match t with
  | O => vemit_calls example_platform g_derr_init 0 DERR_WARN 0 0
           "first" [] "first" ++ []
  | S O => vemit_calls example_platform g_derr_init 1 DERR_ERROR 1 2
             "second" [] "second" ++ []
  | _ => []
  end.

(** A call fits a holder: a lock finds the mutex free, an unlock is made
    by the holder, a fan-out call is made by the holder. *)
Definition fits (h : option tid) (e : tid * call) : bool :=
  match snd e with
  | CLock => match h with None => true | Some _ => false end
  | CUnlock => owns h (fst e)
  | c => negb (in_fanout c) || owns h (fst e)
  end.

Fixpoint exclusive (h : option tid) (l : list (tid * call)) : bool :=
  match l with
  | [] => true
  | e :: rest => fits h e && exclusive (next_holder h e) rest
  end.

Definition sched_inv (s : sched) : Prop :=
  exclusive None (done s) = true
  /\ holder (done s) = owner s
  /\ forall t, guarded (owns (owner s) t) (pending s t) = true.

(** * More of the header and the demo program *)

(** ** The convenience macros

    [DERR_DEBUG(...)] and its siblings share their names with the
    enumerators of [derr_level]; the macro forms carry a prime here. *)

Section Convenience.

Variable p : platform.

Definition DERR_DEBUG' (fmt : string) (va : list parg) : M unit :=
  derr_log p DERR_DEBUG fmt va.
Definition DERR_INFO' (fmt : string) (va : list parg) : M unit :=
  derr_log p DERR_INFO fmt va.
Definition DERR_WARN' (fmt : string) (va : list parg) : M unit :=
  derr_log p DERR_WARN fmt va.
Definition DERR_ERROR' (fmt : string) (va : list parg) : M unit :=
  derr_log p DERR_ERROR fmt va.

Definition DERR_DEBUG_ERRNO (err : Z) (fmt : string) (va : list parg) : M unit :=
  derr_log_errno p DERR_DEBUG err fmt va.
Definition DERR_INFO_ERRNO (err : Z) (fmt : string) (va : list parg) : M unit :=
  derr_log_errno p DERR_INFO err fmt va.
Definition DERR_WARN_ERRNO (err : Z) (fmt : string) (va : list parg) : M unit :=
  derr_log_errno p DERR_WARN err fmt va.
Definition DERR_ERROR_ERRNO (err : Z) (fmt : string) (va : list parg) : M unit :=
  derr_log_errno p DERR_ERROR err fmt va.

End Convenience.

(** ** example/demo.c *)

(** What [fopen] does in the demo: the stream it returns ([None] for
    [NULL]) and the [errno] it leaves when it fails. *)
Record demo_env : Type := mk_demo_env {
  fopen_result : option nat;
  fopen_errno  : Z
}.

Definition set_errno (e : Z) : M unit :=
  fun w => Ret tt (mk_world (g_derr w) e (ticks w) (trace w)).

Section Demo.

Variable p : platform.
Variable env : demo_env.

Definition fopen (path mode : string) : M (option nat) :=
  match fopen_result env with
  | Some h => ret (Some h)
  | None => set_errno (fopen_errno env) ;; ret None
  end.

Definition funzione_pericolosa : M unit :=
  f <- fopen "/path/inesistente" "r" ;;
  match f with
  | None => DERR_ERROR' p "Impossibile aprire il file" []
  | Some _ => ret tt
  end.

Definition test_assert : M unit :=
  let x := 5 in
  DASSERT p (if x =? 10 then 1 else 0) "x == 10"
    "La variabile x non vale 10 come atteso!" [].

Definition test_dtry : M unit :=
  let ret := -1 in
  DTRY p C_int ret "ret".

Definition main (argv0 : option string) : M Z :=
  derr_set_program_name argv0 ;;
  derr_set_min_level DERR_DEBUG ;;
  derr_enable_color 1 ;;
  derr_set_timestamp_utc 0 ;;
  DERR_DEBUG' p "Questo è un messaggio di DEBUG (dettagli tecnici)" [] ;;
  DERR_INFO' p "Avvio del programma demo" [] ;;
  DERR_WARN' p "Questo è un avviso, qualcosa non è ideale ma non blocca" [] ;;
  funzione_pericolosa ;;
  test_dtry ;;
  test_assert ;;
  DERR_INFO' p "Fine programma (non si vedrà mai)" [] ;;
  ret 0.

End Demo.

(** ** Reading traces *)

(** The formats of the messages a process formatted, in order. *)
Definition formats_of (l : list call) : list string :=
  flat_map (fun c => match c with CVsnprintf f _ => [f] | _ => [] end) l.

(** The stream a stdio call works on. *)
Definition stream_of (c : call) : option stream :=
  match c with
  | CFprintf s _ _ => Some s
  | CFputc _ s => Some s
  | CFflush s => Some s
  | _ => None
  end.


(** The world a process is in when a call returns or ends it. *)
Definition final_world {A : Type} (r : result A) : option world :=
  match r with
  | Ret _ w => Some w
  | Exited _ w => Some w
  | Aborted w => Some w
  | Undefined => None
  end.

(** The text written to a sink by a list of calls. *)
Definition written_text (s : sink) (l : list call) : string :=
  fold_right
    (fun c acc =>
       match sink_of c, rendered c with
       | Some s', Some t =>
           match s, s' with
           | Console, Console => t +++ acc
           | FileSink, FileSink => t +++ acc
           | SyslogSink, SyslogSink => t +++ acc
           | _, _ => acc
           end
       | _, _ => acc
       end)
    "" l.

(** The four [int] flags hold 0 or 1. *)
Definition flag (z : Z) : Prop := z = 0 \/ z = 1.

Definition flags_normal (g : derr_state) : Prop :=
  flag (color g) /\ flag (utc g) /\ flag (include_errno g)
  /\ flag (use_syslog g).

(** A broken-down time whose fields print in the width [ts_now] gives
    them. *)
Definition tm_printable (t : tm) : Prop :=
  0 <= tm_year t + 1900 <= 9999
  /\ 0 <= tm_mon t + 1 <= 99
  /\ 0 <= tm_mday t <= 99
  /\ 0 <= tm_hour t <= 99
  /\ 0 <= tm_min t <= 99
  /\ 0 <= tm_sec t <= 99.

(** [s] ends with [suffix]. *)
Definition ends_with (suffix s : string) : Prop :=
  exists front, s = front +++ suffix.

(** The calls of the program that are setters. *)
Definition is_setter (a : api) : bool :=
  match a with
  | SetProgramName _ | SetMinLevel _ | EnableColor _ | SetTimestampUtc _
  | SetLogFile _ | SetIncludeErrnoDetails _ | UseSyslog _ => true
  | _ => false
  end.


(** A thread that made the calls [l] does not hold the mutex, and made
    every fan-out call while it held it. *)
Definition mutex_released (l : list call) : Prop := guarded false l = true.


(** The program makes the calls of [prog] one after the other, as long
    as they return. *)
Fixpoint run_program (p : platform) (prog : list api) (w : world) : world :=
  match prog with
  | [] => w
  | a :: rest =>
      match run_api p a w with
      | Ret _ w' => run_program p rest w'
      | _ => w
      end
  end.

(** The conversions a format string asks for, in order: one argument
    each.  [None] for a format outside the fragment of [format]. *)
Inductive conversion : Type :=
| ConvString
| ConvInt.

Fixpoint conversions (fmt : string) : option (list conversion) :=
  match fmt with
  | EmptyString => Some []
  | String "%"%char (String "s"%char rest) =>
      option_map (cons ConvString) (conversions rest)
  | String "%"%char (String "d"%char rest) =>
      option_map (cons ConvInt) (conversions rest)
  | String "%"%char (String "%"%char rest) => conversions rest
  | String "%"%char _ => None
  | String _ rest => conversions rest
  end.

(** The conversion an argument is meant for. *)
Definition conversion_of (a : parg) : conversion :=
  match a with
  | PStr _ => ConvString
  | PInt _ => ConvInt
  end.

(** The library's own [fprintf] and [syslog] calls: the arguments are as
    many as the conversions of the format, each of the type its conversion
    asks for, and the call is defined. *)
Definition arguments_fit (c : call) : Prop :=
  match c with
  | CFprintf _ f a =>
      conversions f = Some (map conversion_of a) /\ format f a <> None
  | CSyslog _ f a =>
      conversions f = Some (map conversion_of a) /\ format f a <> None
  | _ => True
  end.

(** Every stdio call of [l] on a file stream is on the stream the
    configuration [g] names. *)
Definition only_configured_file (g : derr_state) (l : list call) : Prop :=
  forall c h, In c l -> stream_of c = Some (FileStream h) -> file g = Some h.

(** How many calls of [l] satisfy [f]. *)
Definition count_calls (f : call -> bool) (l : list call) : nat :=
  List.length (filter f l).

Definition is_clock_read (c : call) : bool :=
  match c with CClockGettime => true | _ => false end.

Definition is_message (c : call) : bool :=
  match c with CVsnprintf _ _ => true | _ => false end.

(** In [l] every record has one reading of the clock, one formatted
    message and one primary line on the console. *)
Definition one_line_per_record (l : list call) : Prop :=
  count_calls is_clock_read l = count_calls is_message l
  /\ count_calls is_message l = count_calls is_primary_line l.

(** The world in which a call leaves or ends the process; the world
    before it when the call is undefined. *)
Definition ended (r : result unit) (w : world) : world :=
  match final_world r with
  | Some w' => w'
  | None => w
  end.

(** * Properties *)

(** ** Basic facts *)

Example dec_negative : dec (-5) = "-5".
Proof. reflexivity. Qed.

Example pad0_milliseconds : pad0 3 7 = "007".
Proof. reflexivity. Qed.

Example format_mismatch : format "%s is %d" [PInt 5; PStr "x"] = None.
Proof. reflexivity. Qed.

Example ts_text_utc :
  ts_text example_platform 0 1 40 = "2023-11-14T22:13:20.123Z".
Proof. reflexivity. Qed.

Lemma append_empty (s : string) : s +++ "" = s.
Proof.
  induction s as [|c s IH]; simpl; [reflexivity | now rewrite IH].
Qed.

Lemma append_assoc (a b c : string) : (a +++ b) +++ c = a +++ b +++ c.
Proof.
  induction a as [|ch a IH]; cbn [append]; [reflexivity | now rewrite IH].
Qed.

(** *** The text of the library's own writes *)

Section Rendering.

Variables (c t r L pn m e : string) (n : Z).

Lemma render_stderr :
  format fmt_stderr [PStr c; PStr t; PStr r; PStr L; PStr pn; PStr m]
  = Some (c +++ t +++ r +++ " [" +++ L +++ "] " +++ pn +++ ": " +++ m +++ NL).
Proof. reflexivity. Qed.

Lemma render_stderr_errno :
  format fmt_stderr_errno
    [PStr c; PStr t; PStr r; PStr L; PStr pn; PStr m; PInt n]
  = Some (c +++ t +++ r +++ " [" +++ L +++ "] " +++ pn +++ ": " +++ m
          +++ " (errno=" +++ dec n +++ ")" +++ NL).
Proof. reflexivity. Qed.

Lemma render_stderr_detail :
  format fmt_stderr_detail [PStr c; PStr e; PStr r]
  = Some (c +++ "        -> " +++ e +++ r +++ NL).
Proof. reflexivity. Qed.

Lemma render_file :
  format fmt_file [PStr t; PStr L; PStr pn; PStr m]
  = Some (t +++ " [" +++ L +++ "] " +++ pn +++ ": " +++ m +++ NL).
Proof. reflexivity. Qed.

Lemma render_file_errno :
  format fmt_file_errno [PStr t; PStr L; PStr pn; PStr m; PInt n; PStr e]
  = Some (t +++ " [" +++ L +++ "] " +++ pn +++ ": " +++ m
          +++ " (errno=" +++ dec n +++ ")" +++ NL
          +++ "        -> " +++ e +++ NL).
Proof. reflexivity. Qed.

Lemma render_syslog :
  format fmt_syslog [PStr pn; PStr m] = Some (pn +++ ": " +++ m).
Proof.
  unfold fmt_syslog. cbn [format option_map]. now rewrite append_empty.
Qed.

Lemma render_syslog_errno :
  format fmt_syslog_errno [PStr pn; PStr m; PInt n; PStr e]
  = Some (pn +++ ": " +++ m +++ " (errno=" +++ dec n +++ ") -> " +++ e).
Proof.
  unfold fmt_syslog_errno. cbn [format option_map].
  now rewrite append_empty.
Qed.

Lemma render_backtrace :
  format fmt_backtrace [PStr c; PInt n; PStr r]
  = Some (c +++ "Backtrace (" +++ dec n +++ " frames):" +++ r +++ NL).
Proof. reflexivity. Qed.

End Rendering.

(** Where the translation and the error code stand in these texts. *)
Lemma shows_detail_console (c e r : string) :
  shows ("-> " +++ e) (CFprintf Stderr fmt_stderr_detail [PStr c; PStr e; PStr r]).
Proof.
  exists (c +++ "        "), (r +++ NL).
  cbn [rendered]. rewrite render_stderr_detail, !append_assoc. reflexivity.
Qed.

Lemma shows_detail_file (h : nat) (t L pn m e : string) (n : Z) :
  shows ("-> " +++ e)
    (CFprintf (FileStream h) fmt_file_errno
       [PStr t; PStr L; PStr pn; PStr m; PInt n; PStr e]).
Proof.
  exists (t +++ " [" +++ L +++ "] " +++ pn +++ ": " +++ m
          +++ " (errno=" +++ dec n +++ ")" +++ NL +++ "        "), NL.
  cbn [rendered]. rewrite render_file_errno, !append_assoc. reflexivity.
Qed.

Lemma shows_detail_syslog (pr : Z) (pn m e : string) (n : Z) :
  shows ("-> " +++ e)
    (CSyslog pr fmt_syslog_errno [PStr pn; PStr m; PInt n; PStr e]).
Proof.
  exists (pn +++ ": " +++ m +++ " (errno=" +++ dec n +++ ") "), "".
  cbn [rendered]. rewrite render_syslog_errno, !append_assoc, append_empty.
  reflexivity.
Qed.

Lemma shows_code_console (c t r L pn m : string) (n : Z) :
  shows ("(errno=" +++ dec n +++ ")")
    (CFprintf Stderr fmt_stderr_errno
       [PStr c; PStr t; PStr r; PStr L; PStr pn; PStr m; PInt n]).
Proof.
  exists (c +++ t +++ r +++ " [" +++ L +++ "] " +++ pn +++ ": " +++ m +++ " "),
    NL.
  cbn [rendered]. rewrite render_stderr_errno, !append_assoc. reflexivity.
Qed.

Lemma shows_code_file (h : nat) (t L pn m e : string) (n : Z) :
  shows ("(errno=" +++ dec n +++ ")")
    (CFprintf (FileStream h) fmt_file_errno
       [PStr t; PStr L; PStr pn; PStr m; PInt n; PStr e]).
Proof.
  exists (t +++ " [" +++ L +++ "] " +++ pn +++ ": " +++ m +++ " "),
    (NL +++ "        -> " +++ e +++ NL).
  cbn [rendered]. rewrite render_file_errno, !append_assoc. reflexivity.
Qed.

Lemma shows_code_syslog (pr : Z) (pn m e : string) (n : Z) :
  shows ("(errno=" +++ dec n +++ ")")
    (CSyslog pr fmt_syslog_errno [PStr pn; PStr m; PInt n; PStr e]).
Proof.
  exists (pn +++ ": " +++ m +++ " "), (" -> " +++ e).
  cbn [rendered]. rewrite render_syslog_errno, !append_assoc. reflexivity.
Qed.


Lemma add_calls_app (l1 l2 : list call) (w : world) :
  add_calls l2 (add_calls l1 w) = add_calls (l1 ++ l2) w.
Proof.
  unfold add_calls; simpl. now rewrite app_assoc.
Qed.

Section Runs.

Variable p : platform.

Lemma yields_ret {A : Type} g k (a : A) : yields g k (ret a) a [] k.
Proof.
  intros [g' e k0 tr] Hg Hk; simpl in *; subst.
  unfold ret. now rewrite app_nil_r.
Qed.

Lemma yields_bind {A B : Type} g k (m : M A) (f : A -> M B) a b l1 l2 k1 k2 :
  yields g k m a l1 k1 ->
  yields g k1 (f a) b l2 k2 ->
  yields g k (bind m f) b (l1 ++ l2) k2.
Proof.
  intros H1 H2 w Hg Hk. unfold bind. rewrite (H1 w Hg Hk).
  rewrite H2; [simpl; now rewrite app_assoc | reflexivity | reflexivity].
Qed.

Lemma yields_eq {A : Type} g k (m : M A) a l l' k' :
  yields g k m a l k' -> l = l' -> yields g k m a l' k'.
Proof. now intros H <-. Qed.

Lemma yields_gets {A : Type} g k (f : derr_state -> A) :
  yields g k (gets f) (f g) [] k.
Proof.
  intros [g' e k0 tr] Hg Hk; simpl in *; subst.
  unfold gets; simpl. now rewrite app_nil_r.
Qed.

Lemma yields_call g k (c : call) : yields g k (do_call c) tt [c] k.
Proof.
  intros [g' e k0 tr] Hg Hk; simpl in *; subst. reflexivity.
Qed.

Lemma yields_if {A : Type} g k (b : bool) (m1 m2 : M A) a1 a2 l1 l2 k' :
  yields g k m1 a1 l1 k' ->
  yields g k m2 a2 l2 k' ->
  yields g k (if b then m1 else m2) (if b then a1 else a2)
    (if b then l1 else l2) k'.
Proof. now destruct b. Qed.

Lemma yields_if_same {A : Type} g k (b : bool) (m1 m2 : M A) a l1 l2 k' :
  yields g k m1 a l1 k' ->
  yields g k m2 a l2 k' ->
  yields g k (if b then m1 else m2) a (if b then l1 else l2) k'.
Proof. now destruct b. Qed.

Lemma yields_when g k (b : bool) (m : M unit) l :
  yields g k m tt l k ->
  yields g k (when b m) tt (if b then l else []) k.
Proof.
  intros H. destruct b; [exact H | apply yields_ret].
Qed.

Lemma yields_file g k (o : option nat) (m : nat -> M unit) (l : nat -> list call) :
  (forall h, yields g k (m h) tt (l h) k) ->
  yields g k (match o with Some h => m h | None => ret tt end) tt
    (match o with Some h => l h | None => [] end) k.
Proof.
  intros H. destruct o; [apply H | apply yields_ret].
Qed.

Lemma yields_strerror_portable g k (errnum : Z) (n : Z) :
  yields g k (strerror_portable p errnum n) (strerror_text p errnum n)
    [CStrerrorR errnum] k.
Proof.
  intros [g' e k0 tr] Hg Hk; simpl in *; subst.
  unfold strerror_portable, strerror_text, bind, do_call.
  cbn [g_derr errno ticks trace].
  destruct (gnu_source p && negb (is_apple p)).
  - destruct (gnu_strerror_r p errnum n) as [s|msg]; [reflexivity|].
    unfold lift_fmt, snprintf. cbn [format option_map].
    now rewrite append_empty.
  - destruct (xsi_strerror_r p errnum n) as [rc s]. cbn [fst snd].
    destruct (negb (rc =? 0)); [|reflexivity].
    unfold lift_fmt, snprintf. cbn [format option_map].
    now rewrite append_empty.
Qed.

Lemma yields_ts_now g k (n : Z) :
  yields g k (ts_now p n) (ts_text p k (utc g) n) [CClockGettime] (S k).
Proof.
  intros [g' e k0 tr] Hg Hk; simpl in *; subst. reflexivity.
Qed.

Lemma yields_vsnprintf g k (n : Z) (fmt : string) (ap : list parg) (m : string) :
  format fmt ap = Some m ->
  yields g k (vsnprintf n fmt ap) (truncate n m) [CVsnprintf fmt ap] k.
Proof.
  intros F [g' e k0 tr] Hg Hk; simpl in *; subst.
  unfold vsnprintf, bind, do_call, lift_fmt, snprintf. now rewrite F.
Qed.

Ltac yield :=
  cbv zeta beta;
  lazymatch goal with
  | |- yields _ _ (bind _ _) _ _ _ => eapply yields_bind; [yield | yield]
  | |- yields _ _ (ret _) _ _ _ => apply yields_ret
  | |- yields _ _ (gets _) _ _ _ => apply yields_gets
  | |- yields _ _ (do_call _) _ _ _ => apply yields_call
  | |- yields _ _ (fprintf _ _ _) _ _ _ => apply yields_call
  | |- yields _ _ (syslog _ _ _) _ _ _ => apply yields_call
  | |- yields _ _ (lock _) _ _ _ => unfold lock; yield
  | |- yields _ _ (unlock _) _ _ _ => unfold unlock; yield
  | |- yields _ _ (backtrace _ _) _ _ _ => unfold backtrace; yield
  | |- yields _ _ (when _ _) _ _ _ => apply yields_when; yield
  | |- yields _ _ (strerror_portable _ _ _) _ _ _ =>
      apply yields_strerror_portable
  | |- yields _ _ (ts_now _ _) _ _ _ => apply yields_ts_now
  | |- yields _ _ (if _ then _ else _) _ _ _ =>
      first [ eapply yields_if_same; [yield | yield]
            | eapply yields_if; [yield | yield] ]
  | |- yields _ _ (match _ with Some _ => _ | None => _ end) _ _ _ =>
      eapply yields_file with (l := fun h => _); intros; yield
  end.

Lemma run_of_yields {A : Type} g k (m : M A) a l k' (w : world) :
  yields g k m a l k' -> g_derr w = g -> ticks w = k ->
  m w = Ret a (mk_world g (errno w) k' (trace w ++ l)).
Proof. intros H Hg Hk. now apply H. Qed.

Lemma derr_flush_yields g k : yields g k (derr_flush p) tt (flush_calls p g) k.
Proof.
  eapply yields_eq.
  - unfold derr_flush. yield.
  - unfold flush_calls, locked.
    destruct (DERR_POSIX p), (file g); reflexivity.
Qed.

Lemma vemit_yields g k (lvl has_errno errnum : Z) (fmt : string)
  (ap : list parg) (m : string) :
  min_level g <= lvl ->
  format fmt ap = Some m ->
  yields g k (vemit p lvl has_errno errnum fmt ap) tt
    (vemit_calls p g k lvl has_errno errnum fmt ap (truncate 2048 m)) (S k).
Proof.
  intros H F. apply Z.ltb_ge in H.
  eapply yields_eq.
  - unfold vemit.
    eapply yields_bind; [apply yields_gets|]. cbv beta. rewrite H.
    eapply yields_bind; [apply yields_ts_now|].
    eapply yields_bind; [apply (yields_vsnprintf _ _ _ _ _ _ F)|].
    yield.
  - unfold vemit_calls, prepare_calls, fanout_calls, console_calls, file_calls,
      syslog_calls, backtrace_calls, locked, with_detail, pname_of.
    fold (frames p).
    destruct (truthy has_errno && truthy (include_errno g)),
      (DERR_POSIX p), (file g), (truthy (use_syslog g)),
      (backtrace_compiled p), (lvl >=? DERR_FATAL), (frames p >? 0);
      reflexivity.
Qed.

Lemma vemit_filtered (lvl has_errno errnum : Z) (fmt : string)
  (ap : list parg) (w : world) :
  lvl < min_level (g_derr w) ->
  vemit p lvl has_errno errnum fmt ap w = Ret tt w.
Proof.
  intros H. unfold vemit, bind, gets.
  apply Z.ltb_lt in H. now rewrite H.
Qed.

Lemma vemit_undefined (lvl has_errno errnum : Z) (fmt : string)
  (ap : list parg) (w : world) :
  min_level (g_derr w) <= lvl ->
  format fmt ap = None ->
  vemit p lvl has_errno errnum fmt ap w = Undefined.
Proof.
  intros H F. unfold vemit, bind at 1, gets at 1.
  apply Z.ltb_ge in H. rewrite H.
  unfold bind at 1.
  rewrite (run_of_yields _ _ _ _ _ _ w (yields_ts_now _ _ 40) eq_refl eq_refl).
  unfold bind at 1, vsnprintf, bind, do_call, lift_fmt, snprintf.
  now rewrite F.
Qed.

Lemma vemit_run (lvl has_errno errnum : Z) (fmt : string) (ap : list parg)
  (m : string) (w : world) :
  min_level (g_derr w) <= lvl ->
  format fmt ap = Some m ->
  vemit p lvl has_errno errnum fmt ap w
  = Ret tt (add_calls
              (vemit_calls p (g_derr w) (ticks w) lvl has_errno errnum fmt ap
                 (truncate 2048 m))
              (clock_read w)).
Proof.
  intros H F.
  now rewrite (run_of_yields _ _ _ _ _ _ w
                 (vemit_yields _ (ticks w) _ has_errno errnum _ _ _ H F)
                 eq_refl eq_refl).
Qed.

Lemma derr_flush_run (w : world) :
  derr_flush p w = Ret tt (add_calls (flush_calls p (g_derr w)) w).
Proof.
  rewrite (run_of_yields _ _ _ _ _ _ w (derr_flush_yields _ (ticks w))
             eq_refl eq_refl).
  now destruct w.
Qed.

End Runs.

(** ** Order of the sink writes *)

Lemma sink_writes_app (l1 l2 : list call) :
  sink_writes (l1 ++ l2) = sink_writes l1 ++ sink_writes l2.
Proof. apply flat_map_app. Qed.

Section SinkOrder.

Variable p : platform.

Lemma sink_writes_prepare g has_errno errnum fmt ap :
  sink_writes (prepare_calls g has_errno errnum fmt ap) = [].
Proof.
  unfold prepare_calls. now destruct (with_detail g has_errno).
Qed.

Lemma sink_writes_locked l : sink_writes (locked p l) = sink_writes l.
Proof.
  unfold locked. destruct (DERR_POSIX p); [|reflexivity].
  rewrite !sink_writes_app. simpl. now rewrite app_nil_r.
Qed.

Lemma sink_writes_console g lvl has_errno errnum tbuf msg ebuf :
  sink_writes (console_calls g lvl has_errno errnum tbuf msg ebuf)
  = Console :: (if with_detail g has_errno then [Console] else []).
Proof.
  unfold console_calls. now destruct (with_detail g has_errno).
Qed.

Lemma sink_writes_file g lvl has_errno errnum tbuf msg ebuf :
  sink_writes (file_calls g lvl has_errno errnum tbuf msg ebuf)
  = match file g with Some _ => [FileSink] | None => [] end.
Proof.
  unfold file_calls. now destruct (file g), (with_detail g has_errno).
Qed.

Lemma sink_writes_syslog g lvl has_errno errnum msg ebuf :
  sink_writes (syslog_calls p g lvl has_errno errnum msg ebuf)
  = if DERR_POSIX p && truthy (use_syslog g) then [SyslogSink] else [].
Proof.
  unfold syslog_calls.
  now destruct (DERR_POSIX p && truthy (use_syslog g)),
    (with_detail g has_errno).
Qed.

Lemma sink_writes_backtrace g lvl :
  sink_writes (backtrace_calls p g lvl)
  = if backtrace_written p lvl then [Console; Console; Console] else [].
Proof.
  unfold backtrace_calls, backtrace_written.
  now destruct (backtrace_compiled p), (lvl >=? DERR_FATAL), (frames p >? 0).
Qed.

Lemma sink_writes_vemit g k lvl has_errno errnum fmt ap msg :
  sink_writes (vemit_calls p g k lvl has_errno errnum fmt ap msg)
  = [Console]
    ++ (if with_detail g has_errno then [Console] else [])
    ++ match file g with Some _ => [FileSink] | None => [] end
    ++ (if DERR_POSIX p && truthy (use_syslog g) then [SyslogSink] else [])
    ++ (if backtrace_written p lvl then [Console; Console; Console] else []).
Proof.
  unfold vemit_calls, fanout_calls.
  rewrite sink_writes_app, sink_writes_prepare, sink_writes_locked.
  rewrite !sink_writes_app, sink_writes_console, sink_writes_file,
    sink_writes_syslog, sink_writes_backtrace.
  reflexivity.
Qed.

(** The write to the file is followed at once by the flush of the file. *)
Lemma file_flushed_vemit g k lvl has_errno errnum fmt ap msg h :
  file g = Some h ->
  exists l1 f a l2,
    vemit_calls p g k lvl has_errno errnum fmt ap msg
    = l1 ++ [CFprintf (FileStream h) f a; CFflush (FileStream h)] ++ l2.
Proof.
  intros Hf. unfold vemit_calls, fanout_calls, locked, file_calls.
  rewrite Hf.
  set (pre := prepare_calls g has_errno errnum fmt ap).
  set (con := console_calls _ _ _ _ _ _ _).
  set (sys := syslog_calls _ _ _ _ _ _ _).
  set (bt := backtrace_calls _ _ _).
  destruct (with_detail g has_errno), (DERR_POSIX p).
  - exists (pre ++ [CLock] ++ con). do 2 eexists. exists (sys ++ bt ++ [CUnlock]).
    now rewrite <- !app_assoc.
  - exists (pre ++ con). do 2 eexists. exists (sys ++ bt).
    now rewrite <- !app_assoc.
  - exists (pre ++ [CLock] ++ con). do 2 eexists. exists (sys ++ bt ++ [CUnlock]).
    now rewrite <- !app_assoc.
  - exists (pre ++ con). do 2 eexists. exists (sys ++ bt).
    now rewrite <- !app_assoc.
Qed.

(** The calls are those of the body of [vemit], step by step. *)
Lemma steps_vemit g k lvl has_errno errnum fmt ap msg :
  map step_of (vemit_calls p g k lvl has_errno errnum fmt ap msg)
  = step_order p g lvl has_errno.
Proof.
  unfold vemit_calls, fanout_calls, locked, prepare_calls, console_calls,
    file_calls, syslog_calls, backtrace_calls, step_order.
  destruct (with_detail g has_errno), (DERR_POSIX p), (file g),
    (truthy (use_syslog g)), (backtrace_compiled p), (lvl >=? DERR_FATAL),
    (frames p >? 0); reflexivity.
Qed.

End SinkOrder.

(** ** Level filter and fan-out *)

Lemma vemit_fans_out (p : platform) (w : world) (lvl has_errno errnum : Z)
  (fmt : string) (ap : list parg) :
  min_level (g_derr w) <= lvl ->
  format fmt ap <> None ->
  fans_out p w lvl has_errno (vemit p lvl has_errno errnum fmt ap w).
Proof.
  intros H F. destruct (format fmt ap) as [m|] eqn:E; [|congruence].
  eexists. split; [apply (vemit_run p _ _ _ _ _ m w H E)|]. split; [|split].
  - apply steps_vemit.
  - apply sink_writes_vemit.
  - intros h Hf. now apply file_flushed_vemit.
Qed.

(** C1 (as amended).  A record below [min_level] leaves the world untouched:
    no call is made, the clock is not read, nothing is formatted.  A record
    at or above [min_level] reads the clock, formats the message, translates
    the error code when the record carries one and errno details are
    enabled, and then, between lock and unlock on a POSIX build, makes these
    writes and no other, in this order: the primary line to the console;
    the errno-detail line to the console, when the record carries an error
    code and errno details are enabled; one record to the file followed by
    the flush of that file, if a file is set; one record to syslog, if
    enabled; and, for a record at FATAL or above where the backtrace block
    is compiled in, the capture of the stack and, when frames were
    captured, the backtrace header, the frames and a closing newline on
    the console. *)
Theorem C1_filter_then_fanout (p : platform) (w : world) (lvl errnum : Z)
  (fmt : string) (ap : list parg) :
  (lvl < min_level (g_derr w) ->
     derr_log p lvl fmt ap w = Ret tt w
     /\ derr_log_errno p lvl errnum fmt ap w = Ret tt w)
  /\ (min_level (g_derr w) <= lvl ->
      format fmt ap <> None ->
        fans_out p w lvl 0 (derr_log p lvl fmt ap w)
        /\ fans_out p w lvl 1 (derr_log_errno p lvl errnum fmt ap w)).
Proof.
  split.
  - intros H. split; now apply vemit_filtered.
  - intros H F. split; now apply vemit_fans_out.
Qed.

Lemma C1_filter_then_fanout_witness :
  derr_log example_platform DERR_INFO "up" [] (after (derr_set_min_level DERR_WARN) (world0 0))
  = Ret tt (after (derr_set_min_level DERR_WARN) (world0 0))
  /\ fans_out example_platform (world0 0) DERR_ERROR 1
       (derr_log_errno example_platform DERR_ERROR 2 "open %s" [PStr "/nope"]
          (world0 0)).
Proof.
  split.
  - apply (C1_filter_then_fanout example_platform
             (after (derr_set_min_level DERR_WARN) (world0 0))
             DERR_INFO 0 "up" []).
    vm_compute. reflexivity.
  - apply (C1_filter_then_fanout example_platform (world0 0) DERR_ERROR 2
             "open %s" [PStr "/nope"]).
    + vm_compute. discriminate.
    + vm_compute. discriminate.
Defined.

(** The calls of a FATAL record with an error code, sent to all three
    sinks. *)
Example fatal_record_steps :
  map step_of
    (vemit_calls example_platform (g_derr world_all_sinks) 0 DERR_FATAL 1 2
       "boom" [] "boom")
  = [ClockReading; MessageFormatting; ErrnoTranslation; MutexLock;
     PrimaryLine; DetailLine; FileRecord; FileFlush; SyslogRecord;
     BacktraceCapture; BacktraceHeader; BacktraceFrames; BacktraceEnd;
     MutexUnlock].
Proof. vm_compute. reflexivity. Qed.

(** C1 (as stated) fails: a FATAL record with an error code, sent to all
    three sinks, writes twice to the console before the file, and three
    more times to the console after syslog. *)
Lemma C1_one_write_per_sink_fails :
  let l := vemit_calls example_platform (g_derr world_all_sinks) 0
             DERR_FATAL 1 2 "boom" [] "boom" in
  derr_log_errno example_platform DERR_FATAL 2 "boom" [] world_all_sinks
  = Ret tt (add_calls l (clock_read world_all_sinks))
  /\ sink_writes l
     = [Console; Console; FileSink; SyslogSink; Console; Console; Console]
  /\ sink_writes l
     <> one_write_per_sink example_platform (g_derr world_all_sinks).
Proof.
  cbv zeta. split; [|split].
  - vm_compute. reflexivity.
  - vm_compute. reflexivity.
  - vm_compute. discriminate.
Qed.

(** ** Errno detail *)

Lemma truthy_true (z : Z) : truthy z = true <-> z <> 0.
Proof.
  unfold truthy. rewrite negb_true_iff. apply Z.eqb_neq.
Qed.

Lemma with_detail_true (g : derr_state) (has_errno : Z) :
  with_detail g has_errno = true <-> has_errno <> 0 /\ include_errno g <> 0.
Proof.
  unfold with_detail. now rewrite andb_true_iff, !truthy_true.
Qed.

Lemma detail_writes_app (l1 l2 : list call) :
  detail_writes (l1 ++ l2) = detail_writes l1 ++ detail_writes l2.
Proof. apply flat_map_app. Qed.

Section Detail.

Variable p : platform.

Lemma detail_writes_locked l : detail_writes (locked p l) = detail_writes l.
Proof.
  unfold locked. destruct (DERR_POSIX p); [|reflexivity].
  rewrite !detail_writes_app. simpl. now rewrite app_nil_r.
Qed.

Lemma detail_writes_vemit g k lvl has_errno errnum fmt ap msg :
  detail_writes (vemit_calls p g k lvl has_errno errnum fmt ap msg)
  = if with_detail g has_errno
    then [Console]
         ++ match file g with Some _ => [FileSink] | None => [] end
         ++ (if DERR_POSIX p && truthy (use_syslog g) then [SyslogSink] else [])
    else [].
Proof.
  unfold vemit_calls, fanout_calls.
  rewrite detail_writes_app, detail_writes_locked, !detail_writes_app.
  unfold prepare_calls, console_calls, file_calls, syslog_calls,
    backtrace_calls.
  destruct (with_detail g has_errno), (file g),
    (DERR_POSIX p && truthy (use_syslog g)),
    (backtrace_compiled p && (lvl >=? DERR_FATAL)), (frames p >? 0);
    reflexivity.
Qed.

Lemma translated_vemit g k lvl has_errno errnum fmt ap msg :
  translated (vemit_calls p g k lvl has_errno errnum fmt ap msg)
  <-> with_detail g has_errno = true.
Proof.
  unfold translated, vemit_calls, fanout_calls, locked, prepare_calls,
    console_calls, file_calls, syslog_calls, backtrace_calls.
  split.
  - intros [e H]. destruct (with_detail g has_errno); [reflexivity|].
    exfalso.
    destruct (DERR_POSIX p), (file g), (truthy (use_syslog g)),
      (backtrace_compiled p), (lvl >=? DERR_FATAL), (frames p >? 0);
      simpl in H; intuition discriminate.
  - intros ->. exists errnum. simpl. auto.
Qed.

Lemma detail_text_vemit g k lvl has_errno errnum fmt ap msg c :
  In c (vemit_calls p g k lvl has_errno errnum fmt ap msg) ->
  carries_detail c = true ->
  In (PStr (strerror_text p errnum 256)) (call_args c)
  /\ shows ("-> " +++ strerror_text p errnum 256) c.
Proof.
  unfold vemit_calls, fanout_calls, locked, prepare_calls,
    console_calls, file_calls, syslog_calls, backtrace_calls.
  intros H C.
  destruct (with_detail g has_errno), (DERR_POSIX p), (file g),
    (truthy (use_syslog g)), (backtrace_compiled p), (lvl >=? DERR_FATAL),
    (frames p >? 0);
    simpl in H;
    repeat (destruct H as [<-|H];
            [try discriminate C;
             (split;
              [simpl; auto 10
              |first [apply shows_detail_console | apply shows_detail_file
                     |apply shows_detail_syslog]])|]);
    try contradiction.
Qed.

Lemma code_writes_app (l1 l2 : list call) :
  code_writes (l1 ++ l2) = code_writes l1 ++ code_writes l2.
Proof. apply flat_map_app. Qed.

Lemma code_writes_vemit g k lvl has_errno errnum fmt ap msg :
  code_writes (vemit_calls p g k lvl has_errno errnum fmt ap msg)
  = if with_detail g has_errno then one_write_per_sink p g else [].
Proof.
  unfold vemit_calls, fanout_calls, locked, prepare_calls, console_calls,
    file_calls, syslog_calls, backtrace_calls, one_write_per_sink.
  destruct (with_detail g has_errno), (DERR_POSIX p), (file g),
    (truthy (use_syslog g)), (backtrace_compiled p), (lvl >=? DERR_FATAL),
    (frames p >? 0); reflexivity.
Qed.

Lemma code_text_vemit g k lvl has_errno errnum fmt ap msg c :
  In c (vemit_calls p g k lvl has_errno errnum fmt ap msg) ->
  carries_code c = true ->
  In (PInt errnum) (call_args c)
  /\ shows ("(errno=" +++ dec errnum +++ ")") c.
Proof.
  unfold vemit_calls, fanout_calls, locked, prepare_calls,
    console_calls, file_calls, syslog_calls, backtrace_calls.
  intros H C.
  destruct (with_detail g has_errno), (DERR_POSIX p), (file g),
    (truthy (use_syslog g)), (backtrace_compiled p), (lvl >=? DERR_FATAL),
    (frames p >? 0);
    simpl in H;
    repeat (destruct H as [<-|H];
            [try discriminate C;
             (split;
              [simpl; auto 10
              |first [apply shows_code_console | apply shows_code_file
                     |apply shows_code_syslog]])|]);
    try contradiction.
Qed.

Lemma translation_of_vemit g k lvl has_errno errnum fmt ap msg e :
  In (CStrerrorR e) (vemit_calls p g k lvl has_errno errnum fmt ap msg) ->
  e = errnum.
Proof.
  unfold vemit_calls, fanout_calls, locked, prepare_calls,
    console_calls, file_calls, syslog_calls, backtrace_calls.
  intros H.
  destruct (with_detail g has_errno), (DERR_POSIX p), (file g),
    (truthy (use_syslog g)), (backtrace_compiled p), (lvl >=? DERR_FATAL),
    (frames p >? 0);
    simpl in H;
    repeat (destruct H as [H|H]; [try discriminate H; now inversion H|]);
    contradiction.
Qed.

(** With [include_errno] off, an error code changes no call. *)
Lemma vemit_calls_without_detail g k lvl has_errno errnum fmt ap msg :
  with_detail g has_errno = false ->
  vemit_calls p g k lvl has_errno errnum fmt ap msg
  = vemit_calls p g k lvl 0 0 fmt ap msg.
Proof.
  intros D.
  unfold vemit_calls, fanout_calls, prepare_calls, console_calls,
    file_calls, syslog_calls.
  rewrite D.
  replace (with_detail g 0) with false
    by (unfold with_detail; reflexivity).
  reflexivity.
Qed.

End Detail.

(** C2.  For an emission that passes the level filter, the record is
    written to every sink in use, by [derr_log] as by [derr_log_errno].
    A record sent with [derr_log] has neither the translated description
    nor the error code in any of its writes, and no error code is
    translated for it.  A record sent with [derr_log_errno] has the
    translated description and the error code once in every sink in use
    when [include_errno] is set: the text written then holds ["-> "]
    followed by the translation of the code, and ["(errno=N)"].  When
    [include_errno] is not set, its calls are the very calls of
    [derr_log], so the detail is in no sink.  The error code is
    translated exactly when [include_errno] is set. *)
Theorem C2_errno_detail_iff (p : platform) (w : world) (lvl errnum : Z)
  (fmt : string) (ap : list parg) :
  min_level (g_derr w) <= lvl ->
  format fmt ap <> None ->
  exists l0 l1,
    derr_log p lvl fmt ap w = Ret tt (add_calls l0 (clock_read w))
    /\ derr_log_errno p lvl errnum fmt ap w
       = Ret tt (add_calls l1 (clock_read w))
    /\ detail_iff_requested p (g_derr w) lvl errnum l0 l1.
Proof.
  intros H F. destruct (format fmt ap) as [m|] eqn:E; [clear F|congruence].
  do 2 eexists.
  split; [apply (vemit_run p _ _ _ _ _ m w H E)|].
  split; [apply (vemit_run p _ _ _ _ _ m w H E)|].
  assert (D1 : with_detail (g_derr w) 1 = true <-> include_errno (g_derr w) <> 0).
  { rewrite with_detail_true. intuition discriminate. }
  assert (D2 : with_detail (g_derr w) 1 = truthy (include_errno (g_derr w)))
    by reflexivity.
  unfold detail_iff_requested.
  repeat match goal with |- _ /\ _ => split end.
  - apply sink_writes_vemit.
  - apply sink_writes_vemit.
  - now rewrite detail_writes_vemit.
  - now rewrite code_writes_vemit.
  - rewrite translated_vemit. discriminate.
  - rewrite detail_writes_vemit, D2. reflexivity.
  - rewrite code_writes_vemit, D2. reflexivity.
  - intros s Hs. rewrite <- D1.
    rewrite sink_writes_vemit in Hs. rewrite detail_writes_vemit.
    unfold backtrace_written in Hs.
    destruct (with_detail (g_derr w) 1), (file (g_derr w)),
      (DERR_POSIX p && truthy (use_syslog (g_derr w))),
      (backtrace_compiled p && (lvl >=? DERR_FATAL) && (frames p >? 0));
      simpl in *; intuition discriminate.
  - intros I. apply vemit_calls_without_detail.
    rewrite D2, I. reflexivity.
  - now rewrite translated_vemit.
  - intros e. apply translation_of_vemit.
  - intros c. apply detail_text_vemit.
  - intros c. apply code_text_vemit.
Qed.

Lemma C2_errno_detail_iff_witness :
  exists l0 l1,
    derr_log example_platform DERR_ERROR "open %s" [PStr "/nope"]
      world_all_sinks
    = Ret tt (add_calls l0 (clock_read world_all_sinks))
    /\ derr_log_errno example_platform DERR_ERROR 2 "open %s" [PStr "/nope"]
         world_all_sinks
       = Ret tt (add_calls l1 (clock_read world_all_sinks))
    /\ detail_iff_requested example_platform (g_derr world_all_sinks)
         DERR_ERROR 2 l0 l1.
Proof.
  apply (C2_errno_detail_iff example_platform world_all_sinks DERR_ERROR 2
           "open %s" [PStr "/nope"]).
  - vm_compute. discriminate.
  - vm_compute. discriminate.
Defined.

(** The file keeps both lines of such a record in one write. *)
Example file_record_text :
  rendered
    (CFprintf (FileStream 3) fmt_file_errno
       [PStr "2023-11-14T23:13:20.123"; PStr "ERROR"; PStr "demo";
        PStr "open /nope"; PInt 2; PStr "No such file or directory"])
  = Some ("2023-11-14T23:13:20.123 [ERROR] demo: open /nope (errno=2)" +++ NL
          +++ "        -> No such file or directory" +++ NL).
Proof. reflexivity. Qed.

(** ** The fatal macros *)

Section Fatal.

Variable p : platform.

Lemma DIE_ERRNO_run (fmt : string) (va : list parg) (m : string) (w : world) :
  min_level (g_derr w) <= DERR_FATAL ->
  format fmt va = Some m ->
  DIE_ERRNO p fmt va w
  = Exited EXIT_FAILURE
      (add_calls
         (vemit_calls p (g_derr w) (ticks w) DERR_FATAL 1 (errno w) fmt va
            (truncate 2048 m)
          ++ flush_calls p (g_derr w))
         (clock_read w)).
Proof.
  intros H F. unfold DIE_ERRNO, derr_log_errno, bind, get_errno.
  rewrite (vemit_run p _ _ _ _ _ m w H F), derr_flush_run.
  now rewrite add_calls_app.
Qed.

Lemma DIE_ERRNO_filtered (fmt : string) (va : list parg) (w : world) :
  DERR_FATAL < min_level (g_derr w) ->
  DIE_ERRNO p fmt va w
  = Exited EXIT_FAILURE (add_calls (flush_calls p (g_derr w)) w).
Proof.
  intros H. unfold DIE_ERRNO, derr_log_errno, bind, get_errno.
  now rewrite (vemit_filtered p _ _ _ _ _ w H), derr_flush_run.
Qed.

Lemma DIE_ERRNO_never_returns (fmt : string) (va : list parg) (w : world) :
  format fmt va <> None ->
  exists w', DIE_ERRNO p fmt va w = Exited EXIT_FAILURE w'.
Proof.
  intros F. destruct (format fmt va) as [m|] eqn:E; [|congruence].
  destruct (Z_lt_le_dec DERR_FATAL (min_level (g_derr w))) as [H|H].
  - rewrite (DIE_ERRNO_filtered _ _ _ H). eauto.
  - rewrite (DIE_ERRNO_run _ _ _ _ H E). eauto.
Qed.

Lemma format_failed (text : string) :
  format "%s failed" [PStr text] = Some (text +++ " failed").
Proof. reflexivity. Qed.

Lemma equals_minus_one_spec (t : ctype) (v : Z) :
  in_range t v ->
  (equals_minus_one t v = true
   <-> match t with
       | CSigned _ => v = -1
       | CUnsigned bits => INT_BITS <= bits /\ v = 2 ^ bits - 1
       end).
Proof.
  destruct t as [bits|bits]; cbn [in_range equals_minus_one]; intros R.
  - apply Z.eqb_eq.
  - destruct (bits <? INT_BITS) eqn:B.
    + apply Z.ltb_lt in B. rewrite Z.eqb_eq. lia.
    + apply Z.ltb_ge in B. rewrite Z.eqb_eq. lia.
Qed.

(** C4 (as amended).  [DTRY(expr)] fires when [expr == -1] holds in the C
    type of [expr]: for the value -1 of a signed type and for the largest
    value of an unsigned type at least as wide as [int]; for every other
    value it leaves the world untouched.  When it fires it is
    [DIE_ERRNO("%s failed", #expr)]: it never returns and ends the process
    with [exit(EXIT_FAILURE)] after the flush.  Before the flush it makes
    one FATAL emission with the current [errno] and the message
    ["<expr> failed"] when [min_level] is at most FATAL, and no emission
    at all when [min_level] is above FATAL. *)
Theorem C4_DTRY_fatal_or_nothing (w : world) (t : ctype) (expr : Z)
  (expr_text : string) :
  (equals_minus_one t expr = true ->
     DTRY p t expr expr_text w = DIE_ERRNO p "%s failed" [PStr expr_text] w
     /\ (exists w', DTRY p t expr expr_text w = Exited EXIT_FAILURE w')
     /\ (min_level (g_derr w) <= DERR_FATAL ->
         DTRY p t expr expr_text w
         = Exited EXIT_FAILURE
             (add_calls
                (vemit_calls p (g_derr w) (ticks w) DERR_FATAL 1 (errno w)
                   "%s failed" [PStr expr_text]
                   (truncate 2048 (expr_text +++ " failed"))
                 ++ flush_calls p (g_derr w))
                (clock_read w)))
     /\ (DERR_FATAL < min_level (g_derr w) ->
         DTRY p t expr expr_text w
         = Exited EXIT_FAILURE (add_calls (flush_calls p (g_derr w)) w)))
  /\ (equals_minus_one t expr = false -> DTRY p t expr expr_text w = Ret tt w)
  /\ (in_range t expr ->
      (equals_minus_one t expr = true
       <-> match t with
           | CSigned _ => expr = -1
           | CUnsigned bits => INT_BITS <= bits /\ expr = 2 ^ bits - 1
           end)).
Proof.
  split; [|split].
  - intros E. unfold DTRY. rewrite E.
    split; [reflexivity|]. split; [|split].
    + apply DIE_ERRNO_never_returns. now rewrite format_failed.
    + intros H. apply DIE_ERRNO_run; [exact H | apply format_failed].
    + intros H. now apply DIE_ERRNO_filtered.
  - intros E. unfold DTRY. now rewrite E.
  - apply equals_minus_one_spec.
Qed.

End Fatal.

Lemma C4_DTRY_fatal_or_nothing_witness :
  DTRY example_platform C_int (-1) "open(path, O_RDONLY)" (world0 2)
  = Exited EXIT_FAILURE
      (add_calls
         (vemit_calls example_platform (g_derr (world0 2)) (ticks (world0 2))
            DERR_FATAL 1 (errno (world0 2)) "%s failed"
            [PStr "open(path, O_RDONLY)"]
            (truncate 2048 ("open(path, O_RDONLY)" +++ " failed"))
          ++ flush_calls example_platform (g_derr (world0 2)))
         (clock_read (world0 2)))
  /\ DTRY example_platform C_int (-1) "open(path, O_RDONLY)"
       (after (derr_set_min_level 60) (world0 2))
     = Exited EXIT_FAILURE
         (add_calls
            (flush_calls example_platform
               (g_derr (after (derr_set_min_level 60) (world0 2))))
            (after (derr_set_min_level 60) (world0 2)))
  /\ DTRY example_platform C_int 3 "open(path, O_RDONLY)" (world0 2)
     = Ret tt (world0 2)
  /\ (equals_minus_one (CUnsigned 64) 18446744073709551615 = true
      <-> INT_BITS <= 64 /\ 18446744073709551615 = 2 ^ 64 - 1).
Proof.
  split; [|split; [|split]].
  - apply (C4_DTRY_fatal_or_nothing example_platform (world0 2) C_int (-1)
             "open(path, O_RDONLY)").
    + reflexivity.
    + vm_compute. discriminate.
  - apply (C4_DTRY_fatal_or_nothing example_platform
             (after (derr_set_min_level 60) (world0 2)) C_int (-1)
             "open(path, O_RDONLY)").
    + reflexivity.
    + vm_compute. reflexivity.
  - apply (C4_DTRY_fatal_or_nothing example_platform (world0 2) C_int 3
             "open(path, O_RDONLY)").
    reflexivity.
  - apply (C4_DTRY_fatal_or_nothing example_platform (world0 2)
             (CUnsigned 64) 18446744073709551615 "n").
    vm_compute. split; [discriminate | reflexivity].
Defined.

(** C4 (as stated) fails twice.  An [unsigned] expression of value
    4294967295 is not -1, yet [DTRY] ends the process; and with the
    threshold raised to 60 a [DTRY] on -1 ends the process without having
    written a FATAL record to any sink. *)
Lemma C4_DTRY_as_stated_fails :
  (4294967295 <> -1
   /\ exists w', DTRY example_platform (CUnsigned 32) 4294967295 "u" (world0 0)
                 = Exited EXIT_FAILURE w')
  /\ (exists w', DTRY example_platform C_int (-1) "ret"
                   (after (derr_set_min_level 60) (world0 0))
                 = Exited EXIT_FAILURE w'
                 /\ sink_writes (trace w') = []).
Proof.
  split.
  - split; [discriminate|]. eexists. vm_compute. reflexivity.
  - eexists. split; vm_compute; reflexivity.
Qed.

(** *** [DASSERT] *)

Section Assert.

Variable p : platform.

Lemma DASSERT_holds (cond : Z) (cond_text fmt : string) (va : list parg)
  (w : world) :
  cond <> 0 -> DASSERT p cond cond_text fmt va w = Ret tt w.
Proof.
  intros H. unfold DASSERT. apply truthy_true in H. now rewrite H.
Qed.

Lemma format_assert_plain (cond_text fmt m : string) :
  format fmt [] = Some m ->
  format ("Assert failed: %s — " +++ fmt) [PStr cond_text]
  = Some ("Assert failed: " +++ cond_text +++ " — " +++ m).
Proof.
  intros F. cbn [append format option_map]. rewrite F. reflexivity.
Qed.

Lemma DASSERT_fails_run (cond_text fmt : string) (va : list parg) (m : string)
  (w : world) :
  min_level (g_derr w) <= DERR_FATAL ->
  format ("Assert failed: %s — " +++ fmt) (va ++ [PStr cond_text]) = Some m ->
  DASSERT p 0 cond_text fmt va w
  = Aborted
      (add_calls
         (vemit_calls p (g_derr w) (ticks w) DERR_FATAL 1 (errno w)
            ("Assert failed: %s — " +++ fmt) (va ++ [PStr cond_text])
            (truncate 2048 m)
          ++ flush_calls p (g_derr w))
         (clock_read w)).
Proof.
  intros H F. unfold DASSERT, derr_log_errno, bind, get_errno.
  cbn [truthy Z.eqb negb].
  rewrite (vemit_run p _ _ _ _ _ m w H F), derr_flush_run.
  now rewrite add_calls_app.
Qed.

(** With a message that takes no arguments, a failed assertion emits the
    FATAL record that names the condition, flushes and aborts. *)
Lemma DASSERT_plain_message (cond_text fmt m : string) (w : world) :
  min_level (g_derr w) <= DERR_FATAL ->
  format fmt [] = Some m ->
  DASSERT p 0 cond_text fmt [] w
  = Aborted
      (add_calls
         (vemit_calls p (g_derr w) (ticks w) DERR_FATAL 1 (errno w)
            ("Assert failed: %s — " +++ fmt) [PStr cond_text]
            (truncate 2048 ("Assert failed: " +++ cond_text +++ " — " +++ m))
          ++ flush_calls p (g_derr w))
         (clock_read w)).
Proof.
  intros H F.
  apply (DASSERT_fails_run cond_text fmt [] _ w H).
  now apply format_assert_plain.
Qed.

End Assert.

(** C3, where the code departs from it.  [DASSERT(x == 10, "x is %d", x)]
    with [x = 5]: the text of the condition is passed after the caller's
    argument, so [%s] meets the integer and the C library is called with
    arguments that do not fit the format; no FATAL record naming the
    condition is written and [abort] is not reached in a defined way.
    With a string argument the call is defined, and the caller's string
    and the text of the condition change places in the message. *)
Theorem C3_DASSERT_arguments_misplaced :
  DASSERT example_platform 0 "x == 10" "x is %d" [PInt 5] (world0 0)
  = Undefined
  /\ format ("Assert failed: %s — " +++ "user %s") ([PStr "bob"] ++ [PStr "n > 0"])
     = Some "Assert failed: bob — user n > 0".
Proof. split; vm_compute; reflexivity. Qed.

(** ** The syslog switch *)

Section Syslog.

Variable p : platform.

Lemma derr_use_syslog_run (enable : Z) (w : world) :
  DERR_POSIX p = true ->
  derr_use_syslog p enable w
  = Ret tt (mk_world
              (mk_state (progname (g_derr w)) (min_level (g_derr w))
                 (color (g_derr w)) (utc (g_derr w))
                 (include_errno (g_derr w)) (file (g_derr w))
                 (if truthy enable && negb (truthy (use_syslog (g_derr w)))
                  then 1
                  else if negb (truthy enable) && truthy (use_syslog (g_derr w))
                       then 0
                       else use_syslog (g_derr w)))
              (errno w) (ticks w)
              (trace w ++ syslog_switch (g_derr w) enable)).
Proof.
  intros HP. destruct w as [[pn ml co ut ie fi us] e k tr].
  unfold derr_use_syslog, syslog_switch, pname_of, when, bind, gets, do_call,
    set_use_syslog, modify, ret.
  rewrite HP. cbn [g_derr errno ticks trace use_syslog progname min_level color
                     utc include_errno file].
  destruct (truthy enable) eqn:E1, (truthy us) eqn:E2;
    cbn [andb negb g_derr errno ticks trace use_syslog progname min_level color
           utc include_errno file];
    rewrite ?E2;
    cbn [andb negb g_derr errno ticks trace use_syslog progname min_level color
           utc include_errno file];
    rewrite ?app_nil_r; reflexivity.
Qed.

Lemma derr_use_syslog_no_posix (enable : Z) (w : world) :
  DERR_POSIX p = false -> derr_use_syslog p enable w = Ret tt w.
Proof.
  intros HP. unfold derr_use_syslog. now rewrite HP.
Qed.

Lemma channel_vemit g k lvl has_errno errnum fmt ap msg (b : bool) :
  fold_left channel_step (vemit_calls p g k lvl has_errno errnum fmt ap msg) b
  = b || (DERR_POSIX p && truthy (use_syslog g)).
Proof.
  unfold vemit_calls, fanout_calls, locked, prepare_calls, console_calls,
    file_calls, syslog_calls, backtrace_calls.
  destruct (with_detail g has_errno), (DERR_POSIX p), (file g),
    (truthy (use_syslog g)), (backtrace_compiled p), (lvl >=? DERR_FATAL),
    (frames p >? 0), b; reflexivity.
Qed.

Lemma channel_flush g (b : bool) :
  fold_left channel_step (flush_calls p g) b = b.
Proof.
  unfold flush_calls, locked. now destruct (DERR_POSIX p), (file g).
Qed.

Lemma vemit_returns (lvl has_errno errnum : Z) (fmt : string)
  (ap : list parg) (w w' : world) :
  vemit p lvl has_errno errnum fmt ap w = Ret tt w' ->
  w' = w
  \/ exists m, w' = add_calls
                      (vemit_calls p (g_derr w) (ticks w) lvl has_errno errnum
                         fmt ap m)
                      (clock_read w).
Proof.
  intros R.
  destruct (Z_lt_le_dec lvl (min_level (g_derr w))) as [H|H].
  - rewrite vemit_filtered in R by exact H. left. congruence.
  - destruct (format fmt ap) as [m|] eqn:E.
    + rewrite (vemit_run p _ _ _ _ _ m w H E) in R. right.
      eexists. injection R as <-. reflexivity.
    + rewrite vemit_undefined in R by assumption. discriminate.
Qed.

Lemma vemit_keeps_flag (lvl has_errno errnum : Z) (fmt : string)
  (ap : list parg) (w w' : world) :
  flag_matches_channel w ->
  vemit p lvl has_errno errnum fmt ap w = Ret tt w' ->
  flag_matches_channel w'.
Proof.
  intros I R. apply vemit_returns in R as [->|[m ->]]; [exact I|].
  unfold flag_matches_channel, channel_open in *.
  cbn [add_calls clock_read trace g_derr].
  rewrite fold_left_app, channel_vemit, I.
  now destruct (truthy (use_syslog (g_derr w))), (DERR_POSIX p).
Qed.

Lemma then_exit_no_return (m : M unit) (s : Z) (w w' : world) :
  (m ;; exit s) w <> Ret tt w'.
Proof.
  unfold bind, exit. now destruct (m w).
Qed.

Lemma then_abort_no_return (m : M unit) (w w' : world) :
  (m ;; abort) w <> Ret tt w'.
Proof.
  unfold bind, abort. now destruct (m w).
Qed.

Lemma DIE_no_return (fmt : string) (va : list parg) (w w' : world) :
  DIE p fmt va w <> Ret tt w'.
Proof.
  unfold DIE. unfold bind at 1.
  destruct (derr_log p DERR_FATAL fmt va w); try discriminate.
  apply then_exit_no_return.
Qed.

Lemma DIE_ERRNO_no_return (fmt : string) (va : list parg) (w w' : world) :
  DIE_ERRNO p fmt va w <> Ret tt w'.
Proof.
  unfold DIE_ERRNO. unfold bind at 1, get_errno. unfold bind at 1.
  destruct (derr_log_errno p DERR_FATAL (errno w) fmt va w); try discriminate.
  apply then_exit_no_return.
Qed.

Lemma DASSERT_returns (cond : Z) (cond_text fmt : string) (va : list parg)
  (w w' : world) :
  DASSERT p cond cond_text fmt va w = Ret tt w' -> cond <> 0 /\ w' = w.
Proof.
  unfold DASSERT. destruct (truthy cond) eqn:T; cbn [negb].
  - intros [= <-]. split; [now apply truthy_true | reflexivity].
  - unfold bind at 1, get_errno. unfold bind at 1.
    destruct (derr_log_errno p DERR_FATAL (errno w) _ _ w); try discriminate.
    intros R. now apply then_abort_no_return in R.
Qed.

Lemma DTRY_returns (t : ctype) (expr : Z) (expr_text : string) (w w' : world) :
  DTRY p t expr expr_text w = Ret tt w' ->
  equals_minus_one t expr = false /\ w' = w.
Proof.
  unfold DTRY. destruct (equals_minus_one t expr) eqn:T.
  - intros R. now apply DIE_ERRNO_no_return in R.
  - intros [= <-]. split; reflexivity.
Qed.

Lemma run_api_keeps_flag (a : api) (w w' : world) :
  flag_matches_channel w ->
  run_api p a w = Ret tt w' ->
  flag_matches_channel w'.
Proof.
  intros I R. destruct a; cbn [run_api] in R;
    try (injection R as <-; exact I).
  - (* UseSyslog *)
    destruct (DERR_POSIX p) eqn:HP.
    + rewrite derr_use_syslog_run in R by exact HP. injection R as <-.
      unfold flag_matches_channel, channel_open, syslog_switch in *.
      cbn [trace g_derr use_syslog]. rewrite fold_left_app, I.
      destruct (truthy enable), (truthy (use_syslog (g_derr w))) eqn:T;
        cbn [andb negb fold_left channel_step]; rewrite ?T; reflexivity.
    + rewrite derr_use_syslog_no_posix in R by exact HP.
      now injection R as <-.
  - (* Log *) unfold derr_log in R.
    exact (vemit_keeps_flag _ _ _ _ _ _ _ I R).
  - (* LogErrno *) unfold derr_log_errno in R.
    exact (vemit_keeps_flag _ _ _ _ _ _ _ I R).
  - (* Flush *)
    rewrite derr_flush_run in R. injection R as <-.
    unfold flag_matches_channel, channel_open in *.
    cbn [add_calls trace g_derr]. now rewrite fold_left_app, channel_flush.
  - (* Die *) now apply DIE_no_return in R.
  - (* DieErrno *) now apply DIE_ERRNO_no_return in R.
  - (* Assert *) apply DASSERT_returns in R as [_ ->]. exact I.
  - (* Try *) apply DTRY_returns in R as [_ ->]. exact I.
Qed.

Lemma reachable_flag_matches_channel (w : world) :
  reachable p w -> flag_matches_channel w.
Proof.
  induction 1 as [e|w w' a _ IH R].
  - reflexivity.
  - exact (run_api_keeps_flag a w w' IH R).
Qed.

End Syslog.

(** C5.  On a POSIX build [derr_use_syslog] calls [openlog] once exactly
    when it is asked to enable and the flag is off, calls [closelog] once
    exactly when it is asked to disable and the flag is on, and does
    nothing else; afterwards the flag is what was asked for, and asking
    the same again changes nothing and makes no call.  In every world of a
    running process the flag is set exactly when the channel is open. *)
Theorem C5_syslog_switch_idempotent (p : platform) (w : world) (enable : Z) :
  DERR_POSIX p = true ->
  exists w',
    derr_use_syslog p enable w = Ret tt w'
    /\ trace w' = trace w ++ syslog_switch (g_derr w) enable
    /\ count_openlog (syslog_switch (g_derr w) enable)
       = (if truthy enable && negb (truthy (use_syslog (g_derr w)))
          then 1 else 0)%nat
    /\ count_closelog (syslog_switch (g_derr w) enable)
       = (if negb (truthy enable) && truthy (use_syslog (g_derr w))
          then 1 else 0)%nat
    /\ truthy (use_syslog (g_derr w')) = truthy enable
    /\ (forall again, truthy again = truthy enable ->
          derr_use_syslog p again w' = Ret tt w')
    /\ (reachable p w -> flag_matches_channel w /\ flag_matches_channel w').
Proof.
  intros HP. eexists. split; [apply derr_use_syslog_run, HP|].
  cbn [trace g_derr use_syslog].
  split; [reflexivity|]. split; [|split; [|split; [|split]]].
  - unfold syslog_switch.
    now destruct (truthy enable), (truthy (use_syslog (g_derr w))).
  - unfold syslog_switch.
    now destruct (truthy enable), (truthy (use_syslog (g_derr w))).
  - destruct (truthy enable), (truthy (use_syslog (g_derr w))) eqn:T;
      cbn [andb negb]; rewrite ?T; reflexivity.
  - intros again A. rewrite derr_use_syslog_run by exact HP.
    unfold syslog_switch. cbn [trace g_derr use_syslog errno ticks progname
      min_level color utc include_errno file pname_of].
    rewrite A.
    destruct (truthy enable), (truthy (use_syslog (g_derr w))) eqn:T;
      cbn [andb negb truthy Z.eqb]; rewrite ?T; cbn [andb negb];
      rewrite ?app_nil_r; reflexivity.
  - intros R. split; [now apply reachable_flag_matches_channel with p|].
    apply reachable_flag_matches_channel with p.
    apply (reach_step p w _ (UseSyslog enable) R).
    cbn [run_api]. now apply derr_use_syslog_run.
Qed.

Lemma C5_syslog_switch_idempotent_witness :
  exists w',
    derr_use_syslog example_platform 1 (world0 0) = Ret tt w'
    /\ trace w' = [COpenlog "program" 3 8]
    /\ derr_use_syslog example_platform 7 w' = Ret tt w'
    /\ flag_matches_channel w'.
Proof.
  destruct (C5_syslog_switch_idempotent example_platform (world0 0) 1 eq_refl)
    as [w' [R [T [_ [_ [_ [A I]]]]]]].
  exists w'. split; [exact R|]. split; [exact T|]. split.
  - apply A. reflexivity.
  - apply I. apply reach_start.
Defined.

(** ** Backtrace *)

Section Backtrace.

Variable p : platform.

Lemma frames_bounds : 0 <= frames p <= 128.
Proof. unfold frames. lia. Qed.

Lemma frames_positive : (frames p >? 0) = true <-> 0 < stack_depth p.
Proof.
  unfold frames. rewrite Z.gtb_lt. lia.
Qed.

Lemma backtrace_written_true lvl :
  backtrace_written p lvl = true
  <-> backtrace_compiled p = true /\ 0 < stack_depth p /\ DERR_FATAL <= lvl.
Proof.
  unfold backtrace_written.
  rewrite !andb_true_iff, frames_positive, Z.geb_le. tauto.
Qed.

Lemma backtrace_probe g k lvl has_errno errnum fmt ap msg n :
  In (CBacktrace n) (vemit_calls p g k lvl has_errno errnum fmt ap msg)
  <-> n = 128 /\ backtrace_compiled p = true /\ DERR_FATAL <= lvl.
Proof.
  rewrite <- Z.geb_le.
  unfold vemit_calls, fanout_calls, locked, prepare_calls, console_calls,
    file_calls, syslog_calls, backtrace_calls.
  destruct (with_detail g has_errno), (DERR_POSIX p), (file g),
    (truthy (use_syslog g)), (backtrace_compiled p), (lvl >=? DERR_FATAL),
    (frames p >? 0); simpl;
    split; intros H; try (intuition congruence).
Qed.

Lemma without_backtrace_vemit g k lvl has_errno errnum fmt ap msg :
  without_backtrace (vemit_calls p g k lvl has_errno errnum fmt ap msg)
  = record_calls p g k lvl has_errno errnum fmt ap msg.
Proof.
  unfold without_backtrace, record_calls, vemit_calls, fanout_calls, locked,
    prepare_calls, console_calls, file_calls, syslog_calls, backtrace_calls.
  destruct (with_detail g has_errno), (DERR_POSIX p), (file g),
    (truthy (use_syslog g)), (backtrace_compiled p), (lvl >=? DERR_FATAL),
    (frames p >? 0); reflexivity.
Qed.

Lemma backtrace_placed g k lvl has_errno errnum fmt ap msg :
  backtrace_written p lvl = true ->
  exists l1 l2,
    vemit_calls p g k lvl has_errno errnum fmt ap msg
    = l1 ++ backtrace_rendering p g lvl ++ l2
    /\ sink_writes (backtrace_rendering p g lvl) = [Console; Console; Console]
    /\ (exists c, In c l1 /\ is_primary_line c = true)
    /\ (DERR_POSIX p = true ->
        In CLock l1 /\ ~ In CUnlock l1 /\ l2 = [CUnlock]).
Proof.
  unfold backtrace_written. rewrite !andb_true_iff. intros [[HC HL] HF].
  unfold vemit_calls, fanout_calls, locked, backtrace_calls.
  rewrite HC, HL, HF. cbn [andb].
  set (tbuf := ts_text p k (utc g) 40).
  set (ebuf := if with_detail g has_errno then strerror_text p errnum 256 else "").
  exists (prepare_calls g has_errno errnum fmt ap
          ++ (if DERR_POSIX p then [CLock] else [])
          ++ console_calls g lvl has_errno errnum tbuf msg ebuf
          ++ file_calls g lvl has_errno errnum tbuf msg ebuf
          ++ syslog_calls p g lvl has_errno errnum msg ebuf
          ++ [CBacktrace 128]).
  exists (if DERR_POSIX p then [CUnlock] else []).
  split; [|split; [|split]].
  - unfold backtrace_rendering.
    destruct (DERR_POSIX p); cbn [app];
      repeat (rewrite <- !app_assoc; cbn [app]);
      rewrite ?app_nil_r; reflexivity.
  - reflexivity.
  - unfold console_calls.
    destruct (with_detail g has_errno); eexists;
      (split;
       [ rewrite !in_app_iff; right; right; left; simpl; left; reflexivity
       | reflexivity ]).
  - intros HP. rewrite HP. split; [|split; [|reflexivity]].
    + rewrite !in_app_iff. right. left. simpl. auto.
    + unfold prepare_calls, console_calls, file_calls, syslog_calls.
      rewrite HP.
      destruct (with_detail g has_errno), (file g), (truthy (use_syslog g));
        simpl; intuition discriminate.
Qed.

Lemma backtrace_silent g k lvl has_errno errnum fmt ap msg c :
  backtrace_written p lvl = false ->
  In c (vemit_calls p g k lvl has_errno errnum fmt ap msg) ->
  is_backtrace_call c = true ->
  c = CBacktrace 128.
Proof.
  unfold backtrace_written, vemit_calls, fanout_calls, locked, prepare_calls,
    console_calls, file_calls, syslog_calls, backtrace_calls.
  intros W H B.
  destruct (with_detail g has_errno), (DERR_POSIX p), (file g),
    (truthy (use_syslog g)), (backtrace_compiled p), (lvl >=? DERR_FATAL),
    (frames p >? 0); try discriminate W;
    simpl in H;
    repeat (destruct H as [<-|H]; [try discriminate B; try reflexivity|]);
    try contradiction.
Qed.

(** C6.  An emission probes the stack exactly when the block is compiled
    in and the level is FATAL or above, asking for 128 frames and getting
    at most as many.  A captured stack is written to stderr after the
    primary line, after the lock is taken and before it is released.  A
    capture that fails or is not compiled in writes nothing, and with or
    without a backtrace the other calls of the emission are the same. *)
Theorem C6_backtrace_on_fatal (w : world) (lvl has_errno errnum : Z)
  (fmt : string) (ap : list parg) (m : string) :
  min_level (g_derr w) <= lvl ->
  format fmt ap = Some m ->
  exists l,
    vemit p lvl has_errno errnum fmt ap w = Ret tt (add_calls l (clock_read w))
    /\ backtrace_on_fatal p (g_derr w) lvl l
         (record_calls p (g_derr w) (ticks w) lvl has_errno errnum fmt ap
            (truncate 2048 m)).
Proof.
  intros H F. eexists. split; [apply (vemit_run p _ _ _ _ _ m w H F)|].
  unfold backtrace_on_fatal. split; [|split; [|split; [|split; [|split]]]].
  - intros n. apply backtrace_probe.
  - apply frames_bounds.
  - apply backtrace_written_true.
  - apply backtrace_placed.
  - intros W c. now apply backtrace_silent.
  - apply without_backtrace_vemit.
Qed.

End Backtrace.

Lemma C6_backtrace_on_fatal_witness :
  exists l,
    vemit example_platform DERR_FATAL 0 0 "out of memory" [] (world0 0)
    = Ret tt (add_calls l (clock_read (world0 0)))
    /\ backtrace_on_fatal example_platform (g_derr (world0 0)) DERR_FATAL l
         (record_calls example_platform (g_derr (world0 0)) (ticks (world0 0))
            DERR_FATAL 0 0 "out of memory" [] (truncate 2048 "out of memory")).
Proof.
  apply (C6_backtrace_on_fatal example_platform (world0 0) DERR_FATAL 0 0
           "out of memory" [] "out of memory").
  - vm_compute. discriminate.
  - reflexivity.
Defined.

(** ** Errno translation *)

Lemma substring_short (n : nat) (s : string) :
  (String.length s <= n)%nat -> substring 0 n s = s.
Proof.
  revert n. induction s as [|ch s IH]; intros [|n] H; cbn in *;
    try reflexivity; try lia.
  rewrite IH by lia. reflexivity.
Qed.

Lemma substring_prefix (n : nat) (s : string) :
  exists rest, s = substring 0 n s +++ rest.
Proof.
  revert n. induction s as [|ch s IH]; intros [|n]; cbn.
  - now exists "".
  - now exists "".
  - now exists (String ch s).
  - destruct (IH n) as [rest E]. exists rest. now rewrite <- E.
Qed.

Lemma substring_length (n : nat) (s : string) :
  String.length (substring 0 n s) = Nat.min n (String.length s).
Proof.
  revert n. induction s as [|ch s IH]; intros [|n]; cbn; try reflexivity.
  now rewrite IH.
Qed.

Lemma substring_length_le (m : nat) (s : string) :
  (String.length (substring 0 m s) <= m)%nat.
Proof.
  revert s. induction m as [|m IH]; intros [|c s]; simpl; try lia.
  specialize (IH s). lia.
Qed.

Lemma truncate_fits (n : Z) (s : string) :
  (String.length (truncate n s) <= Z.to_nat (n - 1))%nat.
Proof. apply substring_length_le. Qed.

(** *** The buffer under other threads *)

Lemma place_eqb_refl (x : place) : place_eqb x x = true.
Proof.
  destruct x; cbn; [apply Nat.eqb_refl | reflexivity | apply Z.eqb_refl].
Qed.

Lemma place_eqb_eq (x y : place) : place_eqb x y = true <-> x = y.
Proof.
  split; [|intros ->; apply place_eqb_refl].
  destruct x, y; cbn; try discriminate; intros H.
  - apply Nat.eqb_eq in H. now subst.
  - reflexivity.
  - apply Z.eqb_eq in H. now subst.
Qed.

Lemma run_accesses_app (l1 l2 : list access) (m : memory) :
  run_accesses (l1 ++ l2) m = run_accesses l2 (run_accesses l1 m).
Proof. apply fold_left_app. Qed.

Lemma store_elsewhere (m : memory) (dst x : place) (n : Z) (s : string) :
  x <> dst -> store m dst n s x = m x.
Proof.
  intros N. unfold store. destruct (n <=? 0); [reflexivity|].
  destruct (place_eqb x dst) eqn:E; [|reflexivity].
  apply place_eqb_eq in E. contradiction.
Qed.

Lemma store_there (m : memory) (dst : place) (n : Z) (s : string) :
  0 < n -> store m dst n s dst = truncate n s.
Proof.
  intros N. unfold store.
  destruct (n <=? 0) eqn:E; [apply Z.leb_le in E; lia|].
  now rewrite place_eqb_refl.
Qed.

Lemma perform_elsewhere (m : memory) (a : access) (x : place) :
  x <> target a -> perform m a x = m x.
Proof. destruct a; cbn [perform target]; apply store_elsewhere. Qed.

(** The other threads leave the buffer and the catalogue as they are. *)
Lemma others_keep_off (b : nat) (others : list access) (m : memory) (x : place) :
  forallb (keeps_off b) others = true ->
  x = CallerBuffer b \/ (exists e, x = Catalogue e) ->
  run_accesses others m x = m x.
Proof.
  revert m. induction others as [|a others IH]; intros m K X; [reflexivity|].
  cbn [forallb] in K. apply andb_true_iff in K as [Ka K].
  cbn [run_accesses fold_left]. fold (run_accesses others (perform m a)).
  rewrite (IH _ K X). apply perform_elsewhere.
  unfold keeps_off in Ka. intros ->.
  destruct X as [E|[e E]]; rewrite E in Ka.
  - apply negb_true_iff in Ka. now rewrite Nat.eqb_refl in Ka.
  - discriminate.
Qed.

(** A schedule lets some accesses of the others run, then the next access
    of the thread, then goes on. *)
Lemma weave_nil (sched : list bool) (others : list access) :
  weave sched [] others = others.
Proof.
  revert others. induction sched as [|[] sched IH]; intros others;
    cbn [weave app]; try reflexivity.
  destruct others as [|o others]; [reflexivity|]. now rewrite IH.
Qed.

Lemma weave_cons (sched : list bool) (a : access) (mine others : list access) :
  exists o1 o2 sched',
    others = o1 ++ o2
    /\ weave sched (a :: mine) others = o1 ++ a :: weave sched' mine o2.
Proof.
  revert others. induction sched as [|[] sched IH]; intros others.
  - exists [], others, []. split; reflexivity.
  - exists [], others, sched. split; reflexivity.
  - destruct others as [|o others].
    + exists [], [], []. split; [reflexivity|].
      cbn [weave app]. now rewrite app_nil_r.
    + destruct (IH others) as [o1 [o2 [sched' [E W]]]].
      exists (o :: o1), o2, sched'. split; [now rewrite E|].
      cbn [weave app]. now rewrite W.
Qed.

Lemma forallb_app_split {A : Type} (f : A -> bool) (l1 l2 : list A) :
  forallb f (l1 ++ l2) = true -> forallb f l1 = true /\ forallb f l2 = true.
Proof. rewrite forallb_app. apply andb_true_iff. Qed.

(** Under every schedule the buffer ends as when the thread runs alone. *)
Lemma weave_run (b : nat) (mine : list access) :
  forallb (own_access b) mine = true ->
  forall sched others m m0,
    forallb (keeps_off b) others = true ->
    (forall e, m (Catalogue e) = m0 (Catalogue e)) ->
    mine <> [] ->
    (forall a, In a mine -> 0 < match a with Fill _ n _ | Copy _ n _ => n end) ->
    run_accesses (weave sched mine others) m (CallerBuffer b)
    = run_accesses mine m0 (CallerBuffer b).
Proof.
  induction mine as [|a mine IH]; intros O sched others m m0 K C N P;
    [congruence|].
  cbn [forallb] in O. apply andb_true_iff in O as [Oa O].
  destruct (weave_cons sched a mine others) as [o1 [o2 [sched' [E W]]]].
  rewrite W, run_accesses_app. subst others.
  apply forallb_app_split in K as [K1 K2].
  cbn [run_accesses fold_left].
  fold (run_accesses (weave sched' mine o2) (perform (run_accesses o1 m) a)).
  fold (run_accesses mine (perform m0 a)).
  assert (C1 : forall e, run_accesses o1 m (Catalogue e) = m0 (Catalogue e)).
  { intros e. rewrite (others_keep_off b o1 m _ K1); [apply C|].
    right. now exists e. }
  assert (Pa : 0 < match a with Fill _ n _ | Copy _ n _ => n end)
    by (apply P; now left).
  assert (T : target a = CallerBuffer b).
  { unfold own_access in Oa. apply andb_true_iff in Oa as [T _].
    now apply place_eqb_eq in T. }
  assert (V : perform (run_accesses o1 m) a (CallerBuffer b)
              = perform m0 a (CallerBuffer b)).
  { unfold own_access in Oa. apply andb_true_iff in Oa as [_ S].
    destruct a as [dst n s|dst n src]; cbn [perform target source] in *;
      subst dst; rewrite !store_there by exact Pa; [reflexivity|].
    destruct src; try discriminate S. now rewrite C1. }
  assert (C2 : forall e, perform (run_accesses o1 m) a (Catalogue e)
                         = perform m0 a (Catalogue e)).
  { intros e. rewrite !perform_elsewhere by (rewrite T; discriminate).
    apply C1. }
  destruct mine as [|a' mine].
  - rewrite weave_nil. cbn [run_accesses fold_left].
    fold (run_accesses o2 (perform (run_accesses o1 m) a)).
    rewrite (others_keep_off b o2 _ _ K2) by now left. exact V.
  - apply (IH O sched' o2 _ (perform m0 a) K2 C2); [discriminate|].
    intros x I. apply P. now right.
Qed.

Section Translation.

Variable p : platform.

Lemma strerror_portable_own (errnum n : Z) (b : nat) :
  forallb (own_access b) (strerror_portable_accesses p errnum (CallerBuffer b) n)
  = true.
Proof.
  unfold strerror_portable_accesses.
  destruct (gnu_source p && negb (is_apple p)).
  - destruct (gnu_strerror_r p errnum n);
      unfold own_access; cbn [forallb target source place_eqb];
      now rewrite Nat.eqb_refl.
  - destruct (xsi_strerror_r p errnum n) as [rc s].
    destruct (negb (rc =? 0));
      unfold own_access; cbn [forallb target source place_eqb];
      now rewrite !Nat.eqb_refl.
Qed.

Lemma strerror_portable_alone (errnum n : Z) (b : nat) (m : memory) :
  0 < n ->
  catalogue_holds p errnum n m ->
  run_accesses (strerror_portable_accesses p errnum (CallerBuffer b) n) m
    (CallerBuffer b)
  = strerror_text p errnum n.
Proof.
  intros N C. unfold strerror_portable_accesses, strerror_text.
  unfold catalogue_holds in C.
  destruct (gnu_source p && negb (is_apple p)).
  - destruct (gnu_strerror_r p errnum n) as [s|s];
      cbn [run_accesses fold_left perform]; rewrite store_there by exact N;
      [reflexivity|].
    now rewrite (C s eq_refl).
  - destruct (xsi_strerror_r p errnum n) as [rc s]. cbn [fst snd].
    destruct (negb (rc =? 0));
      cbn [run_accesses fold_left perform]; now rewrite !store_there by exact N.
Qed.

Lemma strerror_portable_sizes (errnum n : Z) (buf : place) (a : access) :
  0 < n ->
  In a (strerror_portable_accesses p errnum buf n) ->
  0 < match a with Fill _ k _ | Copy _ k _ => k end.
Proof.
  intros N. unfold strerror_portable_accesses.
  destruct (gnu_source p && negb (is_apple p)).
  - destruct (gnu_strerror_r p errnum n); intros [<-|[]]; exact N.
  - destruct (xsi_strerror_r p errnum n) as [rc s].
    destruct (negb (rc =? 0)); cbn [In];
      intros H; repeat (destruct H as [<-|H]; [exact N|]); contradiction.
Qed.

Lemma strerror_portable_nonempty (errnum n : Z) (buf : place) :
  strerror_portable_accesses p errnum buf n <> [].
Proof.
  unfold strerror_portable_accesses.
  destruct (gnu_source p && negb (is_apple p)).
  - destruct (gnu_strerror_r p errnum n); discriminate.
  - destruct (xsi_strerror_r p errnum n) as [rc s]. discriminate.
Qed.

Lemma strerror_portable_elsewhere (errnum n : Z) (b : nat) (m : memory)
  (x : place) :
  x <> CallerBuffer b ->
  run_accesses (strerror_portable_accesses p errnum (CallerBuffer b) n) m x
  = m x.
Proof.
  intros X. unfold strerror_portable_accesses.
  destruct (gnu_source p && negb (is_apple p)).
  - destruct (gnu_strerror_r p errnum n);
      cbn [run_accesses fold_left perform]; now rewrite store_elsewhere.
  - destruct (xsi_strerror_r p errnum n) as [rc s].
    destruct (negb (rc =? 0));
      cbn [run_accesses fold_left perform]; now rewrite !store_elsewhere.
Qed.

Lemma strerror_text_fits (errnum n : Z) :
  (String.length (strerror_text p errnum n) <= Z.to_nat (n - 1))%nat.
Proof.
  unfold strerror_text.
  destruct (gnu_source p && negb (is_apple p)).
  - destruct (gnu_strerror_r p errnum n); apply truncate_fits.
  - destruct (negb (fst (xsi_strerror_r p errnum n) =? 0));
      apply truncate_fits.
Qed.

(** C7.  [strerror_portable] calls the reentrant [strerror_r] once; its
    result is the content of the caller's buffer and fits it.  In memory it
    writes the caller's buffer and no other place, and reads nothing but
    the library's read-only catalogue: the buffer inside the library is
    neither read nor written.  So the buffer ends with the same text when
    the thread runs alone and under every schedule that lets other threads
    run between its accesses, whatever they write into the library's
    buffer and into arrays of their own.  Whenever the underlying
    [strerror_r] reports a failure, for every error code, that text is
    ["errno N"], cut to the buffer and whole if it fits; the XSI function
    reports one by its return value, the GNU function has no such return
    value and its message is the text. *)
Theorem C7_strerror_portable_fallback (errnum n : Z) (w : world) (b : nat)
  (m : memory) (others : list access) (sched : list bool) :
  let mine := strerror_portable_accesses p errnum (CallerBuffer b) n in
  strerror_portable p errnum n w
  = Ret (strerror_text p errnum n) (add_calls [CStrerrorR errnum] w)
  /\ (String.length (strerror_text p errnum n) <= Z.to_nat (n - 1))%nat
  /\ forallb (own_access b) mine = true
  /\ (forall x, x <> CallerBuffer b -> run_accesses mine m x = m x)
  /\ (0 < n ->
      catalogue_holds p errnum n m ->
      forallb (keeps_off b) others = true ->
      run_accesses mine m (CallerBuffer b) = strerror_text p errnum n
      /\ run_accesses (weave sched mine others) m (CallerBuffer b)
         = strerror_text p errnum n
      /\ (reports_failure p errnum n = true ->
          run_accesses (weave sched mine others) m (CallerBuffer b)
          = truncate n ("errno " +++ dec errnum)))
  /\ (reports_failure p errnum n = true ->
      strerror_text p errnum n = truncate n ("errno " +++ dec errnum)
      /\ ((String.length ("errno " +++ dec errnum) < Z.to_nat n)%nat ->
          strerror_text p errnum n = "errno " +++ dec errnum))
  /\ (reports_failure p errnum n = false ->
      strerror_text p errnum n
      = truncate n (if gnu_source p && negb (is_apple p)
                    then match gnu_strerror_r p errnum n with
                         | InBuf s => s
                         | Static s => s
                         end
                    else snd (xsi_strerror_r p errnum n)))
  /\ (gnu_source p && negb (is_apple p) = false ->
      (reports_failure p errnum n = true
       <-> fst (xsi_strerror_r p errnum n) <> 0))
  /\ (gnu_source p && negb (is_apple p) = true ->
      reports_failure p errnum n = false).
Proof.
  cbv zeta.
  split.
  { rewrite (run_of_yields _ _ _ _ _ _ w
               (yields_strerror_portable p _ (ticks w) errnum n)
               eq_refl eq_refl).
    now destruct w. }
  split; [apply strerror_text_fits|].
  split; [apply strerror_portable_own|].
  split; [intros x; apply strerror_portable_elsewhere|].
  split.
  { intros N C K. split; [now apply strerror_portable_alone|].
    rewrite (weave_run b _ (strerror_portable_own errnum n b) sched others
               m m K (fun _ => eq_refl)
               (strerror_portable_nonempty errnum n _)
               (fun a => strerror_portable_sizes errnum n _ a N)).
    rewrite (strerror_portable_alone errnum n b m N C).
    split; [reflexivity|].
    unfold reports_failure, strerror_text.
    destruct (gnu_source p && negb (is_apple p)); [discriminate|].
    now intros ->. }
  unfold reports_failure, strerror_text.
  split; [|split; [|split]].
  - destruct (gnu_source p && negb (is_apple p)); [discriminate|].
    intros ->. split; [reflexivity|].
    intros L. apply substring_short. lia.
  - destruct (gnu_source p && negb (is_apple p)).
    + intros _. now destruct (gnu_strerror_r p errnum n).
    + now intros ->.
  - intros ->. rewrite negb_true_iff. apply Z.eqb_neq.
  - now intros ->.
Qed.

End Translation.

Lemma C7_strerror_portable_fallback_witness :
  run_accesses
    (weave [false; true; false]
       (strerror_portable_accesses example_platform 9999 (CallerBuffer 0) 256)
       [Fill LibraryBuffer 256 "Permission denied";
        Copy (CallerBuffer 1) 256 LibraryBuffer;
        Copy (CallerBuffer 1) 256 (CallerBuffer 0)])
    memory0 (CallerBuffer 0)
  = "errno 9999"
  /\ run_accesses
       (weave [true; false]
          (strerror_portable_accesses gnu_platform 2 (CallerBuffer 0) 256)
          [Fill LibraryBuffer 256 "Permission denied"])
       memory0 (CallerBuffer 0)
     = "No such file or directory".
Proof.
  split.
  - destruct (C7_strerror_portable_fallback example_platform 9999 256
                (world0 0) 0 memory0
                [Fill LibraryBuffer 256 "Permission denied";
                 Copy (CallerBuffer 1) 256 LibraryBuffer;
                 Copy (CallerBuffer 1) 256 (CallerBuffer 0)]
                [false; true; false])
      as [_ [_ [_ [_ [S [F _]]]]]].
    destruct S as [_ [S _]].
    + lia.
    + intros s. vm_compute. discriminate.
    + reflexivity.
    + rewrite S. destruct F as [_ F].
      * reflexivity.
      * apply F. vm_compute. lia.
  - destruct (C7_strerror_portable_fallback gnu_platform 2 256
                (world0 0) 0 memory0
                [Fill LibraryBuffer 256 "Permission denied"]
                [true; false])
      as [_ [_ [_ [_ [S _]]]]].
    destruct S as [_ [S _]].
    + lia.
    + intros s. vm_compute. intros [= <-]. reflexivity.
    + reflexivity.
    + rewrite S. vm_compute. reflexivity.
Defined.

(** A translation that went through the buffer inside the library, as
    [strerror] does, would depend on the schedule: the thread reads back
    what another thread has put there in between. *)
Example library_buffer_depends_on_schedule :
  let mine := [Fill LibraryBuffer 256 "No such file or directory";
               Copy (CallerBuffer 0) 256 LibraryBuffer] in
  let others := [Fill LibraryBuffer 256 "Permission denied"] in
  forallb (keeps_off 0) others = true
  /\ forallb (own_access 0) mine = false
  /\ run_accesses (weave [true; true] mine others) memory0 (CallerBuffer 0)
     = "No such file or directory"
  /\ run_accesses (weave [true; false] mine others) memory0 (CallerBuffer 0)
     = "Permission denied".
Proof. vm_compute. repeat split. Qed.

(** ** Defaults and labels *)

Lemma contains_record_line_vemit (p : platform) g k lvl has_errno errnum fmt
  ap msg c :
  In c (vemit_calls p g k lvl has_errno errnum fmt ap msg) ->
  is_record_line c = true ->
  In (PStr (pname_of g)) (call_args c)
  /\ In (PStr msg) (call_args c)
  /\ (sink_of c = Some SyslogSink \/ In (PStr (level_str lvl)) (call_args c)).
Proof.
  unfold vemit_calls, fanout_calls, locked, prepare_calls,
    console_calls, file_calls, syslog_calls, backtrace_calls.
  intros H C.
  destruct (with_detail g has_errno), (DERR_POSIX p), (file g),
    (truthy (use_syslog g)), (backtrace_compiled p), (lvl >=? DERR_FATAL),
    (frames p >? 0);
    simpl in H;
    repeat (destruct H as [<-|H]; [try discriminate C; simpl; auto 12|]);
    try contradiction.
Qed.

Lemma defined_level_cases (l : Z) :
  defined_level l = true
  <-> l = DERR_DEBUG \/ l = DERR_INFO \/ l = DERR_WARN \/ l = DERR_ERROR
      \/ l = DERR_FATAL.
Proof.
  unfold defined_level. rewrite !orb_true_iff, !Z.eqb_eq. tauto.
Qed.

Lemma in_locked (p : platform) (c : call) (l : list call) :
  In c l -> In c (locked p l).
Proof.
  intros H. unfold locked. destruct (DERR_POSIX p); [|exact H].
  apply in_or_app. right. apply in_or_app. now left.
Qed.

Lemma vemit_calls_placeholder (p : platform) g k lvl has_errno errnum fmt ap
  msg :
  progname g = None ->
  vemit_calls p g k lvl has_errno errnum fmt ap msg
  = vemit_calls p
      (mk_state (Some "program") (min_level g) (color g) (utc g)
         (include_errno g) (file g) (use_syslog g))
      k lvl has_errno errnum fmt ap msg.
Proof.
  destruct g as [pn ml co ut ie fi us]. cbn [progname]. intros ->.
  reflexivity.
Qed.

Lemma placeholder_same_calls (p : platform) (w : world)
  (lvl has_errno errnum : Z) (fmt : string) (ap : list parg) :
  progname (g_derr w) = None ->
  calls_of (vemit p lvl has_errno errnum fmt ap w)
  = calls_of (vemit p lvl has_errno errnum fmt ap
                (after (derr_set_program_name (Some "program")) w)).
Proof.
  intros N.
  set (w' := after (derr_set_program_name (Some "program")) w).
  assert (Hm : min_level (g_derr w') = min_level (g_derr w)) by reflexivity.
  destruct (Z_lt_le_dec lvl (min_level (g_derr w))) as [H|H].
  - rewrite !vemit_filtered by (rewrite ?Hm; exact H). reflexivity.
  - destruct (format fmt ap) as [m|] eqn:E.
    + rewrite (vemit_run p _ _ _ _ _ m w H E).
      rewrite (vemit_run p _ _ _ _ _ m w') by (rewrite ?Hm; assumption).
      cbn [calls_of add_calls clock_read trace].
      f_equal. f_equal. now apply vemit_calls_placeholder.
    + rewrite !vemit_undefined by (rewrite ?Hm; assumption). reflexivity.
Qed.

(** C9.  The configuration of a starting process has the defaults: no
    program name, threshold DEBUG, colour on, local time, errno details
    on, no file, syslog off.  With that threshold none of the five levels
    is filtered.  An emission made while no program name is set writes
    ["program"] in every record line, and makes the very calls it would
    make had the name been set to ["program"]. *)
Theorem C9_defaults_and_placeholder (p : platform) :
  (forall e, defaults (g_derr (world0 e)) /\ trace (world0 e) = [])
  /\ (forall lvl, defined_level lvl = true -> min_level g_derr_init <= lvl)
  /\ (forall w lvl has_errno errnum fmt ap,
        progname (g_derr w) = None ->
        min_level (g_derr w) <= lvl ->
        format fmt ap <> None ->
        exists l,
          vemit p lvl has_errno errnum fmt ap w
          = Ret tt (add_calls l (clock_read w))
          /\ displays_program "program" l)
  /\ (forall w lvl has_errno errnum fmt ap,
        progname (g_derr w) = None ->
        calls_of (vemit p lvl has_errno errnum fmt ap w)
        = calls_of (vemit p lvl has_errno errnum fmt ap
                      (after (derr_set_program_name (Some "program")) w))).
Proof.
  split; [|split; [|split]].
  - intros e. unfold defaults. cbn. tauto.
  - intros lvl H. apply defined_level_cases in H.
    unfold g_derr_init. cbn [min_level].
    unfold DERR_DEBUG, DERR_INFO, DERR_WARN, DERR_ERROR, DERR_FATAL in *. lia.
  - intros w lvl has_errno errnum fmt ap N H F.
    destruct (format fmt ap) as [m|] eqn:E; [clear F|congruence].
    eexists. split; [apply (vemit_run p _ _ _ _ _ m w H E)|].
    split.
    + unfold vemit_calls, fanout_calls.
      destruct (with_detail (g_derr w) has_errno) eqn:D; eexists;
        (split;
         [ apply in_or_app; right; apply in_locked; apply in_or_app; left;
           unfold console_calls; rewrite D; left; reflexivity
         | split; reflexivity ]).
    + intros c I R.
      destruct (contains_record_line_vemit p _ _ _ _ _ _ _ _ c I R) as [P _].
      unfold pname_of in P. now rewrite N in P.
  - intros w lvl has_errno errnum fmt ap. apply placeholder_same_calls.
Qed.

Lemma C9_defaults_and_placeholder_witness :
  min_level g_derr_init <= DERR_INFO
  /\ (exists l,
        vemit example_platform DERR_INFO 0 0 "up" [] (world0 0)
        = Ret tt (add_calls l (clock_read (world0 0)))
        /\ displays_program "program" l)
  /\ calls_of (vemit example_platform DERR_INFO 0 0 "up" [] (world0 0))
     = calls_of (vemit example_platform DERR_INFO 0 0 "up" []
                   (after (derr_set_program_name (Some "program")) (world0 0))).
Proof.
  split; [|split].
  - apply (C9_defaults_and_placeholder example_platform). reflexivity.
  - apply (C9_defaults_and_placeholder example_platform).
    + reflexivity.
    + vm_compute. discriminate.
    + vm_compute. discriminate.
  - apply (C9_defaults_and_placeholder example_platform). reflexivity.
Defined.

Lemma undefined_level_labels (g : derr_state) (lvl : Z) :
  defined_level lvl = false ->
  level_str lvl = "LOG"
  /\ syslog_priority lvl = LOG_INFO
  /\ level_color g lvl = (if truthy (color g) then ESC +++ "[0m" else "").
Proof.
  unfold defined_level, level_str, syslog_priority, level_color.
  rewrite !orb_false_iff. intros [[[[-> ->] ->] ->] ->].
  now destruct (truthy (color g)).
Qed.

(** C10.  A record sent with [derr_log] at a level that is none of the
    five and not below [min_level] is written: its console and file lines
    carry the label ["LOG"], the console line starts with the reset colour
    code when colour is on, and the syslog write has priority
    [LOG_INFO]. *)
Theorem C10_undefined_level_is_LOG (p : platform) (w : world) (lvl : Z)
  (fmt : string) (ap : list parg) (m : string) :
  defined_level lvl = false ->
  min_level (g_derr w) <= lvl ->
  format fmt ap = Some m ->
  level_str lvl = "LOG"
  /\ syslog_priority lvl = LOG_INFO
  /\ (color (g_derr w) <> 0 -> level_color (g_derr w) lvl = ESC +++ "[0m")
  /\ exists l,
       derr_log p lvl fmt ap w = Ret tt (add_calls l (clock_read w))
       /\ labelled_LOG p (g_derr w) (ts_text p (ticks w) (utc (g_derr w)) 40)
            (truncate 2048 m) l.
Proof.
  intros U H F.
  destruct (undefined_level_labels (g_derr w) lvl U) as [L [S C]].
  split; [exact L|]. split; [exact S|]. split.
  { intros N. apply truthy_true in N. now rewrite C, N. }
  eexists. split; [apply (vemit_run p _ _ _ _ _ m w H F)|].
  unfold labelled_LOG, vemit_calls, fanout_calls.
  assert (D : with_detail (g_derr w) 0 = false) by reflexivity.
  rewrite D. split; [|split].
  - apply in_or_app. right. apply in_locked. apply in_or_app. left.
    unfold console_calls. rewrite D, L, C. left. reflexivity.
  - intros h Hf. apply in_or_app. right. apply in_locked.
    apply in_or_app. right. apply in_or_app. left.
    unfold file_calls. rewrite Hf, D, L. left. reflexivity.
  - intros HP Hs. apply truthy_true in Hs.
    apply in_or_app. right. apply in_locked.
    apply in_or_app. right. apply in_or_app. right. apply in_or_app. left.
    unfold syslog_calls. rewrite HP, Hs, D, S. left. reflexivity.
Qed.

Lemma C10_undefined_level_is_LOG_witness :
  level_str 25 = "LOG"
  /\ syslog_priority 25 = LOG_INFO
  /\ level_color (g_derr world_all_sinks) 25 = ESC +++ "[0m"
  /\ exists l,
       derr_log example_platform 25 "notice" [] world_all_sinks
       = Ret tt (add_calls l (clock_read world_all_sinks))
       /\ labelled_LOG example_platform (g_derr world_all_sinks)
            (ts_text example_platform (ticks world_all_sinks)
               (utc (g_derr world_all_sinks)) 40)
            (truncate 2048 "notice") l.
Proof.
  destruct (C10_undefined_level_is_LOG example_platform world_all_sinks 25
              "notice" [] "notice")
    as [L [S [C E]]].
  - reflexivity.
  - vm_compute. discriminate.
  - reflexivity.
  - split; [exact L|]. split; [exact S|]. split; [|exact E].
    apply C. vm_compute. discriminate.
Defined.

(** ** The mutex *)

Lemma guarded_app (h : bool) (l1 l2 : list call) :
  guarded h l1 = true -> guarded h (l1 ++ l2) = guarded false l2.
Proof.
  revert h. induction l1 as [|c l1 IH]; intros h H.
  - destruct h; [discriminate H | reflexivity].
  - destruct c; cbn [guarded app] in *;
      apply andb_true_iff in H as [H1 H2]; rewrite H1; cbn [andb];
      now apply IH.
Qed.

Section Mutex.

Variable p : platform.
Hypothesis posix : DERR_POSIX p = true.

Lemma vemit_calls_guarded g k lvl has_errno errnum fmt ap msg :
  guarded false (vemit_calls p g k lvl has_errno errnum fmt ap msg) = true.
Proof.
  unfold vemit_calls, fanout_calls, locked, prepare_calls, console_calls,
    file_calls, syslog_calls, backtrace_calls.
  rewrite posix.
  destruct (with_detail g has_errno), (file g), (truthy (use_syslog g)),
    (backtrace_compiled p), (lvl >=? DERR_FATAL), (frames p >? 0);
    reflexivity.
Qed.

Lemma flush_calls_guarded g : guarded false (flush_calls p g) = true.
Proof.
  unfold flush_calls, locked. rewrite posix. now destruct (file g).
Qed.

Lemma thread_program_guarded (l : list call) :
  thread_program p l -> guarded false l = true.
Proof.
  induction 1 as [|g k lvl he en fmt ap msg rest _ IH|g rest _ IH].
  - reflexivity.
  - now rewrite guarded_app by apply vemit_calls_guarded.
  - now rewrite guarded_app by apply flush_calls_guarded.
Qed.

Lemma vemit_calls_bracketed g k lvl has_errno errnum fmt ap msg :
  fanout_bracketed (vemit_calls p g k lvl has_errno errnum fmt ap msg).
Proof.
  exists (prepare_calls g has_errno errnum fmt ap).
  exists (fanout_calls p g k lvl has_errno errnum msg).
  split; [unfold vemit_calls, locked; now rewrite posix|].
  unfold prepare_calls, fanout_calls, console_calls, file_calls,
    syslog_calls, backtrace_calls. rewrite posix.
  destruct (with_detail g has_errno), (file g), (truthy (use_syslog g)),
    (backtrace_compiled p), (lvl >=? DERR_FATAL), (frames p >? 0);
    cbn; intuition discriminate.
Qed.

End Mutex.

Lemma exclusive_app (h : option tid) (l1 l2 : list (tid * call)) :
  exclusive h (l1 ++ l2)
  = exclusive h l1 && exclusive (fold_left next_holder l1 h) l2.
Proof.
  revert h. induction l1 as [|e l1 IH]; intros h; cbn [app exclusive fold_left].
  - reflexivity.
  - now rewrite IH, andb_assoc.
Qed.

Lemma owns_true (h : option tid) (t : tid) : owns h t = true <-> h = Some t.
Proof.
  destruct h as [t'|]; cbn [owns].
  - rewrite Nat.eqb_eq. split; congruence.
  - split; discriminate.
Qed.

Lemma owns_self (t : tid) : owns (Some t) t = true.
Proof. now apply owns_true. Qed.

Lemma owns_other (t t' : tid) : t' <> t -> owns (Some t) t' = false.
Proof.
  intros N. cbn [owns]. apply Nat.eqb_neq. congruence.
Qed.

Lemma fits_fanout (h : option tid) (t : tid) (c : call) :
  fits h (t, c) = true -> in_fanout c = true -> h = Some t.
Proof.
  unfold fits. cbn [fst snd].
  destruct c; cbn [in_fanout negb orb]; intros F I;
    try discriminate I; now apply owns_true.
Qed.

Lemma exclusive_holder (h : option tid) a t c b :
  exclusive h (a ++ (t, c) :: b) = true ->
  in_fanout c = true ->
  fold_left next_holder a h = Some t.
Proof.
  rewrite exclusive_app, andb_true_iff. intros [_ E] I.
  cbn [exclusive] in E. apply andb_true_iff in E as [F _].
  exact (fits_fanout _ _ _ F I).
Qed.

Lemma held_through (t : tid) (mid rest : list (tid * call)) :
  exclusive (Some t) (mid ++ rest) = true ->
  ~ In (t, CUnlock) mid ->
  fold_left next_holder mid (Some t) = Some t.
Proof.
  induction mid as [|[t' c] mid IH]; intros E N; [reflexivity|].
  cbn [app exclusive] in E. apply andb_true_iff in E as [F E].
  assert (K : next_holder (Some t) (t', c) = Some t).
  { unfold fits, next_holder in *. cbn [fst snd] in *.
    destruct c; try reflexivity; try discriminate F.
    exfalso. apply N. left. apply owns_true in F. congruence. }
  cbn [fold_left]. rewrite K in *. apply IH; [exact E|].
  intros I. apply N. now right.
Qed.

Lemma exclusive_no_interleaving a t mid t' c b :
  exclusive None (a ++ (t, CLock) :: mid ++ (t', c) :: b) = true ->
  ~ In (t, CUnlock) mid ->
  in_fanout c = true ->
  t' = t.
Proof.
  rewrite exclusive_app, andb_true_iff. intros [_ E] N I.
  cbn [exclusive] in E. apply andb_true_iff in E as [_ E].
  change (next_holder _ (t, CLock)) with (Some t) in E.
  pose proof (held_through t mid _ E N) as K.
  rewrite exclusive_app, K, andb_true_iff in E. destruct E as [_ E].
  cbn [exclusive] in E. apply andb_true_iff in E as [F _].
  apply fits_fanout in F; [congruence | exact I].
Qed.

Lemma exclusive_fanout (l : list (tid * call)) :
  exclusive None l = true -> fanout_exclusive l.
Proof.
  intros E. split.
  - intros a t c b -> I. exact (exclusive_holder None a t c b E I).
  - intros a t mid t' c b -> N I.
    exact (exclusive_no_interleaving a t mid t' c b E N I).
Qed.

Lemma upd_same (f : tid -> list call) (t : tid) (l : list call) :
  upd f t l t = l.
Proof. unfold upd. now rewrite Nat.eqb_refl. Qed.

Lemma upd_other (f : tid -> list call) (t t' : tid) (l : list call) :
  t' <> t -> upd f t l t' = f t'.
Proof.
  intros N. unfold upd. apply Nat.eqb_neq in N. now rewrite N.
Qed.

Lemma holder_snoc (l : list (tid * call)) (e : tid * call) :
  holder (l ++ [e]) = next_holder (holder l) e.
Proof. unfold holder. now rewrite fold_left_app. Qed.

Lemma exclusive_snoc (l : list (tid * call)) (e : tid * call) :
  exclusive None (l ++ [e]) = exclusive None l && fits (holder l) e.
Proof.
  rewrite exclusive_app. cbn [exclusive]. now rewrite andb_true_r.
Qed.

Lemma sched_step_inv (s s' : sched) :
  sched_inv s -> sched_step s s' -> sched_inv s'.
Proof.
  intros [E [H G]] St.
  destruct St as [s t rest P O|s t rest P O|s t c rest P NL NU];
    unfold sched_inv; cbn [owner pending done];
    rewrite exclusive_snoc, holder_snoc, E, H; cbn [andb].
  - (* lock *)
    rewrite O. split; [reflexivity|]. split; [reflexivity|].
    intros t'. specialize (G t'). rewrite O in G. cbn [owns] in G.
    destruct (Nat.eq_dec t' t) as [->|N].
    + rewrite upd_same, owns_self. rewrite P in G. exact G.
    + rewrite upd_other, owns_other by exact N. exact G.
  - (* unlock *)
    rewrite O. split; [apply owns_self|]. split; [reflexivity|].
    intros t'. specialize (G t'). rewrite O in G. cbn [owns].
    destruct (Nat.eq_dec t' t) as [->|N].
    + rewrite upd_same. rewrite owns_self, P in G. exact G.
    + rewrite upd_other by exact N. rewrite owns_other in G by exact N.
      exact G.
  - (* any other call *)
    pose proof (G t) as Gt. rewrite P in Gt.
    assert (F : fits (owner s) (t, c) = true
                /\ next_holder (owner s) (t, c) = owner s
                /\ guarded (owns (owner s) t) rest = true).
    { unfold fits, next_holder. cbn [fst snd].
      destruct c; try congruence; cbn [guarded in_fanout negb orb] in *;
        apply andb_true_iff in Gt as [G1 G2];
        rewrite ?orb_false_r in G1; repeat split; auto. }
    destruct F as [F1 [F2 F3]].
    split; [exact F1|]. split; [exact F2|].
    intros t'. destruct (Nat.eq_dec t' t) as [->|N].
    + now rewrite upd_same.
    + rewrite upd_other by exact N. apply G.
Qed.

Lemma sched_reach_inv (s s' : sched) :
  sched_inv s -> sched_reach s s' -> sched_inv s'.
Proof.
  intros I R. induction R as [s|s s' s'' _ IH St]; [exact I|].
  exact (sched_step_inv _ _ (IH I) St).
Qed.

Lemma sched_start_inv (prog : tid -> list call) :
  (forall t, guarded false (prog t) = true) -> sched_inv (sched_start prog).
Proof.
  intros G. unfold sched_inv, sched_start. cbn [owner pending done exclusive].
  repeat split. intros t. apply G.
Qed.

Lemma fire_reach (t : tid) (s : sched) : sched_reach s (fire t s).
Proof.
  unfold fire.
  destruct (pending s t) as [|c rest] eqn:P; [apply reach_refl|].
  destruct c;
    try (apply reach_more with s;
         [apply reach_refl | now apply step_call with (1 := P)]).
  - destruct (owner s) eqn:O; [apply reach_refl|].
    apply reach_more with s; [apply reach_refl|].
    now apply step_lock.
  - destruct (owns (owner s) t) eqn:O; [|apply reach_refl].
    apply reach_more with s; [apply reach_refl|].
    apply step_unlock; [exact P | now apply owns_true].
Qed.

Lemma sched_reach_trans (s1 s2 s3 : sched) :
  sched_reach s1 s2 -> sched_reach s2 s3 -> sched_reach s1 s3.
Proof.
  intros R1 R2. induction R2 as [s|s s' s'' _ IH St]; [exact R1|].
  exact (reach_more _ _ _ (IH R1) St).
Qed.

Lemma run_schedule_reach (order : list tid) (s : sched) :
  sched_reach s (run_schedule order s).
Proof.
  unfold run_schedule. revert s.
  induction order as [|t order IH]; intros s; cbn [fold_left].
  - apply reach_refl.
  - exact (sched_reach_trans _ _ _ (fire_reach t s) (IH (fire t s))).
Qed.

(** C8.  On a POSIX build an emission that is filtered out returns
    before the mutex is touched, and every other emission takes the mutex
    before its first call of the fan-out phase and gives it back in its
    last call, with the console, file and syslog writes and the backtrace
    in between.
    When threads run emissions and flushes under any schedule, every such
    call is made by the thread that holds the mutex, and from a thread's
    lock to its unlock no other thread makes one: the lines of one
    emission are never mixed with those of another. *)
Theorem C8_fanout_under_mutex (p : platform) (prog : tid -> list call)
  (s : sched) :
  DERR_POSIX p = true ->
  (forall t, thread_program p (prog t)) ->
  sched_reach (sched_start prog) s ->
  (forall w lvl has_errno errnum fmt ap,
     lvl < min_level (g_derr w) ->
     vemit p lvl has_errno errnum fmt ap w = Ret tt w)
  /\ (forall w lvl has_errno errnum fmt ap m,
        min_level (g_derr w) <= lvl ->
        format fmt ap = Some m ->
        exists l,
          vemit p lvl has_errno errnum fmt ap w
          = Ret tt (add_calls l (clock_read w))
          /\ fanout_bracketed l)
  /\ fanout_exclusive (done s).
Proof.
  intros HP T R. split; [|split].
  - intros. now apply vemit_filtered.
  - intros w lvl has_errno errnum fmt ap m H F.
    eexists. split; [apply (vemit_run p _ _ _ _ _ m w H F)|].
    now apply vemit_calls_bracketed.
  - apply exclusive_fanout.
    apply (sched_reach_inv (sched_start prog) s); [|exact R].
    apply sched_start_inv. intros t.
    now apply thread_program_guarded with p.
Qed.

Lemma C8_fanout_under_mutex_witness :
  (exists l,
     vemit example_platform DERR_ERROR 1 2 "second" [] (world0 0)
     = Ret tt (add_calls l (clock_read (world0 0)))
     /\ fanout_bracketed l)
  /\ fanout_exclusive
       (done (run_schedule [0; 1; 0; 1; 1; 1; 1; 0; 1; 1; 0; 0; 0]%nat
                (sched_start two_threads))).
Proof.
  assert (P : DERR_POSIX example_platform = true) by reflexivity.
  assert (T : forall t, thread_program example_platform (two_threads t)).
  { intros t. destruct t as [|[|t]]; cbn [two_threads]; repeat constructor. }
  split.
  - destruct (C8_fanout_under_mutex example_platform two_threads
                (sched_start two_threads) P T (reach_refl _)) as [_ [B _]].
    apply (B (world0 0) DERR_ERROR 1 2 "second" [] "second").
    + vm_compute. discriminate.
    + reflexivity.
  - apply (C8_fanout_under_mutex example_platform two_threads _ P T).
    apply run_schedule_reach.
Defined.

(** In that schedule the second thread gets the mutex first; the first
    thread's line waits until the second has written both of its lines
    and released the mutex. *)
Example two_threads_order :
  map (fun e => (fst e, sink_of (snd e)))
    (done (run_schedule [0; 1; 0; 1; 1; 1; 1; 0; 1; 1; 0; 0; 0]%nat
             (sched_start two_threads)))
  = [(0, None); (1, None); (0, None); (1, None); (1, None); (1, None);
     (1, Some Console); (1, Some Console); (1, None);
     (0, None); (0, Some Console); (0, None)]%nat.
Proof. vm_compute. reflexivity. Qed.

(** * More properties of the header and of the demo *)

(** ** What a call leaves untouched *)

Lemma vemit_cases (p : platform) (lvl has_errno errnum : Z) (fmt : string)
  (ap : list parg) (w : world) :
  vemit p lvl has_errno errnum fmt ap w = Ret tt w
  \/ (exists m,
        format fmt ap = Some m
        /\ min_level (g_derr w) <= lvl
        /\ vemit p lvl has_errno errnum fmt ap w
           = Ret tt (add_calls
                       (vemit_calls p (g_derr w) (ticks w) lvl has_errno errnum
                          fmt ap (truncate 2048 m))
                       (clock_read w)))
  \/ vemit p lvl has_errno errnum fmt ap w = Undefined.
Proof.
  destruct (Z_lt_le_dec lvl (min_level (g_derr w))) as [H|H].
  - left. now apply vemit_filtered.
  - destruct (format fmt ap) as [m|] eqn:E.
    + right. left. exists m. repeat split; try assumption.
      now apply vemit_run.
    + right. right. now apply vemit_undefined.
Qed.

Lemma vemit_keeps_config (p : platform) (lvl has_errno errnum : Z)
  (fmt : string) (ap : list parg) (w w' : world) :
  vemit p lvl has_errno errnum fmt ap w = Ret tt w' -> g_derr w' = g_derr w.
Proof.
  intros R. apply vemit_returns in R as [->|[m ->]]; reflexivity.
Qed.

Lemma returning_call_keeps_config (p : platform) (a : api) (w w' : world) :
  is_setter a = false ->
  run_api p a w = Ret tt w' ->
  g_derr w' = g_derr w.
Proof.
  intros S R. destruct a; try discriminate S; cbn [run_api] in R.
  - unfold derr_log in R. exact (vemit_keeps_config _ _ _ _ _ _ _ _ R).
  - unfold derr_log_errno in R. exact (vemit_keeps_config _ _ _ _ _ _ _ _ R).
  - rewrite derr_flush_run in R. now injection R as <-.
  - now apply DIE_no_return in R.
  - now apply DIE_ERRNO_no_return in R.
  - now apply DASSERT_returns in R as [_ ->].
  - now apply DTRY_returns in R as [_ ->].
  - now injection R as <-.
Qed.

Lemma vemit_final_config (p : platform) (lvl has_errno errnum : Z)
  (fmt : string) (ap : list parg) (w w' : world) :
  final_world (vemit p lvl has_errno errnum fmt ap w) = Some w' ->
  g_derr w' = g_derr w.
Proof.
  destruct (vemit_cases p lvl has_errno errnum fmt ap w)
    as [->|[[m [_ [_ ->]]]| ->]]; cbn [final_world]; intros [= <-];
    reflexivity.
Qed.

Lemma emit_flush_end_config (p : platform) (fin : M unit)
  (lvl has_errno errnum : Z) (fmt : string) (ap : list parg) (w w' : world) :
  (forall w1, final_world (fin w1) = Some w1) ->
  final_world ((vemit p lvl has_errno errnum fmt ap ;; derr_flush p ;; fin) w)
  = Some w' ->
  g_derr w' = g_derr w.
Proof.
  intros F. unfold bind at 1.
  pose proof (vemit_final_config p lvl has_errno errnum fmt ap w) as V.
  destruct (vemit p lvl has_errno errnum fmt ap w) as [[] w1|s w1|w1|];
    cbn [final_world] in *; try discriminate.
  - unfold bind. rewrite derr_flush_run, F. intros [= <-].
    cbn [add_calls g_derr]. now apply V.
  - intros [= <-]. now apply V.
  - intros [= <-]. now apply V.
Qed.

(** X1.  Only the seven setters change the configuration: when an
    emission, a flush or a macro returns, and when a fatal macro ends the
    process, [g_derr] is what it was before the call, so no record can
    change the threshold, the sinks or the flags for the records after
    it. *)
Theorem only_setters_change_config (p : platform) (a : api) (w w' : world) :
  is_setter a = false ->
  final_world (run_api p a w) = Some w' ->
  g_derr w' = g_derr w.
Proof.
  intros S. destruct a; try discriminate S; cbn [run_api].
  - unfold derr_log. apply vemit_final_config.
  - unfold derr_log_errno. apply vemit_final_config.
  - rewrite derr_flush_run. cbn [final_world]. now intros [= <-].
  - unfold DIE, derr_log. now apply emit_flush_end_config.
  - unfold DIE_ERRNO, derr_log_errno. unfold bind at 1, get_errno.
    now apply emit_flush_end_config.
  - unfold DASSERT. destruct (negb (truthy cond)).
    + unfold derr_log_errno. unfold bind at 1, get_errno.
      now apply emit_flush_end_config.
    + cbn [final_world]. now intros [= <-].
  - unfold DTRY. destruct (equals_minus_one t expr).
    + unfold DIE_ERRNO, derr_log_errno. unfold bind at 1, get_errno.
      now apply emit_flush_end_config.
    + cbn [final_world]. now intros [= <-].
  - cbn [final_world]. now intros [= <-].
Qed.

Lemma only_setters_change_config_witness :
  g_derr (ended (run_api example_platform
                   (DieErrno "open %s" [PStr "/nope"]) world_all_sinks)
            world_all_sinks)
  = g_derr world_all_sinks.
Proof.
  apply (only_setters_change_config example_platform
           (DieErrno "open %s" [PStr "/nope"]) world_all_sinks).
  - reflexivity.
  - vm_compute. reflexivity.
Defined.

(** ** The flags *)

Lemma flag_of_truthy (z : Z) : flag (if truthy z then 1 else 0).
Proof. unfold flag. destruct (truthy z); auto. Qed.

Lemma run_api_keeps_flags (p : platform) (a : api) (w w' : world) :
  flags_normal (g_derr w) ->
  run_api p a w = Ret tt w' ->
  flags_normal (g_derr w').
Proof.
  intros F R. destruct (is_setter a) eqn:S.
  - destruct F as [F1 [F2 [F3 F4]]].
    destruct a; try discriminate S; cbn [run_api] in R;
      try (injection R as <-; unfold flags_normal;
           cbn [g_derr color utc include_errno use_syslog];
           repeat split; auto using flag_of_truthy).
    destruct (DERR_POSIX p) eqn:HP.
    + rewrite derr_use_syslog_run in R by exact HP. injection R as <-.
      unfold flags_normal. cbn [g_derr color utc include_errno use_syslog].
      repeat split; auto.
      destruct (truthy enable && negb (truthy (use_syslog (g_derr w))));
        [right; reflexivity|].
      destruct (negb (truthy enable) && truthy (use_syslog (g_derr w)));
        [left; reflexivity | exact F4].
    + rewrite derr_use_syslog_no_posix in R by exact HP.
      injection R as <-. repeat split; auto.
  - now rewrite (returning_call_keeps_config p a w w' S R).
Qed.

(** X2.  In every world of a running process the flags [color], [utc],
    [include_errno] and [use_syslog] are 0 or 1, whatever integers the
    setters were given. *)
Theorem reachable_flags_normal (p : platform) (w : world) :
  reachable p w -> flags_normal (g_derr w).
Proof.
  induction 1 as [e|w w' a _ IH R].
  - unfold flags_normal, flag. cbn. auto.
  - exact (run_api_keeps_flags p a w w' IH R).
Qed.

Lemma reachable_flags_normal_witness :
  flags_normal
    (g_derr (after (derr_enable_color 7 ;; derr_set_timestamp_utc (-3))
               (world0 0))).
Proof.
  apply (reachable_flags_normal example_platform).
  apply (reach_step example_platform
           (after (derr_enable_color 7) (world0 0)) _ (SetTimestampUtc (-3))).
  - apply (reach_step example_platform (world0 0) _ (EnableColor 7)).
    + apply reach_start.
    + reflexivity.
  - reflexivity.
Defined.

Lemma run_program_reachable (p : platform) (prog : list api) (w : world) :
  reachable p w -> reachable p (run_program p prog w).
Proof.
  revert w. induction prog as [|a prog IH]; intros w R; cbn [run_program].
  - exact R.
  - destruct (run_api p a w) as [[] w'|s w'|w'|] eqn:E; try exact R.
    apply IH. exact (reach_step p w w' a R E).
Qed.

(** ** A build without POSIX *)

Section NoPosix.

Variable p : platform.
Hypothesis no_posix : DERR_POSIX p = false.





End NoPosix.


(** ** The mutex is given back *)

Section Released.

Variable p : platform.
Hypothesis posix : DERR_POSIX p = true.

Lemma released_more (l1 l2 : list call) :
  mutex_released l1 -> mutex_released l2 -> mutex_released (l1 ++ l2).
Proof.
  unfold mutex_released. intros H1 H2. now rewrite guarded_app.
Qed.

Lemma vemit_result_released (lvl has_errno errnum : Z) (fmt : string)
  (ap : list parg) (w : world) :
  mutex_released (trace w) ->
  match final_world (vemit p lvl has_errno errnum fmt ap w) with
  | Some w' => mutex_released (trace w') /\ g_derr w' = g_derr w
  | None => True
  end.
Proof.
  intros T.
  destruct (vemit_cases p lvl has_errno errnum fmt ap w)
    as [->|[[m [_ [_ ->]]]| ->]]; cbn [final_world]; auto.
  split; [|reflexivity]. cbn [add_calls clock_read trace].
  apply released_more; [exact T|].
  now apply vemit_calls_guarded.
Qed.

Lemma flush_released (w : world) :
  mutex_released (trace w) ->
  mutex_released (trace (add_calls (flush_calls p (g_derr w)) w)).
Proof.
  intros T. cbn [add_calls trace]. apply released_more; [exact T|].
  now apply flush_calls_guarded.
Qed.

(** An emission, then the flush, then the end of the process. *)
Lemma emit_flush_end_released (fin : M unit) (lvl has_errno errnum : Z)
  (fmt : string) (ap : list parg) (w : world) :
  (forall w1, mutex_released (trace w1) ->
     match final_world (fin w1) with
     | Some w' => mutex_released (trace w')
     | None => True
     end) ->
  mutex_released (trace w) ->
  match final_world
          ((vemit p lvl has_errno errnum fmt ap ;; derr_flush p ;; fin) w) with
  | Some w' => mutex_released (trace w')
  | None => True
  end.
Proof.
  intros F T. unfold bind at 1.
  pose proof (vemit_result_released lvl has_errno errnum fmt ap w T) as V.
  destruct (vemit p lvl has_errno errnum fmt ap w) as [[] w1|s w1|w1|];
    cbn [final_world] in *; try tauto.
  destruct V as [T1 _]. unfold bind. rewrite derr_flush_run.
  apply F. now apply flush_released.
Qed.

Lemma run_api_released (a : api) (w : world) :
  mutex_released (trace w) ->
  match final_world (run_api p a w) with
  | Some w' => mutex_released (trace w')
  | None => True
  end.
Proof.
  intros T.
  assert (E : forall s w1, mutex_released (trace w1) ->
                match final_world (exit s w1) with
                | Some w' => mutex_released (trace w')
                | None => True
                end) by (intros; assumption).
  destruct a; cbn [run_api final_world]; try exact T.
  - (* UseSyslog *)
    rewrite derr_use_syslog_run by exact posix. cbn [final_world trace].
    apply released_more; [exact T|]. unfold syslog_switch.
    now destruct (truthy enable && negb (truthy (use_syslog (g_derr w)))),
      (negb (truthy enable) && truthy (use_syslog (g_derr w))).
  - (* Log *)
    pose proof (vemit_result_released lvl 0 0 fmt ap w T) as V.
    unfold derr_log. destruct (final_world _); tauto.
  - (* LogErrno *)
    pose proof (vemit_result_released lvl 1 errnum fmt ap w T) as V.
    unfold derr_log_errno. destruct (final_world _); tauto.
  - (* Flush *)
    rewrite derr_flush_run. now apply flush_released.
  - (* Die *)
    unfold DIE, derr_log. now apply emit_flush_end_released.
  - (* DieErrno *)
    unfold DIE_ERRNO, derr_log_errno. unfold bind at 1, get_errno.
    now apply emit_flush_end_released.
  - (* Assert *)
    unfold DASSERT. destruct (negb (truthy cond)); [|exact T].
    unfold derr_log_errno. unfold bind at 1, get_errno.
    apply emit_flush_end_released; [|exact T]. intros; assumption.
  - (* Try *)
    unfold DTRY. destruct (equals_minus_one t expr); [|exact T].
    unfold DIE_ERRNO, derr_log_errno. unfold bind at 1, get_errno.
    now apply emit_flush_end_released.
Qed.

Lemma reachable_released (w : world) :
  reachable p w -> mutex_released (trace w).
Proof.
  induction 1 as [e|w w' a _ IH R].
  - reflexivity.
  - pose proof (run_api_released a w IH) as F. now rewrite R in F.
Qed.

(** X4.  On a POSIX build, whatever the program calls next, the call
    neither returns nor ends the process (through [exit] or [abort]) with
    the mutex held, and every fan-out call it made was made under the
    mutex; this holds in every world a process can reach. *)
Theorem mutex_never_left_held (w : world) (a : api) :
  reachable p w ->
  mutex_released (trace w)
  /\ match final_world (run_api p a w) with
     | Some w' => mutex_released (trace w')
     | None => True
     end.
Proof.
  intros R. pose proof (reachable_released w R) as T.
  split; [exact T | now apply run_api_released].
Qed.

End Released.

Lemma mutex_never_left_held_witness :
  mutex_released
    (trace (run_program example_platform
              [SetLogFile (Some 3%nat); UseSyslog 1; Log DERR_WARN "low" []]
              (world0 0)))
  /\ match final_world
             (run_api example_platform (Die "out of %s" [PStr "memory"])
                (run_program example_platform
                   [SetLogFile (Some 3%nat); UseSyslog 1; Log DERR_WARN "low" []]
                   (world0 0))) with
     | Some w' => mutex_released (trace w')
     | None => True
     end.
Proof.
  apply (mutex_never_left_held example_platform).
  - reflexivity.
  - apply run_program_reachable, reach_start.
Defined.

(** ** What the calls of a process have in common *)

Section EveryCall.

Variable p : platform.
Variable P : derr_state -> list call -> Prop.

Hypothesis P_nil : forall g, P g [].
Hypothesis P_app : forall g l1 l2, P g l1 -> P g l2 -> P g (l1 ++ l2).
Hypothesis P_vemit : forall g k lvl has_errno errnum fmt ap msg,
  P g (vemit_calls p g k lvl has_errno errnum fmt ap msg).
Hypothesis P_flush : forall g, P g (flush_calls p g).
Hypothesis P_switch : forall g enable, P g (syslog_switch g enable).

Lemma vemit_calls_satisfy (lvl has_errno errnum : Z) (fmt : string)
  (ap : list parg) (w w' : world) :
  final_world (vemit p lvl has_errno errnum fmt ap w) = Some w' ->
  g_derr w' = g_derr w
  /\ exists l, trace w' = trace w ++ l /\ P (g_derr w) l.
Proof.
  destruct (vemit_cases p lvl has_errno errnum fmt ap w)
    as [->|[[m [_ [_ ->]]]| ->]]; cbn [final_world]; intros [= <-].
  - split; [reflexivity|]. exists []. now rewrite app_nil_r.
  - split; [reflexivity|]. eexists. split; [reflexivity|]. apply P_vemit.
Qed.

Lemma emit_flush_end_satisfy (fin : M unit) (lvl has_errno errnum : Z)
  (fmt : string) (ap : list parg) (w w' : world) :
  (forall w1, final_world (fin w1) = Some w1) ->
  final_world ((vemit p lvl has_errno errnum fmt ap ;; derr_flush p ;; fin) w)
  = Some w' ->
  exists l, trace w' = trace w ++ l /\ P (g_derr w) l.
Proof.
  intros F. unfold bind at 1.
  pose proof (vemit_calls_satisfy lvl has_errno errnum fmt ap w) as V.
  destruct (vemit p lvl has_errno errnum fmt ap w) as [[] w1|s w1|w1|];
    cbn [final_world] in *; try discriminate.
  - destruct (V w1 eq_refl) as [G [l [T Pl]]].
    unfold bind. rewrite derr_flush_run, F. intros [= <-].
    exists (l ++ flush_calls p (g_derr w1)). cbn [add_calls trace].
    rewrite T, app_assoc. split; [reflexivity|].
    apply P_app; [exact Pl|]. rewrite G. apply P_flush.
  - intros [= <-]. destruct (V w1 eq_refl) as [_ [l [T Pl]]]. eauto.
  - intros [= <-]. destruct (V w1 eq_refl) as [_ [l [T Pl]]]. eauto.
Qed.

Lemma run_api_calls_satisfy (a : api) (w w' : world) :
  final_world (run_api p a w) = Some w' ->
  exists l, trace w' = trace w ++ l /\ P (g_derr w) l.
Proof.
  assert (N : forall w1 : world,
            exists l, trace w1 = trace w1 ++ l /\ P (g_derr w) l).
  { intros w1. exists []. now rewrite app_nil_r. }
  destruct a; cbn [run_api final_world];
    try (intros [= <-]; cbn [trace]; apply (N w)).
  - (* UseSyslog *)
    destruct (DERR_POSIX p) eqn:HP.
    + rewrite derr_use_syslog_run by exact HP. cbn [final_world].
      intros [= <-]. cbn [trace]. eauto.
    + rewrite derr_use_syslog_no_posix by exact HP. cbn [final_world].
      intros [= <-]. apply N.
  - (* Log *)
    unfold derr_log. intros F.
    now apply vemit_calls_satisfy in F as [_ F].
  - (* LogErrno *)
    unfold derr_log_errno. intros F.
    now apply vemit_calls_satisfy in F as [_ F].
  - (* Flush *)
    rewrite derr_flush_run. cbn [final_world]. intros [= <-].
    cbn [add_calls trace]. eauto.
  - (* Die *)
    unfold DIE, derr_log. now apply emit_flush_end_satisfy.
  - (* DieErrno *)
    unfold DIE_ERRNO, derr_log_errno. unfold bind at 1, get_errno.
    now apply emit_flush_end_satisfy.
  - (* Assert *)
    unfold DASSERT. destruct (negb (truthy cond)).
    + unfold derr_log_errno. unfold bind at 1, get_errno.
      now apply emit_flush_end_satisfy.
    + cbn [final_world]. intros [= <-]. apply N.
  - (* Try *)
    unfold DTRY. destruct (equals_minus_one t expr).
    + unfold DIE_ERRNO, derr_log_errno. unfold bind at 1, get_errno.
      now apply emit_flush_end_satisfy.
    + cbn [final_world]. intros [= <-]. apply N.
Qed.

End EveryCall.

(** *** The file stream *)

Lemma vemit_only_configured_file (p : platform) g k lvl has_errno errnum fmt
  ap msg :
  only_configured_file g
    (vemit_calls p g k lvl has_errno errnum fmt ap msg).
Proof.
  unfold only_configured_file, vemit_calls, fanout_calls, locked,
    prepare_calls, console_calls, file_calls, syslog_calls, backtrace_calls.
  intros c h I S.
  destruct (with_detail g has_errno), (DERR_POSIX p), (file g) as [h'|],
    (truthy (use_syslog g)), (backtrace_compiled p), (lvl >=? DERR_FATAL),
    (frames p >? 0);
    simpl in I;
    repeat (destruct I as [<-|I]; [cbn in S; try discriminate S; try congruence|]);
    try contradiction.
Qed.

Lemma flush_only_configured_file (p : platform) g :
  only_configured_file g (flush_calls p g).
Proof.
  unfold only_configured_file, flush_calls, locked. intros c h I S.
  destruct (DERR_POSIX p), (file g) as [h'|]; simpl in I;
    repeat (destruct I as [<-|I]; [cbn in S; try discriminate S; try congruence|]);
    try contradiction.
Qed.

(** X5.  Whatever the program calls, the header writes to and flushes no
    file stream but the one [derr_set_log_file] named, and none at all
    while the file sink is [NULL]; this holds as well for the calls that
    end the process. *)
Theorem no_other_file_stream (p : platform) (a : api) (w w' : world) :
  final_world (run_api p a w) = Some w' ->
  exists l,
    trace w' = trace w ++ l /\ only_configured_file (g_derr w) l.
Proof.
  apply run_api_calls_satisfy.
  - intros g c h [].
  - intros g l1 l2 H1 H2 c h I. apply in_app_or in I as [I|I]; eauto.
  - intros. apply vemit_only_configured_file.
  - intros. apply flush_only_configured_file.
  - intros g enable c h I S. unfold syslog_switch in I.
    destruct (truthy enable && negb (truthy (use_syslog g)));
      [|destruct (negb (truthy enable) && truthy (use_syslog g))];
      simpl in I; try contradiction; destruct I as [<-|[]]; discriminate S.
Qed.

Lemma no_other_file_stream_witness :
  exists l,
    trace (after (derr_flush example_platform) world_all_sinks)
    = trace world_all_sinks ++ l
    /\ only_configured_file (g_derr world_all_sinks) l.
Proof.
  apply (no_other_file_stream example_platform Flush).
  vm_compute. reflexivity.
Defined.

(** *** The arguments of the library's own writes *)

Ltac fits_by_rendering :=
  cbn [arguments_fit];
  first
    [ exact I
    | split;
      [ reflexivity
      | first
          [ rewrite render_stderr; discriminate
          | rewrite render_stderr_errno; discriminate
          | rewrite render_stderr_detail; discriminate
          | rewrite render_file; discriminate
          | rewrite render_file_errno; discriminate
          | rewrite render_syslog; discriminate
          | rewrite render_syslog_errno; discriminate
          | rewrite render_backtrace; discriminate ] ] ].

(** When the arguments are those the conversions ask for, the call is
    defined. *)
Lemma conversions_format (f : string) :
  forall a, conversions f = Some (map conversion_of a) -> format f a <> None.
Proof.
  induction f as [f IH] using (well_founded_induction
                                 (Wf_nat.well_founded_ltof _ String.length)).
  assert (IH' : forall g : string, (String.length g < String.length f)%nat ->
            forall a, conversions g = Some (map conversion_of a) ->
                      format g a <> None) by exact IH.
  clear IH. intros a.
  destruct f as [|ch f]; [discriminate|].
  assert (plain : ch <> "%"%char ->
            conversions (String ch f) = conversions f
            /\ format (String ch f) a = option_map (String ch) (format f a)).
  { intros N. destruct ch as [[] [] [] [] [] [] [] []];
      try (split; reflexivity). now elim N. }
  destruct (Ascii.ascii_dec ch "%"%char) as [->|N].
  - destruct f as [|c2 f]; [discriminate|].
    destruct (Ascii.ascii_dec c2 "s"%char) as [->|Ns];
      [|destruct (Ascii.ascii_dec c2 "d"%char) as [->|Nd];
        [|destruct (Ascii.ascii_dec c2 "%"%char) as [->|Np]]].
    + cbn [conversions format]. destruct (conversions f) as [cs|] eqn:E;
        [|discriminate].
      cbn [option_map]. intros [= Hc].
      destruct a as [|[s|z] a]; try discriminate Hc.
      cbn [map conversion_of] in Hc. injection Hc as Hc.
      specialize (IH' f ltac:(cbn; lia) a). rewrite E, Hc in IH'.
      specialize (IH' eq_refl).
      destruct (format f a); [discriminate | congruence].
    + cbn [conversions format]. destruct (conversions f) as [cs|] eqn:E;
        [|discriminate].
      cbn [option_map]. intros [= Hc].
      destruct a as [|[s|z] a]; try discriminate Hc.
      cbn [map conversion_of] in Hc. injection Hc as Hc.
      specialize (IH' f ltac:(cbn; lia) a). rewrite E, Hc in IH'.
      specialize (IH' eq_refl).
      destruct (format f a); [discriminate | congruence].
    + cbn [conversions format]. intros Hc.
      specialize (IH' f ltac:(cbn; lia) a Hc).
      destruct (format f a); [discriminate | congruence].
    + intros Hc. exfalso.
      destruct c2 as [[] [] [] [] [] [] [] []]; try discriminate Hc;
        congruence.
  - destruct (plain N) as [Ec Ef]. rewrite Ec, Ef. intros Hc.
    specialize (IH' f ltac:(cbn; lia) a Hc).
    destruct (format f a); [discriminate | congruence].
Qed.

(** An argument too many goes unnoticed by [format] and is told by
    [conversions]. *)
Example surplus_argument :
  format "%s: %s" [PStr "a"; PStr "b"; PInt 1] = Some "a: b"
  /\ ~ arguments_fit (CFprintf Stderr "%s: %s" [PStr "a"; PStr "b"; PInt 1]).
Proof.
  split; [reflexivity|]. intros [C _]. discriminate C.
Qed.

Lemma vemit_arguments_fit (p : platform) g k lvl has_errno errnum fmt ap msg :
  Forall arguments_fit (vemit_calls p g k lvl has_errno errnum fmt ap msg).
Proof.
  unfold vemit_calls, fanout_calls, locked, prepare_calls, console_calls,
    file_calls, syslog_calls, backtrace_calls.
  destruct (with_detail g has_errno), (DERR_POSIX p), (file g),
    (truthy (use_syslog g)), (backtrace_compiled p), (lvl >=? DERR_FATAL),
    (frames p >? 0); cbn [app andb];
    repeat (apply Forall_cons; [fits_by_rendering|]); apply Forall_nil.
Qed.

(** X6.  In every [fprintf] and [syslog] call the header makes, the
    arguments are as many and of the types its format string asks for,
    whatever the configuration, the level and the message: the header's
    own writes never run into undefined behaviour of printf. *)
Theorem own_writes_fit_their_formats (p : platform) (a : api) (w w' : world) :
  final_world (run_api p a w) = Some w' ->
  exists l, trace w' = trace w ++ l /\ Forall arguments_fit l.
Proof.
  apply (run_api_calls_satisfy p (fun _ l => Forall arguments_fit l)).
  - intros. apply Forall_nil.
  - intros g l1 l2 H1 H2. apply Forall_app. now split.
  - intros. apply vemit_arguments_fit.
  - intros g. unfold flush_calls, locked.
    destruct (DERR_POSIX p), (file g); repeat constructor.
  - intros g enable. unfold syslog_switch.
    destruct (truthy enable && negb (truthy (use_syslog g)));
      [|destruct (negb (truthy enable) && truthy (use_syslog g))];
      repeat constructor.
Qed.

Lemma own_writes_fit_their_formats_witness :
  exists l,
    trace (after (derr_log_errno example_platform DERR_FATAL 2 "boom" [])
             world_all_sinks)
    = trace world_all_sinks ++ l
    /\ Forall arguments_fit l.
Proof.
  apply (own_writes_fit_their_formats example_platform
           (LogErrno DERR_FATAL 2 "boom" [])).
  vm_compute. reflexivity.
Defined.

(** *** Colour off *)

Lemma colour_off (g : derr_state) (lvl : Z) :
  color g = 0 -> level_color g lvl = "" /\ color_reset g = "".
Proof.
  unfold level_color, color_reset. intros ->. now split.
Qed.

Lemma written_text_app (s : sink) (l1 l2 : list call) :
  written_text s (l1 ++ l2) = written_text s l1 +++ written_text s l2.
Proof.
  unfold written_text.
  induction l1 as [|c l1 IH]; cbn [app fold_right append]; [reflexivity|].
  rewrite IH.
  destruct (sink_of c) as [[]|], (rendered c), s;
    try reflexivity; now rewrite append_assoc.
Qed.

Section ColourOff.

Variable p : platform.

Lemma written_text_prepare s g has_errno errnum fmt ap :
  written_text s (prepare_calls g has_errno errnum fmt ap) = "".
Proof.
  unfold prepare_calls. now destruct (with_detail g has_errno).
Qed.

Lemma written_text_locked s l :
  written_text s (locked p l) = written_text s l.
Proof.
  unfold locked. destruct (DERR_POSIX p); [|reflexivity].
  rewrite !written_text_app. cbn [written_text fold_right sink_of append].
  now rewrite append_empty.
Qed.

Lemma written_text_console g lvl has_errno errnum tbuf msg ebuf :
  written_text Console (console_calls g lvl has_errno errnum tbuf msg ebuf)
  = level_color g lvl +++ tbuf +++ color_reset g +++ " [" +++ level_str lvl
    +++ "] " +++ pname_of g +++ ": " +++ msg
    +++ (if with_detail g has_errno
         then " (errno=" +++ dec errnum +++ ")" +++ NL
              +++ level_color g lvl +++ "        -> " +++ ebuf
              +++ color_reset g +++ NL
         else NL).
Proof.
  unfold console_calls.
  destruct (with_detail g has_errno);
    cbn [written_text fold_right sink_of rendered].
  - rewrite render_stderr_errno, render_stderr_detail.
    rewrite append_empty. now rewrite !append_assoc.
  - rewrite render_stderr. now rewrite append_empty.
Qed.

Lemma written_text_file g lvl has_errno errnum tbuf msg ebuf h :
  file g = Some h ->
  written_text FileSink (file_calls g lvl has_errno errnum tbuf msg ebuf)
  = tbuf +++ " [" +++ level_str lvl +++ "] " +++ pname_of g +++ ": " +++ msg
    +++ (if with_detail g has_errno
         then " (errno=" +++ dec errnum +++ ")" +++ NL
              +++ "        -> " +++ ebuf +++ NL
         else NL).
Proof.
  intros F. unfold file_calls. rewrite F.
  destruct (with_detail g has_errno);
    cbn [written_text fold_right sink_of rendered].
  - rewrite render_file_errno. now rewrite append_empty.
  - rewrite render_file. now rewrite append_empty.
Qed.

Lemma written_text_elsewhere g lvl has_errno errnum tbuf msg ebuf :
  written_text FileSink (console_calls g lvl has_errno errnum tbuf msg ebuf) = ""
  /\ written_text Console (file_calls g lvl has_errno errnum tbuf msg ebuf) = ""
  /\ written_text Console (syslog_calls p g lvl has_errno errnum msg ebuf) = ""
  /\ written_text FileSink (syslog_calls p g lvl has_errno errnum msg ebuf) = ""
  /\ written_text FileSink (backtrace_calls p g lvl) = ""
  /\ (backtrace_written p lvl = false ->
      written_text Console (backtrace_calls p g lvl) = "").
Proof.
  unfold console_calls, file_calls, syslog_calls, backtrace_calls,
    backtrace_written.
  destruct (with_detail g has_errno), (file g),
    (DERR_POSIX p && truthy (use_syslog g)), (backtrace_compiled p),
    (lvl >=? DERR_FATAL), (frames p >? 0);
    cbn [andb written_text fold_right sink_of rendered];
    rewrite ?render_stderr, ?render_stderr_errno, ?render_stderr_detail,
      ?render_file, ?render_file_errno, ?render_syslog, ?render_syslog_errno,
      ?render_backtrace;
    repeat split; try reflexivity; discriminate.
Qed.

(** X7.  With colour switched off, a record that is written to the file
    reads on the console exactly as it reads in the file, byte for byte
    and errno detail included (a record that also prints a backtrace
    aside): the console adds nothing but the colour codes. *)
Theorem colour_off_console_reads_as_file (w : world)
  (lvl has_errno errnum : Z) (fmt : string) (ap : list parg) (m : string) :
  min_level (g_derr w) <= lvl ->
  format fmt ap = Some m ->
  color (g_derr w) = 0 ->
  file (g_derr w) <> None ->
  backtrace_written p lvl = false ->
  exists l,
    vemit p lvl has_errno errnum fmt ap w = Ret tt (add_calls l (clock_read w))
    /\ written_text Console l = written_text FileSink l.
Proof.
  intros H F C N B.
  eexists. split; [apply (vemit_run p _ _ _ _ _ m w H F)|].
  destruct (file (g_derr w)) as [h|] eqn:Fi; [clear N|congruence].
  unfold vemit_calls, fanout_calls.
  set (tbuf := ts_text p (ticks w) (utc (g_derr w)) 40).
  set (ebuf := if with_detail (g_derr w) has_errno
               then strerror_text p errnum 256 else "").
  set (msg := truncate 2048 m).
  destruct (written_text_elsewhere (g_derr w) lvl has_errno errnum
              tbuf msg ebuf) as [E1 [E2 [E3 [E4 [E5 E6]]]]].
  rewrite !written_text_app, !written_text_prepare, !written_text_locked,
    !written_text_app.
  rewrite E1, E2, E3, E4, E5, (E6 B), written_text_console,
    (written_text_file _ _ _ _ _ _ _ h Fi).
  destruct (colour_off (g_derr w) lvl C) as [-> ->].
  cbn [append]. now rewrite !append_empty.
Qed.

End ColourOff.

Lemma colour_off_console_reads_as_file_witness :
  exists l,
    vemit example_platform DERR_ERROR 1 2 "open %s" [PStr "/nope"]
      (after (derr_enable_color 0) world_all_sinks)
    = Ret tt (add_calls l
                (clock_read (after (derr_enable_color 0) world_all_sinks)))
    /\ written_text Console l = written_text FileSink l.
Proof.
  apply (colour_off_console_reads_as_file example_platform
           (after (derr_enable_color 0) world_all_sinks) DERR_ERROR 1 2
           "open %s" [PStr "/nope"] "open /nope").
  - vm_compute. discriminate.
  - reflexivity.
  - reflexivity.
  - vm_compute. discriminate.
  - reflexivity.
Defined.

(** ** [DIE] *)

Section Die.

Variable p : platform.

(** X8.  [DIE] never returns and never aborts: with a message whose
    arguments fit its format it ends the process with
    [exit(EXIT_FAILURE)], and the last calls before that are those of the
    flush, also when the threshold is above FATAL and the record itself
    is dropped.  Its record has no errno detail and no error code is
    translated for it, whatever [errno] holds. *)
Theorem DIE_exits_after_flush (fmt : string) (va : list parg) (w : world) :
  format fmt va <> None ->
  exists l w',
    DIE p fmt va w = Exited EXIT_FAILURE w'
    /\ g_derr w' = g_derr w
    /\ trace w' = trace w ++ l ++ flush_calls p (g_derr w)
    /\ ~ translated l
    /\ detail_writes l = []
    /\ (DERR_FATAL < min_level (g_derr w) -> l = [])
    /\ (min_level (g_derr w) <= DERR_FATAL ->
        exists rest, sink_writes l = Console :: rest).
Proof.
  intros F. destruct (format fmt va) as [m|] eqn:E; [clear F|congruence].
  unfold DIE, derr_log, bind, exit.
  destruct (Z_lt_le_dec DERR_FATAL (min_level (g_derr w))) as [H|H].
  - rewrite vemit_filtered by exact H. rewrite derr_flush_run.
    exists [], (add_calls (flush_calls p (g_derr w)) w).
    repeat split; try reflexivity.
    + intros [e []].
    + intros H'. lia.
  - rewrite (vemit_run p _ _ _ _ _ m w H E), derr_flush_run.
    eexists. eexists. split; [reflexivity|]. split; [reflexivity|].
    split; [cbn [add_calls clock_read trace g_derr]; now rewrite app_assoc|].
    split; [rewrite translated_vemit; discriminate|].
    split; [now rewrite detail_writes_vemit|].
    split; [intros H'; lia|].
    intros _. rewrite sink_writes_vemit. eexists. reflexivity.
Qed.

End Die.

Lemma DIE_exits_after_flush_witness :
  exists l w',
    DIE example_platform "out of %s" [PStr "memory"] (world0 12)
    = Exited EXIT_FAILURE w'
    /\ trace w' = l ++ flush_calls example_platform g_derr_init
    /\ ~ translated l.
Proof.
  destruct (DIE_exits_after_flush example_platform "out of %s"
              [PStr "memory"] (world0 12))
    as [l [w' [R [_ [T [N _]]]]]].
  - vm_compute. discriminate.
  - exists l, w'. repeat split; assumption.
Defined.

(** ** The message buffer *)

Lemma message_of_vemit (p : platform) g k lvl has_errno errnum fmt ap msg c :
  In c (vemit_calls p g k lvl has_errno errnum fmt ap msg) ->
  is_record_line c = true ->
  message_of c = Some (PStr msg).
Proof.
  unfold vemit_calls, fanout_calls, locked, prepare_calls,
    console_calls, file_calls, syslog_calls, backtrace_calls.
  intros H C.
  destruct (with_detail g has_errno), (DERR_POSIX p), (file g),
    (truthy (use_syslog g)), (backtrace_compiled p), (lvl >=? DERR_FATAL),
    (frames p >? 0);
    simpl in H;
    repeat (destruct H as [<-|H]; [try discriminate C; reflexivity|]);
    try contradiction.
Qed.

Lemma console_record_vemit (p : platform) g k lvl has_errno errnum fmt ap msg :
  exists c,
    In c (vemit_calls p g k lvl has_errno errnum fmt ap msg)
    /\ is_record_line c = true
    /\ sink_of c = Some Console.
Proof.
  unfold vemit_calls, fanout_calls, console_calls.
  destruct (with_detail g has_errno);
    eexists; (split; [apply in_or_app; right; apply in_locked;
                      apply in_or_app; left; left; reflexivity|]);
    split; reflexivity.
Qed.

(** X9.  The message of a record is the formatted text cut to the 2047
    bytes that fit [msg]: it is the first 2047 bytes of a longer text and
    the whole of a text that fits, and the emission returns all the same.
    The record has a line on the console, and in every line of the record
    the argument printed as the message is that cut text. *)
Theorem message_is_cut_not_refused (p : platform) (w : world)
  (lvl has_errno errnum : Z) (fmt : string) (ap : list parg) (m : string) :
  min_level (g_derr w) <= lvl ->
  format fmt ap = Some m ->
  exists l msg,
    vemit p lvl has_errno errnum fmt ap w = Ret tt (add_calls l (clock_read w))
    /\ msg = substring 0 2047 m
    /\ String.length msg = Nat.min 2047 (String.length m)
    /\ (String.length msg <= 2047)%nat
    /\ (exists tail, m = msg +++ tail)
    /\ ((String.length m <= 2047)%nat -> msg = m)
    /\ (exists c, In c l /\ is_record_line c = true
                  /\ sink_of c = Some Console)
    /\ (forall c, In c l -> is_record_line c = true ->
          message_of c = Some (PStr msg))
    /\ (forall c, In c l -> is_record_line c = true ->
          In (PStr msg) (call_args c)).
Proof.
  intros H F. eexists. exists (truncate 2048 m).
  split; [apply (vemit_run p _ _ _ _ _ m w H F)|].
  split; [reflexivity|].
  split; [apply substring_length|].
  split; [apply (truncate_fits 2048 m)|].
  split; [apply substring_prefix|].
  split; [intros S; now apply substring_short|].
  split; [apply console_record_vemit|].
  split; [intros c; apply message_of_vemit|].
  intros c I R.
  now destruct (contains_record_line_vemit p _ _ _ _ _ _ _ _ c I R) as [_ [M _]].
Qed.

Lemma message_is_cut_not_refused_witness :
  exists l msg,
    vemit example_platform DERR_INFO 0 0 "up since %d" [PInt 1700000000]
      (world0 0)
    = Ret tt (add_calls l (clock_read (world0 0)))
    /\ msg = "up since 1700000000"
    /\ (forall c, In c l -> is_record_line c = true ->
          message_of c = Some (PStr msg)).
Proof.
  destruct (message_is_cut_not_refused example_platform (world0 0) DERR_INFO
              0 0 "up since %d" [PInt 1700000000] "up since 1700000000")
    as [l [msg [R [E [_ [_ [_ [_ [_ [A _]]]]]]]]]].
  - vm_compute. discriminate.
  - reflexivity.
  - exists l, msg. split; [exact R|]. split; [|exact A].
    rewrite E. vm_compute. reflexivity.
Defined.

(** A text of 3000 bytes keeps its first 2047. *)
Example long_message_cut :
  let m := concat "" (repeat "0123456789" 300) in
  String.length m = 3000%nat
  /\ String.length (truncate 2048 m) = 2047%nat
  /\ truncate 2048 m
     = concat "" (repeat "0123456789" 204) +++ "0123456".
Proof. vm_compute. repeat split. Qed.

(** ** Labels and priorities *)

(** X10.  Among the five levels, two different levels never share a
    label, and a more severe level never gets a less urgent syslog
    priority (a larger number is less urgent). *)
Theorem labels_distinct_priorities_ordered (a b : Z) :
  defined_level a = true ->
  defined_level b = true ->
  (level_str a = level_str b -> a = b)
  /\ (a <= b -> syslog_priority b <= syslog_priority a).
Proof.
  intros A B. apply defined_level_cases in A, B.
  destruct A as [->|[->|[->|[->| ->]]]], B as [->|[->|[->|[->| ->]]]];
    split; cbn; intros H; try reflexivity; try discriminate H;
    try (exfalso; apply H; reflexivity); try discriminate.
Qed.

Lemma labels_distinct_priorities_ordered_witness :
  syslog_priority DERR_ERROR <= syslog_priority DERR_WARN.
Proof.
  apply (labels_distinct_priorities_ordered DERR_WARN DERR_ERROR).
  - reflexivity.
  - reflexivity.
  - vm_compute. discriminate.
Defined.

(** ** The time stamp *)

Lemma checked_below (P : Z -> bool) (b : Z) :
  forallb (fun k => P (Z.of_nat k)) (seq 0 (Z.to_nat b)) = true ->
  forall z, 0 <= z < b -> P z = true.
Proof.
  intros C z Hz. rewrite forallb_forall in C.
  rewrite <- (Z2Nat.id z) by lia. apply C. apply in_seq. lia.
Qed.

Lemma pad0_width_2 (z : Z) :
  0 <= z <= 99 -> String.length (pad0 2 z) = 2%nat.
Proof.
  intros H. apply Nat.eqb_eq.
  apply (checked_below (fun z => Nat.eqb (String.length (pad0 2 z)) 2) 100).
  - vm_compute. reflexivity.
  - lia.
Qed.

Lemma pad0_width_3 (z : Z) :
  0 <= z <= 999 -> String.length (pad0 3 z) = 3%nat.
Proof.
  intros H. apply Nat.eqb_eq.
  apply (checked_below (fun z => Nat.eqb (String.length (pad0 3 z)) 3) 1000).
  - vm_compute. reflexivity.
  - lia.
Qed.

Lemma pad0_width_4 (z : Z) :
  0 <= z <= 9999 -> String.length (pad0 4 z) = 4%nat.
Proof.
  intros H. apply Nat.eqb_eq.
  apply (checked_below (fun z => Nat.eqb (String.length (pad0 4 z)) 4) 10000).
  - vm_compute. reflexivity.
  - lia.
Qed.

Lemma length_append (a b : string) :
  String.length (a +++ b) = (String.length a + String.length b)%nat.
Proof.
  induction a as [|ch a IH]; cbn [append String.length plus];
    [reflexivity | now rewrite IH].
Qed.

Lemma milliseconds_range (ns : Z) :
  0 <= ns <= 999999999 -> 0 <= Z.quot ns 1000000 <= 999.
Proof.
  intros H. rewrite Z.quot_div_nonneg by lia. split.
  - apply Z.div_pos; lia.
  - apply Z.lt_succ_r. apply Z.div_lt_upper_bound; lia.
Qed.

(** X11.  When the clock gives nanoseconds below one second and the
    broken-down time has a four-digit year and two-digit fields, the time
    stamp is 23 bytes long in local time and 24 in UTC, where it ends in
    ["Z"]; it always fits the 40 bytes of [tbuf] and is never cut. *)
Theorem ts_now_fixed_width (p : platform) (w : world) :
  let ts := clock_gettime p (ticks w) in
  let u := utc (g_derr w) in
  0 <= tv_nsec ts <= 999999999 ->
  tm_printable (if truthy u then gmtime_r p (tv_sec ts)
                else localtime_r p (tv_sec ts)) ->
  exists text,
    ts_now p 40 w = Ret text (add_calls [CClockGettime] (clock_read w))
    /\ String.length text = (if truthy u then 24 else 23)%nat
    /\ (u <> 0 -> ends_with "Z" text).
Proof.
  intros ts u N [Y [Mo [D [H [Mi S]]]]].
  exists (ts_text p (ticks w) u 40).
  split.
  { rewrite (run_of_yields _ _ _ _ _ _ w (yields_ts_now p _ (ticks w) 40)
               eq_refl eq_refl).
    now destruct w. }
  unfold ts_text. fold ts.
  set (tmv := if truthy u then gmtime_r p (tv_sec ts)
              else localtime_r p (tv_sec ts)) in *.
  set (body := pad0 4 (tm_year tmv + 1900) +++ "-" +++ pad0 2 (tm_mon tmv + 1)
               +++ "-" +++ pad0 2 (tm_mday tmv) +++ "T"
               +++ pad0 2 (tm_hour tmv) +++ ":" +++ pad0 2 (tm_min tmv)
               +++ ":" +++ pad0 2 (tm_sec tmv) +++ "."
               +++ pad0 3 (Z.quot (tv_nsec ts) 1000000)
               +++ (if truthy u then "Z" else "")).
  assert (L : String.length body = (if truthy u then 24 else 23)%nat).
  { unfold body. rewrite !length_append.
    rewrite pad0_width_4, !pad0_width_2, pad0_width_3
      by (try assumption; now apply milliseconds_range).
    now destruct (truthy u). }
  assert (T : truncate 40 body = body).
  { apply substring_short. rewrite L. destruct (truthy u); cbn; lia. }
  rewrite T. split; [exact L|].
  intros U. apply truthy_true in U. unfold body. rewrite U.
  eexists. rewrite <- !append_assoc. reflexivity.
Qed.

Lemma ts_now_fixed_width_witness :
  exists text,
    ts_now example_platform 40 (after (derr_set_timestamp_utc 1) (world0 0))
    = Ret text (add_calls [CClockGettime]
                  (clock_read (after (derr_set_timestamp_utc 1) (world0 0))))
    /\ String.length text = 24%nat
    /\ ends_with "Z" text.
Proof.
  destruct (ts_now_fixed_width example_platform
              (after (derr_set_timestamp_utc 1) (world0 0)))
    as [text [R [L Z]]].
  - vm_compute. split; discriminate.
  - vm_compute. repeat split; discriminate.
  - exists text. split; [exact R|]. split; [exact L|].
    apply Z. discriminate.
Defined.

(** ** The name syslog knows *)

(** X12.  The name handed to [openlog] is the program name in force when
    syslog is switched on (["program"] if none is set).  Naming the
    program afterwards changes the name in the records but makes no call:
    the channel keeps the earlier name, and asking for syslog again does
    not open it anew. *)
Theorem syslog_ident_fixed_when_enabled (p : platform) (w : world)
  (name : option string) :
  DERR_POSIX p = true ->
  use_syslog (g_derr w) = 0 ->
  exists w',
    (derr_use_syslog p 1 ;; derr_set_program_name name ;; derr_use_syslog p 1) w
    = Ret tt w'
    /\ trace w'
       = trace w ++ [COpenlog (pname_of (g_derr w)) (Z.lor LOG_CONS LOG_PID)
                       LOG_USER]
    /\ progname (g_derr w') = name
    /\ use_syslog (g_derr w') = 1.
Proof.
  intros HP U. unfold bind at 1. rewrite derr_use_syslog_run by exact HP.
  unfold bind at 1, derr_set_program_name, modify.
  rewrite derr_use_syslog_run by exact HP.
  unfold syslog_switch.
  cbn [g_derr errno ticks trace use_syslog progname min_level color utc
         include_errno file pname_of].
  rewrite U. cbn [truthy Z.eqb negb andb app].
  eexists. split; [reflexivity|].
  cbn [g_derr trace progname use_syslog]. rewrite app_nil_r.
  repeat split; reflexivity.
Qed.

Lemma syslog_ident_fixed_when_enabled_witness :
  exists w',
    (derr_use_syslog example_platform 1 ;;
     derr_set_program_name (Some "demo") ;;
     derr_use_syslog example_platform 1) (world0 0)
    = Ret tt w'
    /\ trace w' = [COpenlog "program" 3 8]
    /\ progname (g_derr w') = Some "demo".
Proof.
  destruct (syslog_ident_fixed_when_enabled example_platform (world0 0)
              (Some "demo") eq_refl eq_refl)
    as [w' [R [T [N _]]]].
  exists w'. repeat split; assumption.
Defined.

(** ** The demo program *)

Lemma bind_step {A B : Type} (m : M A) (k : A -> M B) (a : A) (w w1 : world) :
  m w = Ret a w1 -> bind m k w = k a w1.
Proof. intros H. unfold bind. now rewrite H. Qed.

Lemma formats_of_app (l1 l2 : list call) :
  formats_of (l1 ++ l2) = formats_of l1 ++ formats_of l2.
Proof. apply flat_map_app. Qed.

Lemma formats_of_vemit (p : platform) g k lvl has_errno errnum fmt ap msg :
  formats_of (vemit_calls p g k lvl has_errno errnum fmt ap msg) = [fmt].
Proof.
  unfold vemit_calls, fanout_calls, locked, prepare_calls, console_calls,
    file_calls, syslog_calls, backtrace_calls.
  destruct (with_detail g has_errno), (DERR_POSIX p), (file g),
    (truthy (use_syslog g)), (backtrace_compiled p), (lvl >=? DERR_FATAL),
    (frames p >? 0); reflexivity.
Qed.

Lemma formats_of_flush (p : platform) g : formats_of (flush_calls p g) = [].
Proof.
  unfold flush_calls, locked. now destruct (DERR_POSIX p), (file g).
Qed.

Section DemoRun.

Variable p : platform.
Variable env : demo_env.

Lemma log_step {B : Type} (k : unit -> M B) (lvl : Z) (fmt m : string)
  (w : world) :
  min_level (g_derr w) <= lvl ->
  format fmt [] = Some m ->
  bind (derr_log p lvl fmt []) k w
  = k tt (add_calls
            (vemit_calls p (g_derr w) (ticks w) lvl 0 0 fmt [] (truncate 2048 m))
            (clock_read w)).
Proof.
  intros H F. apply bind_step. unfold derr_log. now apply vemit_run.
Qed.

Lemma funzione_pericolosa_run (w : world) :
  min_level (g_derr w) <= DERR_ERROR ->
  funzione_pericolosa p env w
  = Ret tt
      match fopen_result env with
      | Some _ => w
      | None =>
          add_calls
            (vemit_calls p (g_derr w) (ticks w) DERR_ERROR 0 0
               "Impossibile aprire il file" []
               (truncate 2048 "Impossibile aprire il file"))
            (clock_read
               (mk_world (g_derr w) (fopen_errno env) (ticks w) (trace w)))
      end.
Proof.
  intros H. unfold funzione_pericolosa, fopen.
  destruct (fopen_result env) as [h|]; [reflexivity|].
  unfold bind at 1. unfold bind at 1, set_errno, ret.
  unfold DERR_ERROR', derr_log.
  exact (vemit_run p DERR_ERROR 0 0 "Impossibile aprire il file" []
           "Impossibile aprire il file"
           (mk_world (g_derr w) (fopen_errno env) (ticks w) (trace w))
           H eq_refl).
Qed.

(** X13.  The demo never reaches its assertion.  From the start of the
    process, whatever [fopen] does, [main] ends inside [test_dtry] with
    [exit(EXIT_FAILURE)]: it has formatted its three records, the record
    of [funzione_pericolosa] when the file did not open, and last
    ["%s failed"]; the message of [test_assert] is never formatted and
    [abort] is never called. *)
Theorem demo_ends_in_test_dtry (argv0 : option string) (e : Z) :
  exists w',
    main p env argv0 (world0 e) = Exited EXIT_FAILURE w'
    /\ formats_of (trace w')
       = ["Questo è un messaggio di DEBUG (dettagli tecnici)";
          "Avvio del programma demo";
          "Questo è un avviso, qualcosa non è ideale ma non blocca"]
         ++ match fopen_result env with
            | None => ["Impossibile aprire il file"]
            | Some _ => []
            end
         ++ ["%s failed"]
    /\ progname (g_derr w') = argv0.
Proof.
  unfold main.
  do 4 (erewrite bind_step by reflexivity).
  cbn [world0 g_derr_init g_derr errno ticks trace progname min_level color utc
         include_errno file use_syslog truthy Z.eqb negb].
  unfold DERR_DEBUG', DERR_INFO', DERR_WARN'.
  do 3 (erewrite log_step by (try reflexivity; cbn; discriminate);
        unfold add_calls, clock_read; cbn [g_derr errno ticks trace app]).
  erewrite bind_step by (apply funzione_pericolosa_run; cbn; discriminate).
  cbn [g_derr errno ticks trace].
  unfold test_dtry. unfold bind at 1. unfold DTRY.
  change (equals_minus_one C_int (-1)) with true. cbv iota.
  destruct (fopen_result env) as [h|];
    unfold add_calls, clock_read; cbn [g_derr errno ticks trace app];
    (erewrite DIE_ERRNO_run by (try reflexivity; cbn; discriminate));
    unfold add_calls, clock_read; cbn [g_derr errno ticks trace app];
    (eexists; split; [reflexivity|]);
    cbn [trace g_derr progname];
    (split; [|reflexivity]).
  - rewrite !formats_of_app, !formats_of_vemit, formats_of_flush.
    reflexivity.
  - rewrite !formats_of_app, !formats_of_vemit, formats_of_flush.
    reflexivity.
Qed.

End DemoRun.

Lemma demo_ends_in_test_dtry_witness :
  exists w',
    main example_platform (mk_demo_env None 2) (Some "./demo") (world0 0)
    = Exited EXIT_FAILURE w'
    /\ progname (g_derr w') = Some "./demo".
Proof.
  destruct (demo_ends_in_test_dtry example_platform (mk_demo_env None 2)
              (Some "./demo") 0)
    as [w' [R [_ N]]].
  exists w'. split; [exact R | exact N].
Defined.

(** ** One line per record *)

Lemma count_calls_app (f : call -> bool) (l1 l2 : list call) :
  count_calls f (l1 ++ l2) = (count_calls f l1 + count_calls f l2)%nat.
Proof.
  unfold count_calls. now rewrite filter_app, length_app.
Qed.

Lemma one_line_per_record_app (l1 l2 : list call) :
  one_line_per_record l1 -> one_line_per_record l2 ->
  one_line_per_record (l1 ++ l2).
Proof.
  unfold one_line_per_record. rewrite !count_calls_app. lia.
Qed.

Lemma vemit_one_line (p : platform) g k lvl has_errno errnum fmt ap msg :
  one_line_per_record (vemit_calls p g k lvl has_errno errnum fmt ap msg).
Proof.
  unfold one_line_per_record, vemit_calls, fanout_calls, locked, prepare_calls,
    console_calls, file_calls, syslog_calls, backtrace_calls.
  destruct (with_detail g has_errno), (DERR_POSIX p), (file g),
    (truthy (use_syslog g)), (backtrace_compiled p), (lvl >=? DERR_FATAL),
    (frames p >? 0); split; reflexivity.
Qed.

Lemma run_api_one_line (p : platform) (a : api) (w w' : world) :
  one_line_per_record (trace w) ->
  final_world (run_api p a w) = Some w' ->
  one_line_per_record (trace w').
Proof.
  intros T F.
  destruct (run_api_calls_satisfy p (fun _ l => one_line_per_record l))
    with (a := a) (w := w) (w' := w') as [l [E O]]; try exact F.
  - intros. split; reflexivity.
  - intros g l1 l2. apply one_line_per_record_app.
  - intros. apply vemit_one_line.
  - intros g. unfold flush_calls, locked.
    destruct (DERR_POSIX p), (file g); split; reflexivity.
  - intros g enable. unfold syslog_switch.
    destruct (truthy enable && negb (truthy (use_syslog g)));
      [|destruct (negb (truthy enable) && truthy (use_syslog g))];
      split; reflexivity.
  - rewrite E. now apply one_line_per_record_app.
Qed.

(** X14.  No record is lost on the way to the console and none is
    written twice: in every world a process can reach, and in the world
    in which a fatal macro ends it, the primary lines written to stderr
    are as many as the messages formatted and as the readings of the
    clock. *)
Theorem every_record_reaches_console (p : platform) (w : world) (a : api) :
  reachable p w ->
  one_line_per_record (trace w)
  /\ forall w', final_world (run_api p a w) = Some w' ->
       one_line_per_record (trace w').
Proof.
  intros R.
  assert (T : one_line_per_record (trace w)).
  { induction R as [e|w w' a' _ IH S]; [split; reflexivity|].
    apply (run_api_one_line p a' w w' IH). now rewrite S. }
  split; [exact T|]. intros w'. now apply run_api_one_line.
Qed.

Lemma every_record_reaches_console_witness :
  one_line_per_record
    (trace (run_program example_platform
              [SetMinLevel DERR_WARN; Log DERR_INFO "quiet" [];
               LogErrno DERR_ERROR 2 "open %s" [PStr "/nope"]]
              (world0 0))).
Proof.
  destruct (every_record_reaches_console example_platform
              (run_program example_platform
                 [SetMinLevel DERR_WARN; Log DERR_INFO "quiet" [];
                  LogErrno DERR_ERROR 2 "open %s" [PStr "/nope"]]
                 (world0 0))
              Flush) as [T _].
  - apply run_program_reachable. apply reach_start.
  - exact T.
Defined.
